(** * Span: the interactive canvas engine

    A shallow embedding of the graph store ([useNodes], [useEdges]), the
    history manager ([useHistory]), the camera ([useCanvas]), the geometry
    helpers ([utils/geometry.ts]) and the gesture handlers of [Canvas.tsx].

    Conventions.
    - A JavaScript [number] is a rational ([Q]), the value of a finite
      double.  The hooks and handlers are embedded with the exact operations
      of [Q]; what is proved of them does not depend on rounding (clamping,
      frames, selection, history) or says that it is about exact
      operations.  The functions whose result depends on rounding are
      embedded a second time in [Doubles], over an arithmetic [Arith] whose
      operations round as those of doubles do.
    - A [Record<string, T>] object used as a dictionary is a
      [gmap string T], the map of its own properties.  A keyed read [o[k]]
      also finds what a plain object inherits from [Object.prototype]
      ([getMember]); the guards [!prev[id]] of the hooks are embedded with
      it.  In [Canvas.tsx] a keyed read is embedded as a lookup among the
      own properties: a handler reads with the id of a rendered or selected
      node, and the ids the application draws ([node-...], [edge-...])
      name no member of [Object.prototype].
    - A React state cell is a field of an explicit state record; a handler
      is a function from the state committed by the last render to the next
      state.  Functional updates [setX(prev => ...)] are applied in program
      order, a [useRef] cell is updated at once.
    - An identifier produced by [generateId] is an argument of the operation
      that allocates it. *)

From stdpp Require Import gmap strings list fin_maps fin_sets.
From Stdlib Require Import Reals Qreals Lra.
From Stdlib Require Import QArith Qminmax Qfield Qround Qabs Lqa Lia.

Local Open Scope string_scope.
Local Open Scope list_scope.

(** ** Data model ([types/index.ts]) *)

Record Node := mkNode {
  node_id : string;
  node_x : Q;
  node_y : Q;
  node_width : Q;
  node_height : Q;
  node_title : string;
  node_description : string;
  node_collapsed : bool;
  node_titleColor : option string
}.

Record Edge := mkEdge {
  edge_id : string;
  edge_from : string;
  edge_to : string;
  edge_label : option string
}.

Abbreviation NodeMap := (gmap string Node).
Abbreviation EdgeMap := (gmap string Edge).

(** [Partial<Omit<Node, 'id'>>]: every field but [id] may be present.  A
    present [titleColor] may itself hold [undefined]. *)
Record NodeUpdates := mkNodeUpdates {
  upd_x : option Q;
  upd_y : option Q;
  upd_width : option Q;
  upd_height : option Q;
  upd_title : option string;
  upd_description : option string;
  upd_collapsed : option bool;
  upd_titleColor : option (option string)
}.

(** JavaScript truthiness of a [string | null] value. *)
Definition truthy (s : option string) : bool :=
  match s with
  | Some v => negb (String.eqb v "")
  | None => false
  end.

(** ** Theme constants ([theme.ts]) *)

Module colors.
Definition text : string := "#cdd6f4".
Definition blue : string := "#89b4fa".
Definition green : string := "#a6e3a1".
Definition yellow : string := "#f9e2af".
Definition pink : string := "#f5c2e7".
End colors.

Module nodeDefaults.
Definition width : Q := 220.
Definition height : Q := 140.
Definition minWidth : Q := 120.
Definition minHeight : Q := 60.
Definition titleHeight : Q := 32.
End nodeDefaults.

Definition spacing3 : Q := 16.

(** ** Keyed reads on plain objects

    A node map or edge map is a plain object.  The read [prev[id]] looks
    for an own property first and then follows the prototype chain, which
    for a plain object is [Object.prototype]: its members are functions,
    and [__proto__] reads as [Object.prototype] itself.  All of them are
    truthy, and none has an enumerable property of its own, so spreading
    one contributes no field. *)
Definition objectPrototypeKeys : list string :=
  ["constructor"; "__defineGetter__"; "__defineSetter__"; "hasOwnProperty";
   "__lookupGetter__"; "__lookupSetter__"; "isPrototypeOf";
   "propertyIsEnumerable"; "toString"; "valueOf"; "__proto__";
   "toLocaleString"].

Definition inherits (key : string) : bool :=
  existsb (String.eqb key) objectPrototypeKeys.

Inductive Member (A : Type) :=
| Own (a : A)
| Inherited
| Missing.
Arguments Own {A} a.
Arguments Inherited {A}.
Arguments Missing {A}.

(** [o[key]]. *)
Definition getMember {A} (o : gmap string A) (key : string) : Member A :=
  match o !! key with
  | Some a => Own a
  | None => if inherits key then Inherited else Missing
  end.

(** ** Node store ([hooks/useNodes.ts]) *)

Module useNodes.

(** An inherited member read as a node: [{ ...member, ...updates }] holds
    the fields of [updates] and nothing else, [member.collapsed] is
    [undefined].  [Node] has no value for a field that is not there; the
    fields of [noFields] stand for them ([false] for the falsy
    [undefined] of [collapsed]), and nothing below reads a number or a
    string out of a node built from it. *)
Definition noFields : Node :=
  {| node_id := ""; node_x := 0; node_y := 0; node_width := 0;
     node_height := 0; node_title := ""; node_description := "";
     node_collapsed := false; node_titleColor := None |}.

(** The object spread [{ ...node, ...updates }]. *)
Definition spread (n : Node) (u : NodeUpdates) : Node :=
  {| node_id := node_id n;
     node_x := default (node_x n) (upd_x u);
     node_y := default (node_y n) (upd_y u);
     node_width := default (node_width n) (upd_width u);
     node_height := default (node_height n) (upd_height u);
     node_title := default (node_title n) (upd_title u);
     node_description := default (node_description n) (upd_description u);
     node_collapsed := default (node_collapsed n) (upd_collapsed u);
     node_titleColor := default (node_titleColor n) (upd_titleColor u) |}.

Definition createNode (id : string) (x y : Q) (prev : NodeMap)
  : Node * NodeMap :=
  let newNode :=
    {| node_id := id; node_x := x; node_y := y;
       node_width := nodeDefaults.width;
       node_height := nodeDefaults.height;
       node_title := "New Node"; node_description := "";
       node_collapsed := false; node_titleColor := None |} in
  (newNode, <[id := newNode]> prev).

(** The guard [!prev[id]] lets an inherited member through. *)
Definition updateNode (id : string) (updates : NodeUpdates)
    (prev : NodeMap) : NodeMap :=
  match getMember prev id with
  | Missing => prev
  | Own n => <[id := spread n updates]> prev
  | Inherited => <[id := spread noFields updates]> prev
  end.

Definition moveNode (id : string) (x y : Q) (prev : NodeMap) : NodeMap :=
  updateNode id
    (mkNodeUpdates (Some x) (Some y) None None None None None None) prev.

Definition resizeNode (id : string) (w h : Q) (prev : NodeMap) : NodeMap :=
  let clampedWidth := Qmax w nodeDefaults.minWidth in
  let clampedHeight := Qmax h nodeDefaults.minHeight in
  updateNode id
    (mkNodeUpdates None None (Some clampedWidth) (Some clampedHeight)
       None None None None) prev.

Definition toggleCollapse (id : string) (prev : NodeMap) : NodeMap :=
  let toggled (n : Node) :=
    spread n (mkNodeUpdates None None None None None None
                (Some (negb (node_collapsed n))) None) in
  match getMember prev id with
  | Missing => prev
  | Own n => <[id := toggled n]> prev
  | Inherited => <[id := toggled noFields]> prev
  end.

Definition deleteNode (id : string) (prev : NodeMap) : NodeMap :=
  delete id prev.

(** [Object.values(nodes)].  JavaScript lists the values in insertion
    order, [map_to_list] in the order of the keys; what is proved about
    [nodeList] below holds for any order. *)
Definition nodeList (nodes : NodeMap) : list Node :=
  (map_to_list nodes).*2.

Definition setAllNodes (newNodes : NodeMap) (_ : NodeMap) : NodeMap :=
  newNodes.

End useNodes.

(** ** Edge store ([hooks/useEdges.ts]) *)

(** [Partial<Omit<Edge, 'id'>>]. *)
Record EdgeUpdates := mkEdgeUpdates {
  upd_from : option string;
  upd_to : option string;
  upd_label : option (option string)
}.

Module useEdges.

(** [Object.values(edges)], up to order as for [useNodes.nodeList]. *)
Definition edgeList (edges : EdgeMap) : list Edge :=
  (map_to_list edges).*2.

(** The predicate handed to [Array.prototype.some] in [createEdge]. *)
Definition connects (fromNodeId toNodeId : string) (edge : Edge) : bool :=
  (String.eqb (edge_from edge) fromNodeId
     && String.eqb (edge_to edge) toNodeId)
  || (String.eqb (edge_from edge) toNodeId
        && String.eqb (edge_to edge) fromNodeId).

(** [id] is the value [generateId()] returns; it is only drawn once both
    checks have passed. *)
Definition createEdge (id : string) (fromNodeId toNodeId : string)
    (edges : EdgeMap) : option Edge * EdgeMap :=
  if String.eqb fromNodeId toNodeId then (None, edges)
  else
    let exists_ := existsb (connects fromNodeId toNodeId) (edgeList edges) in
    if exists_ then (None, edges)
    else
      let newEdge :=
        {| edge_id := id; edge_from := fromNodeId; edge_to := toNodeId;
           edge_label := None |} in
      (Some newEdge, <[id := newEdge]> edges).

Definition deleteEdge (id : string) (prev : EdgeMap) : EdgeMap :=
  delete id prev.

Definition spread (e : Edge) (u : EdgeUpdates) : Edge :=
  {| edge_id := edge_id e;
     edge_from := default (edge_from e) (upd_from u);
     edge_to := default (edge_to e) (upd_to u);
     edge_label := default (edge_label e) (upd_label u) |}.

(** An inherited member read as an edge: see [useNodes.noFields]. *)
Definition noFields : Edge :=
  {| edge_id := ""; edge_from := ""; edge_to := ""; edge_label := None |}.

(** The guard [!prev[id]] lets an inherited member through. *)
Definition updateEdge (id : string) (updates : EdgeUpdates)
    (prev : EdgeMap) : EdgeMap :=
  match getMember prev id with
  | Missing => prev
  | Own e => <[id := spread e updates]> prev
  | Inherited => <[id := spread noFields updates]> prev
  end.

Definition deleteEdgesForNode (nodeId : string) (prev : EdgeMap) : EdgeMap :=
  filter (λ kv, edge_from kv.2 ≠ nodeId ∧ edge_to kv.2 ≠ nodeId) prev.

Definition setAllEdges (newEdges : EdgeMap) (_ : EdgeMap) : EdgeMap :=
  newEdges.


End useEdges.

(** ** History manager ([hooks/useHistory.ts]) *)

Record HistoryState := mkHistoryState {
  hs_nodes : NodeMap;
  hs_edges : EdgeMap
}.

(** The two [useState] stacks and the [isUndoingRef] cell. *)
Record History := mkHistory {
  past : list HistoryState;
  future : list HistoryState;
  isUndoing : bool
}.

(** [Array.prototype.slice(start)] for an integral [start]: a negative
    [start] counts from the end, and the index is clamped to the array. *)
Definition slice_from {A} (start : Z) (l : list A) : list A :=
  let len := Z.of_nat (length l) in
  let k := if (start <? 0)%Z then Z.max (len + start) 0
           else Z.min start len in
  drop (Z.to_nat k) l.

(** [arr.slice(0, -1)]. *)
Definition slice_init {A} (l : list A) : list A :=
  take (length l - 1) l.

Module useHistory.

Definition DEFAULT_MAX_SIZE : Z := 50.

Definition initial : History := mkHistory [] [] false.

Definition pushState (maxSize : Z) (nodes : NodeMap) (edges : EdgeMap)
    (h : History) : History :=
  if isUndoing h then h
  else
    let newPast := past h ++ [mkHistoryState nodes edges] in
    let past' :=
      if (maxSize <? Z.of_nat (length newPast))%Z
      then slice_from (- maxSize) newPast
      else newPast in
    {| past := past'; future := []; isUndoing := isUndoing h |}.

(** [setNodes] and [setEdges] are the caller's setters, acting on the
    caller's state [S].  The ref is raised while they run and lowered
    before returning. *)
Definition undo {S} (currentNodes : NodeMap) (currentEdges : EdgeMap)
    (setNodes : NodeMap → S → S) (setEdges : EdgeMap → S → S)
    (h : History) (s : S) : bool * History * S :=
  match last (past h) with
  | None => (false, h, s)
  | Some previous =>
      let newPast := slice_init (past h) in
      let future' :=
        future h ++ [mkHistoryState currentNodes currentEdges] in
      let s' := setEdges (hs_edges previous)
                  (setNodes (hs_nodes previous) s) in
      (true, {| past := newPast; future := future'; isUndoing := false |},
       s')
  end.

Definition redo {S} (currentNodes : NodeMap) (currentEdges : EdgeMap)
    (setNodes : NodeMap → S → S) (setEdges : EdgeMap → S → S)
    (h : History) (s : S) : bool * History * S :=
  match last (future h) with
  | None => (false, h, s)
  | Some next =>
      let newFuture := slice_init (future h) in
      let past' := past h ++ [mkHistoryState currentNodes currentEdges] in
      let s' := setEdges (hs_edges next) (setNodes (hs_nodes next) s) in
      (true, {| past := past'; future := newFuture; isUndoing := false |},
       s')
  end.

Definition clearHistory (h : History) : History :=
  {| past := []; future := []; isUndoing := isUndoing h |}.

Definition undoCount (h : History) : nat := length (past h).
Definition redoCount (h : History) : nat := length (future h).

End useHistory.

(** ** Camera ([hooks/useCanvas.ts]) *)

Record Camera := mkCamera {
  cam_x : Q;
  cam_y : Q;
  cam_scale : Q
}.

Record UseCanvasOptions := mkOptions {
  minScale : Q;
  maxScale : Q;
  scaleStep : Q
}.

(** The camera together with the two [useRef] cells of the pan gesture. *)
Record PanState := mkPanState {
  pan_camera : Camera;
  isPanning : bool;
  lastPointerPos : Q * Q
}.

Module useCanvas.

Definition DEFAULT_OPTIONS : UseCanvasOptions :=
  {| minScale := 1 # 10; maxScale := 3; scaleStep := 11 # 10 |}.

Definition initialCamera : Camera := mkCamera 0 0 1.

Definition screenToCanvas (camera : Camera) (screenX screenY : Q) : Q * Q :=
  ((screenX - cam_x camera) / cam_scale camera,
   (screenY - cam_y camera) / cam_scale camera).

Definition canvasToScreen (camera : Camera) (canvasX canvasY : Q) : Q * Q :=
  (canvasX * cam_scale camera + cam_x camera,
   canvasY * cam_scale camera + cam_y camera).

(** [pointer] is [stage.getPointerPosition()]; [None] stands for a missing
    stage or a missing pointer, both of which return early.  [deltaY] is
    the wheel delta of the event. *)
Definition handleWheel (o : UseCanvasOptions) (pointer : option (Q * Q))
    (deltaY : Q) (camera : Camera) : Camera :=
  match pointer with
  | None => camera
  | Some (px, py) =>
      let direction : Z := if Qlt_le_dec deltaY 0 then 1%Z else (-1)%Z in
      let newScale :=
        if (0 <? direction)%Z
        then Qmin (cam_scale camera * scaleStep o) (maxScale o)
        else Qmax (cam_scale camera / scaleStep o) (minScale o) in
      let mousePointTo :=
        ((px - cam_x camera) / cam_scale camera,
         (py - cam_y camera) / cam_scale camera) in
      let newPos :=
        (px - mousePointTo.1 * newScale, py - mousePointTo.2 * newScale) in
      {| cam_x := newPos.1; cam_y := newPos.2; cam_scale := newScale |}
  end.

Definition setCameraPosition (x y scale : option Q) (prev : Camera)
  : Camera :=
  {| cam_x := default (cam_x prev) x;
     cam_y := default (cam_y prev) y;
     cam_scale := default (cam_scale prev) scale |}.

Definition initialPan : PanState := mkPanState initialCamera false (0, 0).

(** [targetIsStage] is [e.target === e.target.getStage()]; [pos] is
    [getPointerPosition()]. *)
Definition handleMouseDown (targetIsStage : bool) (pos : option (Q * Q))
    (ps : PanState) : PanState :=
  if targetIsStage then
    {| pan_camera := pan_camera ps; isPanning := true;
       lastPointerPos := default (lastPointerPos ps) pos |}
  else ps.

Definition handleMouseMove (pos : option (Q * Q)) (ps : PanState)
  : PanState :=
  if negb (isPanning ps) then ps
  else
    match pos with
    | None => ps
    | Some pos =>
        let dx := pos.1 - (lastPointerPos ps).1 in
        let dy := pos.2 - (lastPointerPos ps).2 in
        let prev := pan_camera ps in
        {| pan_camera :=
             {| cam_x := cam_x prev + dx; cam_y := cam_y prev + dy;
                cam_scale := cam_scale prev |};
           isPanning := isPanning ps;
           lastPointerPos := pos |}
    end.

Definition handleMouseUp (ps : PanState) : PanState :=
  {| pan_camera := pan_camera ps; isPanning := false;
     lastPointerPos := lastPointerPos ps |}.

Definition handleMouseLeave (ps : PanState) : PanState :=
  if isPanning ps then
    {| pan_camera := pan_camera ps; isPanning := false;
       lastPointerPos := lastPointerPos ps |}
  else ps.

Definition resetCamera (_ : Camera) : Camera := mkCamera 0 0 1.

End useCanvas.

(** ** Geometry ([utils/geometry.ts]) *)

Inductive HandlePosition := top | right | bottom | left.

Record HandlePoint := mkHandlePoint {
  hp_x : Q;
  hp_y : Q;
  hp_position : HandlePosition;
  hp_nodeId : option string
}.

(** [Record<HandlePosition, HandlePoint>]. *)
Record Handles := mkHandles {
  h_top : HandlePoint;
  h_right : HandlePoint;
  h_bottom : HandlePoint;
  h_left : HandlePoint
}.

(** The result of [findClosestHandleInNodes].  [distance2] is the SQUARE of
    the source's [distance] field: see [hypot2]. *)
Record ClosestHandle := mkClosestHandle {
  handle : HandlePoint;
  distance2 : Q
}.

Module geometry.

Definition SNAP_THRESHOLD : Q := 30.

Definition getNodeDisplayHeight (node : Node) : Q :=
  if node_collapsed node
  then nodeDefaults.titleHeight + spacing3
  else node_height node.

Definition getHandlePoints (node : Node) : Handles :=
  let displayHeight := getNodeDisplayHeight node in
  {| h_top :=
       mkHandlePoint (node_x node + node_width node / 2) (node_y node)
         top (Some (node_id node));
     h_right :=
       mkHandlePoint (node_x node + node_width node)
         (node_y node + displayHeight / 2) right (Some (node_id node));
     h_bottom :=
       mkHandlePoint (node_x node + node_width node / 2)
         (node_y node + displayHeight) bottom (Some (node_id node));
     h_left :=
       mkHandlePoint (node_x node) (node_y node + displayHeight / 2)
         left (Some (node_id node)) |}.

(** [handles[position]]. *)
Definition handleAt (handles : Handles) (position : HandlePosition)
  : HandlePoint :=
  match position with
  | top => h_top handles
  | right => h_right handles
  | bottom => h_bottom handles
  | left => h_left handles
  end.

(** [Object.values(handles)], in the order the literal lists its keys. *)
Definition handleValues (handles : Handles) : list HandlePoint :=
  [h_top handles; h_right handles; h_bottom handles; h_left handles].

(** [Math.hypot(dx, dy)] is the non-negative root of [dx² + dy²], which is
    not rational in general.  The model carries its square: on
    non-negative numbers [<] on squares is [<] on roots, so every
    comparison of the source is made on squares here, and the threshold
    test [distance < SNAP_THRESHOLD] becomes
    [distance2 < SNAP_THRESHOLD * SNAP_THRESHOLD]. *)
Definition hypot2 (dx dy : Q) : Q := dx * dx + dy * dy.

(** One turn of the inner loop.  The accumulator holds [closestHandle]
    together with [minDist]; [None] is the initial pair
    [(null, Infinity)], below which every distance lies. *)
Definition scanHandle (targetX targetY : Q)
    (acc : option (HandlePoint * Q)) (h : HandlePoint)
  : option (HandlePoint * Q) :=
  let dist := hypot2 (hp_x h - targetX) (hp_y h - targetY) in
  match acc with
  | None => Some (h, dist)
  | Some (_, minDist) =>
      if Qlt_le_dec dist minDist then Some (h, dist) else acc
  end.

Definition isExcluded (excludeNodeId : option string) (node : Node) : bool :=
  match excludeNodeId with
  | Some ex => String.eqb (node_id node) ex
  | None => false
  end.

Definition scanNode (targetX targetY : Q) (excludeNodeId : option string)
    (acc : option (HandlePoint * Q)) (node : Node)
  : option (HandlePoint * Q) :=
  if isExcluded excludeNodeId node then acc
  else foldl (scanHandle targetX targetY) acc
         (handleValues (getHandlePoints node)).

Definition findClosestHandleInNodes (nodes : list Node)
    (targetX targetY : Q) (excludeNodeId : option string)
  : option ClosestHandle :=
  match foldl (scanNode targetX targetY excludeNodeId) None nodes with
  | None => None
  | Some (closestHandle, minDist) =>
      Some {| handle := closestHandle; distance2 := minDist |}
  end.




Definition getHandleOffset (position : HandlePosition) (width height : Q)
  : Q * Q :=
  match position with
  | top => (width / 2, 0)
  | right => (width, height / 2)
  | bottom => (width / 2, height)
  | left => (0, height / 2)
  end.

End geometry.

(** ** Interaction controller ([components/Canvas.tsx]) *)

Record ConnectionDragState := mkConnectionDrag {
  fromNodeId : string;
  fromPosition : HandlePosition;
  startX : Q;
  startY : Q;
  currentX : Q;
  currentY : Q;
  snappedNodeId : option string;
  snappedPosition : option HandlePosition;
  snappedX : option Q;
  snappedY : option Q
}.

(** The state cells of the [Canvas] component and of the hooks it uses.
    [editing] records whether an inline edit is open; [dragStartPositions]
    is the [useRef] cell. *)
Record CanvasState := mkCanvas {
  nodes : NodeMap;
  edges : EdgeMap;
  history : History;
  camera : Camera;
  selectedNodeIds : gset string;
  selectedEdgeId : option string;
  editing : bool;
  connectionDrag : option ConnectionDragState;
  draggingNodes : gmap string (Q * Q);
  dragStartPositions : gmap string (Q * Q);
  isDirty : bool
}.

(** The content of a non-null [editing] cell.  [CanvasState] keeps only
    whether the cell is set, which is all the other handlers read; the
    content reaches [handleSaveEdit] as its argument [ed]. *)
Inductive EditField := FieldTitle | FieldDescription | FieldLabel.

Record EditingState := mkEditing {
  ed_nodeId : option string;
  ed_edgeId : option string;
  ed_field : EditField
}.

(** The [copiedNodes] and [pasteOffset] cells of the [Canvas] component. *)
Record Clipboard := mkClipboard {
  copiedNodes : list Node;
  pasteOffset : Q * Q
}.

(** The persisted project ([types/index.ts]). *)
Record ProjectMeta := mkProjectMeta {
  meta_name : string;
  meta_created : string;
  meta_zoom : Q;
  meta_x : Q;
  meta_y : Q
}.

Record Project := mkProject {
  proj_meta : ProjectMeta;
  proj_nodes : NodeMap;
  proj_edges : EdgeMap
}.

(** The [currentFilePath] and [projectName] cells of [useProject]; its
    [isDirty] cell is the one of [CanvasState]. *)
Record ProjectState := mkProjectState {
  currentFilePath : option string;
  projectName : string
}.

Inductive Key := KeyDelete | KeyBackspace | KeyEscape | KeyOther.

Module Canvas.

Definition initial : CanvasState :=
  {| nodes := ∅; edges := ∅; history := useHistory.initial;
     camera := useCanvas.initialCamera;
     selectedNodeIds := ∅; selectedEdgeId := None; editing := false;
     connectionDrag := None; draggingNodes := ∅;
     dragStartPositions := ∅; isDirty := false |}.

Definition setNodes (f : NodeMap → NodeMap) (st : CanvasState) :=
  mkCanvas (f (nodes st)) (edges st) (history st) (camera st)
    (selectedNodeIds st) (selectedEdgeId st) (editing st)
    (connectionDrag st) (draggingNodes st) (dragStartPositions st)
    (isDirty st).

Definition setEdges (f : EdgeMap → EdgeMap) (st : CanvasState) :=
  mkCanvas (nodes st) (f (edges st)) (history st) (camera st)
    (selectedNodeIds st) (selectedEdgeId st) (editing st)
    (connectionDrag st) (draggingNodes st) (dragStartPositions st)
    (isDirty st).

Definition setHistory (h : History) (st : CanvasState) :=
  mkCanvas (nodes st) (edges st) h (camera st)
    (selectedNodeIds st) (selectedEdgeId st) (editing st)
    (connectionDrag st) (draggingNodes st) (dragStartPositions st)
    (isDirty st).

Definition setSelectedNodeIds (s : gset string) (st : CanvasState) :=
  mkCanvas (nodes st) (edges st) (history st) (camera st)
    s (selectedEdgeId st) (editing st)
    (connectionDrag st) (draggingNodes st) (dragStartPositions st)
    (isDirty st).

Definition setSelectedEdgeId (e : option string) (st : CanvasState) :=
  mkCanvas (nodes st) (edges st) (history st) (camera st)
    (selectedNodeIds st) e (editing st)
    (connectionDrag st) (draggingNodes st) (dragStartPositions st)
    (isDirty st).

Definition setEditing (b : bool) (st : CanvasState) :=
  mkCanvas (nodes st) (edges st) (history st) (camera st)
    (selectedNodeIds st) (selectedEdgeId st) b
    (connectionDrag st) (draggingNodes st) (dragStartPositions st)
    (isDirty st).

Definition setConnectionDrag (c : option ConnectionDragState)
    (st : CanvasState) :=
  mkCanvas (nodes st) (edges st) (history st) (camera st)
    (selectedNodeIds st) (selectedEdgeId st) (editing st)
    c (draggingNodes st) (dragStartPositions st) (isDirty st).

Definition setDraggingNodes (f : gmap string (Q * Q) → gmap string (Q * Q))
    (st : CanvasState) :=
  mkCanvas (nodes st) (edges st) (history st) (camera st)
    (selectedNodeIds st) (selectedEdgeId st) (editing st)
    (connectionDrag st) (f (draggingNodes st)) (dragStartPositions st)
    (isDirty st).

Definition setDragStartPositions (d : gmap string (Q * Q))
    (st : CanvasState) :=
  mkCanvas (nodes st) (edges st) (history st) (camera st)
    (selectedNodeIds st) (selectedEdgeId st) (editing st)
    (connectionDrag st) (draggingNodes st) d (isDirty st).

(** [markDirty] of [useProject]. *)
Definition markDirty (st : CanvasState) :=
  mkCanvas (nodes st) (edges st) (history st) (camera st)
    (selectedNodeIds st) (selectedEdgeId st) (editing st)
    (connectionDrag st) (draggingNodes st) (dragStartPositions st) true.

(** [saveStateForUndo] closes over the [nodes] and [edges] of the last
    render: [st0] is that render's state, [st] the state being built. *)
Definition saveStateForUndo (st0 st : CanvasState) : CanvasState :=
  setHistory
    (useHistory.pushState useHistory.DEFAULT_MAX_SIZE (nodes st0)
       (edges st0) (history st))
    st.

Definition handleUndo (st : CanvasState) : CanvasState :=
  let '(success, h, st') :=
    useHistory.undo (nodes st) (edges st)
      (λ n, setNodes (useNodes.setAllNodes n))
      (λ e, setEdges (useEdges.setAllEdges e))
      (history st) st in
  let st'' := setHistory h st' in
  if success then markDirty st'' else st''.

Definition handleRedo (st : CanvasState) : CanvasState :=
  let '(success, h, st') :=
    useHistory.redo (nodes st) (edges st)
      (λ n, setNodes (useNodes.setAllNodes n))
      (λ e, setEdges (useEdges.setAllEdges e))
      (history st) st in
  let st'' := setHistory h st' in
  if success then markDirty st'' else st''.

(** [selectedNodeIds.forEach(f)].  A JavaScript [Set] is visited in
    insertion order, a [gset] in the order of [elements]; the callbacks
    folded here act on pairwise distinct keys. *)
Definition forEachSelected {A} (st : CanvasState) (f : string → A → A)
    (a : A) : A :=
  foldl (λ acc id, f id acc) a (elements (selectedNodeIds st)).

(** The [Delete]/[Backspace] and [Escape] branches of [handleKeyDown];
    the modifier shortcuts are dispatched to their own handlers. *)
Definition handleKeyDown (key : Key) (st : CanvasState) : CanvasState :=
  match key with
  | KeyDelete | KeyBackspace =>
      if editing st then st
      else if truthy (selectedEdgeId st) then
        let st1 := saveStateForUndo st st in
        let st2 :=
          setEdges
            (useEdges.deleteEdge (default "" (selectedEdgeId st))) st1 in
        markDirty (setSelectedEdgeId None st2)
      else if (0 <? size (selectedNodeIds st))%nat then
        let st1 := saveStateForUndo st st in
        let st2 :=
          forEachSelected st
            (λ nodeId, setNodes (useNodes.deleteNode nodeId)) st1 in
        markDirty (setSelectedNodeIds ∅ st2)
      else st
  | KeyEscape =>
      setConnectionDrag None
        (setEditing false
           (setSelectedEdgeId None (setSelectedNodeIds ∅ st)))
  | KeyOther => st
  end.

(** [newNodeId] is what [generateId] returns; [pointer] is the pointer
    position of a double click on the empty stage. *)
Definition createNodeAtPointer (newNodeId : string)
    (pointer : option (Q * Q)) (st : CanvasState) : CanvasState :=
  match pointer with
  | None => st
  | Some (px, py) =>
      let canvasPos := useCanvas.screenToCanvas (camera st) px py in
      let st1 := saveStateForUndo st st in
      let st2 :=
        setNodes
          (λ prev,
             (useNodes.createNode newNodeId canvasPos.1 canvasPos.2
                prev).2) st1 in
      markDirty (setSelectedEdgeId None (setSelectedNodeIds {[newNodeId]} st2))
  end.

Definition handleNodeClick (nodeId : string) (isCtrlClick : bool)
    (st : CanvasState) : CanvasState :=
  if isCtrlClick then
    let prev := selectedNodeIds st in
    let next :=
      if bool_decide (nodeId ∈ prev) then prev ∖ {[nodeId]}
      else prev ∪ {[nodeId]} in
    setSelectedEdgeId None (setSelectedNodeIds next st)
  else
    setSelectedEdgeId None (setSelectedNodeIds {[nodeId]} st).

Definition handleConnectionStart (nodeId : string)
    (position : HandlePosition) (st : CanvasState) : CanvasState :=
  match nodes st !! nodeId with
  | None => st
  | Some node =>
      let handles := geometry.getHandlePoints node in
      let handle := geometry.handleAt handles position in
      setConnectionDrag
        (Some {| fromNodeId := nodeId; fromPosition := position;
                 startX := hp_x handle; startY := hp_y handle;
                 currentX := hp_x handle; currentY := hp_y handle;
                 snappedNodeId := None; snappedPosition := None;
                 snappedX := None; snappedY := None |}) st
  end.

(** [closest && closest.distance < SNAP_THRESHOLD], on squares and with
    exact operations.  What is proved of the handlers below through this
    test (history, selection, the edge committed once a target is stored)
    does not depend on where the threshold falls; the threshold itself is
    studied on [Doubles.isSnapped]. *)
Definition isSnapped (closest : option ClosestHandle) : bool :=
  match closest with
  | None => false
  | Some c =>
      if Qlt_le_dec (distance2 c)
           (geometry.SNAP_THRESHOLD * geometry.SNAP_THRESHOLD)
      then true else false
  end.

Definition handleConnectionMove (screenX screenY : Q) (st : CanvasState)
  : CanvasState :=
  match connectionDrag st with
  | None => st
  | Some drag =>
      let canvasPos :=
        useCanvas.screenToCanvas (camera st) screenX screenY in
      let closest :=
        geometry.findClosestHandleInNodes (useNodes.nodeList (nodes st))
          canvasPos.1 canvasPos.2 (Some (fromNodeId drag)) in
      let snapped := isSnapped closest in
      let pick {A} (f : ClosestHandle → option A) : option A :=
        if snapped then closest ≫= f else None in
      setConnectionDrag
        (Some {| fromNodeId := fromNodeId drag;
                 fromPosition := fromPosition drag;
                 startX := startX drag; startY := startY drag;
                 currentX := canvasPos.1; currentY := canvasPos.2;
                 snappedNodeId :=
                   pick (λ c, if truthy (hp_nodeId (handle c))
                              then hp_nodeId (handle c) else None);
                 snappedPosition :=
                   pick (λ c, Some (hp_position (handle c)));
                 snappedX := pick (λ c, Some (hp_x (handle c)));
                 snappedY := pick (λ c, Some (hp_y (handle c))) |}) st
  end.

(** [newEdgeId] is what [generateId] returns should [createEdge] reach
    it. *)
Definition handleConnectionEnd (newEdgeId : string) (st : CanvasState)
  : CanvasState :=
  match connectionDrag st with
  | None => st
  | Some drag =>
      let st1 :=
        if truthy (snappedNodeId drag) then
          let st2 := saveStateForUndo st st in
          let st3 :=
            setEdges
              (λ prev,
                 (useEdges.createEdge newEdgeId (fromNodeId drag)
                    (default "" (snappedNodeId drag)) prev).2) st2 in
          markDirty st3
        else st in
      setConnectionDrag None st1
  end.

(** [selectedNodeIds.has(nodeId) && selectedNodeIds.size > 1]. *)
Definition isMultiDrag (nodeId : string) (st : CanvasState) : bool :=
  bool_decide (nodeId ∈ selectedNodeIds st)
  && (1 <? size (selectedNodeIds st))%nat.

Definition handleNodeDragMove (nodeId : string) (x y : Q)
    (st : CanvasState) : CanvasState :=
  match nodes st !! nodeId with
  | None => st
  | Some node =>
      (* Store initial positions on first drag move *)
      let starts :=
        match dragStartPositions st !! nodeId with
        | Some _ => dragStartPositions st
        | None =>
            let s1 :=
              <[nodeId := (node_x node, node_y node)]>
                (dragStartPositions st) in
            if isMultiDrag nodeId st then
              forEachSelected st
                (λ id (cur : gmap string (Q * Q)),
                   match nodes st !! id, cur !! id with
                   | Some n, None => <[id := (node_x n, node_y n)]> cur
                   | _, _ => cur
                   end) s1
            else s1
        end in
      let st1 := setDragStartPositions starts st in
      let st2 := setDraggingNodes (λ prev, <[nodeId := (x, y)]> prev) st1 in
      (* Move all other selected nodes by the same offset *)
      if isMultiDrag nodeId st then
        match starts !! nodeId with
        | None => st2
        | Some startPos =>
            let offsetX := x - startPos.1 in
            let offsetY := y - startPos.2 in
            forEachSelected st
              (λ id acc,
                 if String.eqb id nodeId then acc
                 else
                   match starts !! id with
                   | None => acc
                   | Some otherStartPos =>
                       setDraggingNodes
                         (λ prev,
                            <[id := (otherStartPos.1 + offsetX,
                                     otherStartPos.2 + offsetY)]> prev)
                         acc
                   end) st2
        end
      else st2
  end.

Definition handleNodeDragEnd (nodeId : string) (x y : Q)
    (st : CanvasState) : CanvasState :=
  match nodes st !! nodeId with
  | None => st
  | Some node =>
      match dragStartPositions st !! nodeId with
      | None => st
      | Some startPos =>
          let offsetX := x - startPos.1 in
          let offsetY := y - startPos.2 in
          (* Clear dragging positions *)
          let st1 :=
            setDraggingNodes
              (λ prev,
                 forEachSelected st
                   (λ id (next : gmap string (Q * Q)), delete id next)
                   prev) st in
          (* Clear drag start positions *)
          let starts :=
            forEachSelected st
              (λ id (cur : gmap string (Q * Q)), delete id cur)
              (dragStartPositions st) in
          let st2 := setDragStartPositions starts st1 in
          let st3 := saveStateForUndo st st2 in
          (* Move the dragged node *)
          let st4 := setNodes (useNodes.moveNode nodeId x y) st3 in
          (* If multiple nodes selected, move all of them by the same
             offset: the start positions are read from the ref cell as it
             is now *)
          let st5 :=
            if isMultiDrag nodeId st then
              forEachSelected st
                (λ id acc,
                   if String.eqb id nodeId then acc
                   else
                     match dragStartPositions acc !! id with
                     | None => acc
                     | Some otherStartPos =>
                         setNodes
                           (useNodes.moveNode id
                              (otherStartPos.1 + offsetX)
                              (otherStartPos.2 + offsetY)) acc
                     end) st4
            else st4 in
          markDirty st5
      end
  end.

Definition handleStageClick (targetIsStage : bool) (st : CanvasState)
  : CanvasState :=
  if targetIsStage then setSelectedEdgeId None (setSelectedNodeIds ∅ st)
  else st.

Definition handleEdgeClick (edgeId : string) (st : CanvasState)
  : CanvasState :=
  setSelectedNodeIds ∅ (setSelectedEdgeId (Some edgeId) st).

(** [startEditing] and [startEditingEdgeLabel]: the [editing] cell becomes
    non-null. *)
Definition startEditing (st : CanvasState) : CanvasState :=
  setEditing true st.

Definition handleCancelEdit (st : CanvasState) : CanvasState :=
  setEditing false st.

Definition handleSaveEdit (ed : EditingState) (value : string)
    (st : CanvasState) : CanvasState :=
  if editing st then
    let st1 := saveStateForUndo st st in
    let st2 :=
      match ed_field ed with
      | FieldTitle =>
          if truthy (ed_nodeId ed) then
            setNodes
              (useNodes.updateNode (default "" (ed_nodeId ed))
                 (mkNodeUpdates None None None None (Some value) None None
                    None)) st1
          else st1
      | FieldDescription =>
          if truthy (ed_nodeId ed) then
            setNodes
              (useNodes.updateNode (default "" (ed_nodeId ed))
                 (mkNodeUpdates None None None None None (Some value) None
                    None)) st1
          else st1
      | FieldLabel =>
          if truthy (ed_edgeId ed) then
            setEdges
              (useEdges.updateEdge (default "" (ed_edgeId ed))
                 (mkEdgeUpdates None None (Some (Some value)))) st1
          else st1
      end in
    markDirty (setEditing false st2)
  else st.

Definition handleNodeResize (nodeId : string) (w h : Q) (st : CanvasState)
  : CanvasState :=
  markDirty
    (setNodes (useNodes.resizeNode nodeId w h) (saveStateForUndo st st)).

Definition handleToggleCollapse (nodeId : string) (st : CanvasState)
  : CanvasState :=
  markDirty
    (setNodes (useNodes.toggleCollapse nodeId) (saveStateForUndo st st)).

Definition TITLE_COLORS : list string :=
  [colors.text; colors.blue; colors.green; colors.yellow; colors.pink].

(** [Array.prototype.indexOf]; [None] is [-1]. *)
Fixpoint indexOf (c : string) (l : list string) : option nat :=
  match l with
  | [] => None
  | x :: rest => if String.eqb x c then Some O else S <$> indexOf c rest
  end.

(** The colour [handleToggleTitleColor] moves to from [titleColor]. *)
Definition nextTitleColor (titleColor : option string) : string :=
  let currentColor :=
    if truthy titleColor then default "" titleColor
    else default "" (TITLE_COLORS !! O) in
  let nextIndex :=
    match indexOf currentColor TITLE_COLORS with
    | None => O
    | Some currentIndex => ((currentIndex + 1) mod length TITLE_COLORS)%nat
    end in
  default "" (TITLE_COLORS !! nextIndex).

(** The snapshot is pushed before the node is looked up. *)
Definition handleToggleTitleColor (nodeId : string) (st : CanvasState)
  : CanvasState :=
  let st1 := saveStateForUndo st st in
  match nodes st !! nodeId with
  | None => st1
  | Some node =>
      markDirty
        (setNodes
           (useNodes.updateNode nodeId
              (mkNodeUpdates None None None None None None None
                 (Some (Some (nextTitleColor (node_titleColor node))))))
           st1)
  end.

Definition setCamera (f : Camera → Camera) (st : CanvasState) :=
  mkCanvas (nodes st) (edges st) (history st) (f (camera st))
    (selectedNodeIds st) (selectedEdgeId st) (editing st)
    (connectionDrag st) (draggingNodes st) (dragStartPositions st)
    (isDirty st).

Definition setDirty (b : bool) (st : CanvasState) :=
  mkCanvas (nodes st) (edges st) (history st) (camera st)
    (selectedNodeIds st) (selectedEdgeId st) (editing st)
    (connectionDrag st) (draggingNodes st) (dragStartPositions st) b.

Definition initialClipboard : Clipboard := mkClipboard [] (0, 0).

(** [Array.from(selectedNodeIds).map(id => nodes[id]).filter(...)]. *)
Definition nodesToCopy (st : CanvasState) : list Node :=
  omap (λ id, nodes st !! id) (elements (selectedNodeIds st)).

(** [nodes.reduce((sum, node) => sum + f(node), 0) / nodes.length]. *)
Definition average (f : Node → Q) (l : list Node) : Q :=
  foldl (λ sum node, sum + f node) 0 l / inject_Z (Z.of_nat (length l)).

Definition handleCopy (st : CanvasState) (clip : Clipboard) : Clipboard :=
  if (size (selectedNodeIds st) =? 0)%nat then clip
  else
    match nodesToCopy st with
    | [] => clip
    | toCopy =>
        {| copiedNodes := toCopy;
           pasteOffset := (average node_x toCopy, average node_y toCopy) |}
    end.

(** What the loop of [handlePaste] does for one copied node: [createNode]
    at the shifted position under the id drawn, then [updateNode] with the
    copied properties. *)
Definition pasteOne (offsetX offsetY : Q) (newId : string)
    (copiedNode : Node) (prev : NodeMap) : NodeMap :=
  let newX := node_x copiedNode + offsetX in
  let newY := node_y copiedNode + offsetY in
  let created := (useNodes.createNode newId newX newY prev).2 in
  useNodes.updateNode newId
    (mkNodeUpdates None None (Some (node_width copiedNode))
       (Some (node_height copiedNode)) (Some (node_title copiedNode))
       (Some (node_description copiedNode))
       (Some (node_collapsed copiedNode))
       (Some (node_titleColor copiedNode)))
    created.

(** [genId i] is the id [generateId] draws for the [i]-th copied node;
    [stage] is [None] without a stage, [Some None] when the stage reports no
    pointer (the centre of the viewport is used), [Some (Some p)] otherwise;
    [dimensions] is the [dimensions] cell. *)
Definition handlePaste (genId : nat → string)
    (stage : option (option (Q * Q))) (dimensions : Q * Q)
    (st : CanvasState) (clip : Clipboard) : CanvasState * Clipboard :=
  match copiedNodes clip with
  | [] => (st, clip)
  | _ =>
      if editing st then (st, clip)
      else
        match stage with
        | None => (st, clip)
        | Some pointer =>
            let canvasPos :=
              match pointer with
              | Some p => useCanvas.screenToCanvas (camera st) p.1 p.2
              | None =>
                  useCanvas.screenToCanvas (camera st) (dimensions.1 / 2)
                    (dimensions.2 / 2)
              end in
            let offsetX := canvasPos.1 - (pasteOffset clip).1 in
            let offsetY := canvasPos.2 - (pasteOffset clip).2 in
            let st1 := saveStateForUndo st st in
            let '(st2, newNodeIds) :=
              foldl
                (λ '(acc, ids) '(i, copiedNode),
                   (setNodes (pasteOne offsetX offsetY (genId i) copiedNode)
                      acc,
                    ids ++ [genId i]))
                (st1, []) (imap pair (copiedNodes clip)) in
            let st3 :=
              if (0 <? length newNodeIds)%nat then
                setSelectedEdgeId None
                  (setSelectedNodeIds (list_to_set newNodeIds) st2)
              else st2 in
            (markDirty st3,
             {| copiedNodes := copiedNodes clip;
                pasteOffset :=
                  ((pasteOffset clip).1 + 20, (pasteOffset clip).2 + 20) |})
        end
  end.

End Canvas.

(** ** Project persistence ([hooks/useProject.ts])

    The file collaborator is outside: what a dialog or a file operation
    returned is an argument of the handler that awaits it. *)

Module useProject.

Definition initial : ProjectState := mkProjectState None "Untitled".

(** [checkUnsavedChanges]; [confirmed] is what [window.confirm] returns. *)
Definition checkUnsavedChanges (confirmed : bool) (st : CanvasState)
  : bool :=
  if negb (isDirty st) then true else confirmed.

(** [now] is [new Date().toISOString()]. *)
Definition buildProjectData (now : string) (st : CanvasState)
    (ps : ProjectState) : Project :=
  {| proj_meta :=
       {| meta_name := projectName ps; meta_created := now;
          meta_zoom := cam_scale (camera st);
          meta_x := cam_x (camera st); meta_y := cam_y (camera st) |};
     proj_nodes := nodes st;
     proj_edges := edges st |}.

(** [save]: [dialog] is what [showSaveDialog] returns, [success] the
    [success] field of what [saveProject] returns.  The result carries the
    project handed to [saveProject], if it was called. *)
Definition save (now : string) (dialog : option string) (success : bool)
    (st : CanvasState) (ps : ProjectState)
  : bool * option Project * CanvasState * ProjectState :=
  let filePath :=
    if truthy (currentFilePath ps) then currentFilePath ps else dialog in
  if truthy filePath then
    let data := buildProjectData now st ps in
    if success then
      (true, Some data, Canvas.setDirty false st,
       {| currentFilePath := filePath; projectName := projectName ps |})
    else (false, Some data, st, ps)
  else (false, None, st, ps).

(** [loadProjectByPath]: [result] is the [data] of a successful
    [loadProject], [None] for a failure or missing data. *)
Definition loadProjectByPath (filePath : string) (result : option Project)
    (st : CanvasState) (ps : ProjectState)
  : bool * CanvasState * ProjectState :=
  match result with
  | Some project =>
      let st1 :=
        Canvas.setNodes (useNodes.setAllNodes (proj_nodes project)) st in
      let st2 :=
        Canvas.setEdges (useEdges.setAllEdges (proj_edges project)) st1 in
      let st3 :=
        Canvas.setCamera
          (useCanvas.setCameraPosition
             (Some (meta_x (proj_meta project)))
             (Some (meta_y (proj_meta project)))
             (Some (meta_zoom (proj_meta project)))) st2 in
      (true, Canvas.setDirty false st3,
       {| currentFilePath := Some filePath;
          projectName := meta_name (proj_meta project) |})
  | None => (false, st, ps)
  end.

(** [open]: [dialog] is what [showOpenDialog] returns. *)
Definition open (confirmed : bool) (dialog : option string)
    (result : option Project) (st : CanvasState) (ps : ProjectState)
  : bool * CanvasState * ProjectState :=
  if negb (checkUnsavedChanges confirmed st) then (false, st, ps)
  else if truthy dialog then
    loadProjectByPath (default "" dialog) result st ps
  else (false, st, ps).

Definition newProject (confirmed : bool) (st : CanvasState)
    (ps : ProjectState) : bool * CanvasState * ProjectState :=
  if negb (checkUnsavedChanges confirmed st) then (false, st, ps)
  else
    let st1 := Canvas.setNodes (useNodes.setAllNodes ∅) st in
    let st2 := Canvas.setEdges (useEdges.setAllEdges ∅) st1 in
    let st3 :=
      Canvas.setCamera
        (useCanvas.setCameraPosition (Some 0) (Some 0) (Some 1)) st2 in
    (true, Canvas.setDirty false st3,
     {| currentFilePath := None; projectName := "Untitled" |}).

(** The [n] shortcut of [handleKeyDown]: [newProject()] and then
    [clearHistory()], whatever [newProject] returned. *)
Definition handleNewProjectKey (confirmed : bool) (st : CanvasState)
    (ps : ProjectState) : CanvasState * ProjectState :=
  let '(_, st1, ps1) := newProject confirmed st ps in
  (Canvas.setHistory (useHistory.clearHistory (history st1)) st1, ps1).

End useProject.

(** ** The arithmetic of doubles

    A JavaScript [number] is an IEEE 754 binary64 value.  A finite one is
    a rational, and each of [+], [-], [*], [/] returns the double nearest
    to the exact result, the one with an even significand of two at the
    same distance.  [Math.hypot] is left to the implementation by the
    language standard.  A comparison of two finite doubles is the
    comparison of the rationals.

    The functions above compute with exact operations.  Where a result is
    compared with a constant, as in the snap test, the rounding of each
    operation decides the outcome; the functions that lead to that test are
    embedded a second time in [Doubles], over the operations of an
    arithmetic [Arith], which stands for any implementation.  [binary64]
    is one: its four operations are those of IEEE 754 (below the overflow
    threshold, and for a divisor other than zero), its [hypot] takes the
    root to 200 binary digits and rounds it. *)
Record Arith := mkArith {
  n_add : Q → Q → Q;
  n_sub : Q → Q → Q;
  n_mul : Q → Q → Q;
  n_div : Q → Q → Q;
  n_hypot : Q → Q → Q
}.

Module binary64.

Definition pow2 (e : Z) : Q := (2 ^ e)%Q.

(** [floor (log2 a)] for a positive [a]: the difference of the two integer
    logarithms is that or one more. *)
Definition exponent (a : Q) : Z :=
  let e0 := (Z.log2 (Qnum a) - Z.log2 (Zpos (Qden a)))%Z in
  if Qlt_le_dec a (pow2 e0) then (e0 - 1)%Z else e0.

(** The integer nearest to [m], the even one of two at the same distance. *)
Definition nearestEven (m : Q) : Z :=
  let k := Qfloor m in
  let r := (m - inject_Z k)%Q in
  match (r ?= 1 # 2)%Q with
  | Lt => k
  | Gt => (k + 1)%Z
  | Eq => if Z.even k then k else (k + 1)%Z
  end.

(** The double nearest to [q]: 53 significant binary digits, of which
    fewer below the smallest normal exponent [-1022]. *)
Definition round (q : Q) : Q :=
  match (q ?= 0)%Q with
  | Eq => 0%Q
  | c =>
      let a := Qabs q in
      let ulp := pow2 (Z.max (exponent a) (-1022) - 52) in
      let m := (inject_Z (nearestEven (a / ulp)) * ulp)%Q in
      Qred (if c is Lt then (- m)%Q else m)
  end.

(** The root of [a], cut after [bits] binary digits. *)
Definition sqrtDown (bits : Z) (a : Q) : Q :=
  (inject_Z (Z.sqrt (Qnum a * Zpos (Qden a) * 4 ^ bits))
   / (inject_Z (Zpos (Qden a)) * pow2 bits))%Q.

Definition arith : Arith :=
  {| n_add a b := round (a + b);
     n_sub a b := round (a - b);
     n_mul a b := round (a * b);
     n_div a b := round (a / b);
     n_hypot dx dy := round (sqrtDown 200 (dx * dx + dy * dy)) |}.

End binary64.

Module Doubles.

(** The result of [findClosestHandleInNodes]. *)
Record ClosestHandle := mkClosestHandle {
  handle : HandlePoint;
  distance : Q
}.

Section arith.
Variable A : Arith.

Definition screenToCanvas (camera : Camera) (screenX screenY : Q) : Q * Q :=
  (n_div A (n_sub A screenX (cam_x camera)) (cam_scale camera),
   n_div A (n_sub A screenY (cam_y camera)) (cam_scale camera)).

Definition canvasToScreen (camera : Camera) (canvasX canvasY : Q) : Q * Q :=
  (n_add A (n_mul A canvasX (cam_scale camera)) (cam_x camera),
   n_add A (n_mul A canvasY (cam_scale camera)) (cam_y camera)).

Definition handleWheel (o : UseCanvasOptions) (pointer : option (Q * Q))
    (deltaY : Q) (camera : Camera) : Camera :=
  match pointer with
  | None => camera
  | Some (px, py) =>
      let direction : Z := if Qlt_le_dec deltaY 0 then 1%Z else (-1)%Z in
      let newScale :=
        if (0 <? direction)%Z
        then Qmin (n_mul A (cam_scale camera) (scaleStep o)) (maxScale o)
        else Qmax (n_div A (cam_scale camera) (scaleStep o)) (minScale o) in
      let mousePointTo :=
        (n_div A (n_sub A px (cam_x camera)) (cam_scale camera),
         n_div A (n_sub A py (cam_y camera)) (cam_scale camera)) in
      let newPos :=
        (n_sub A px (n_mul A mousePointTo.1 newScale),
         n_sub A py (n_mul A mousePointTo.2 newScale)) in
      {| cam_x := newPos.1; cam_y := newPos.2; cam_scale := newScale |}
  end.

Definition handleMouseMove (pos : option (Q * Q)) (ps : PanState)
  : PanState :=
  if negb (isPanning ps) then ps
  else
    match pos with
    | None => ps
    | Some pos =>
        let dx := n_sub A pos.1 (lastPointerPos ps).1 in
        let dy := n_sub A pos.2 (lastPointerPos ps).2 in
        let prev := pan_camera ps in
        {| pan_camera :=
             {| cam_x := n_add A (cam_x prev) dx;
                cam_y := n_add A (cam_y prev) dy;
                cam_scale := cam_scale prev |};
           isPanning := isPanning ps;
           lastPointerPos := pos |}
    end.

Definition getNodeDisplayHeight (node : Node) : Q :=
  if node_collapsed node
  then n_add A nodeDefaults.titleHeight spacing3
  else node_height node.

Definition getHandlePoints (node : Node) : Handles :=
  let displayHeight := getNodeDisplayHeight node in
  {| h_top :=
       mkHandlePoint (n_add A (node_x node) (n_div A (node_width node) 2))
         (node_y node) top (Some (node_id node));
     h_right :=
       mkHandlePoint (n_add A (node_x node) (node_width node))
         (n_add A (node_y node) (n_div A displayHeight 2))
         right (Some (node_id node));
     h_bottom :=
       mkHandlePoint (n_add A (node_x node) (n_div A (node_width node) 2))
         (n_add A (node_y node) displayHeight) bottom (Some (node_id node));
     h_left :=
       mkHandlePoint (node_x node)
         (n_add A (node_y node) (n_div A displayHeight 2))
         left (Some (node_id node)) |}.

(** One turn of the inner loop of [findClosestHandleInNodes]; [None] is the
    initial pair [(null, Infinity)]. *)
Definition scanHandle (targetX targetY : Q)
    (acc : option (HandlePoint * Q)) (h : HandlePoint)
  : option (HandlePoint * Q) :=
  let dist :=
    n_hypot A (n_sub A (hp_x h) targetX) (n_sub A (hp_y h) targetY) in
  match acc with
  | None => Some (h, dist)
  | Some (_, minDist) =>
      if Qlt_le_dec dist minDist then Some (h, dist) else acc
  end.

Definition scanNode (targetX targetY : Q) (excludeNodeId : option string)
    (acc : option (HandlePoint * Q)) (node : Node)
  : option (HandlePoint * Q) :=
  if geometry.isExcluded excludeNodeId node then acc
  else foldl (scanHandle targetX targetY) acc
         (geometry.handleValues (getHandlePoints node)).

Definition findClosestHandleInNodes (nodes : list Node)
    (targetX targetY : Q) (excludeNodeId : option string)
  : option ClosestHandle :=
  match foldl (scanNode targetX targetY excludeNodeId) None nodes with
  | None => None
  | Some (closestHandle, minDist) =>
      Some {| handle := closestHandle; distance := minDist |}
  end.

(** [closest && closest.distance < SNAP_THRESHOLD]. *)
Definition isSnapped (closest : option ClosestHandle) : bool :=
  match closest with
  | None => false
  | Some c =>
      if Qlt_le_dec (distance c) geometry.SNAP_THRESHOLD
      then true else false
  end.

Definition handleConnectionMove (screenX screenY : Q) (st : CanvasState)
  : CanvasState :=
  match connectionDrag st with
  | None => st
  | Some drag =>
      let canvasPos := screenToCanvas (camera st) screenX screenY in
      let closest :=
        findClosestHandleInNodes (useNodes.nodeList (nodes st))
          canvasPos.1 canvasPos.2 (Some (fromNodeId drag)) in
      let snapped := isSnapped closest in
      let pick {B} (f : ClosestHandle → option B) : option B :=
        if snapped then closest ≫= f else None in
      Canvas.setConnectionDrag
        (Some {| fromNodeId := fromNodeId drag;
                 fromPosition := fromPosition drag;
                 startX := startX drag; startY := startY drag;
                 currentX := canvasPos.1; currentY := canvasPos.2;
                 snappedNodeId :=
                   pick (λ c, if truthy (hp_nodeId (handle c))
                              then hp_nodeId (handle c) else None);
                 snappedPosition :=
                   pick (λ c, Some (hp_position (handle c)));
                 snappedX := pick (λ c, Some (hp_x (handle c)));
                 snappedY := pick (λ c, Some (hp_y (handle c))) |}) st
  end.

(** [nodes.reduce((sum, node) => sum + f(node), 0) / nodes.length]. *)
Definition average (f : Node → Q) (l : list Node) : Q :=
  n_div A (foldl (λ sum node, n_add A sum (f node)) 0 l)
    (inject_Z (Z.of_nat (length l))).

Definition handleCopy (st : CanvasState) (clip : Clipboard) : Clipboard :=
  if (size (selectedNodeIds st) =? 0)%nat then clip
  else
    match Canvas.nodesToCopy st with
    | [] => clip
    | toCopy =>
        {| copiedNodes := toCopy;
           pasteOffset := (average node_x toCopy, average node_y toCopy) |}
    end.

Definition pasteOne (offsetX offsetY : Q) (newId : string)
    (copiedNode : Node) (prev : NodeMap) : NodeMap :=
  let newX := n_add A (node_x copiedNode) offsetX in
  let newY := n_add A (node_y copiedNode) offsetY in
  let created := (useNodes.createNode newId newX newY prev).2 in
  useNodes.updateNode newId
    (mkNodeUpdates None None (Some (node_width copiedNode))
       (Some (node_height copiedNode)) (Some (node_title copiedNode))
       (Some (node_description copiedNode))
       (Some (node_collapsed copiedNode))
       (Some (node_titleColor copiedNode)))
    created.

Definition handlePaste (genId : nat → string)
    (stage : option (option (Q * Q))) (dimensions : Q * Q)
    (st : CanvasState) (clip : Clipboard) : CanvasState * Clipboard :=
  match copiedNodes clip with
  | [] => (st, clip)
  | _ =>
      if editing st then (st, clip)
      else
        match stage with
        | None => (st, clip)
        | Some pointer =>
            let canvasPos :=
              match pointer with
              | Some p => screenToCanvas (camera st) p.1 p.2
              | None =>
                  screenToCanvas (camera st) (n_div A dimensions.1 2)
                    (n_div A dimensions.2 2)
              end in
            let offsetX := n_sub A canvasPos.1 (pasteOffset clip).1 in
            let offsetY := n_sub A canvasPos.2 (pasteOffset clip).2 in
            let st1 := Canvas.saveStateForUndo st st in
            let '(st2, newNodeIds) :=
              foldl
                (λ '(acc, ids) '(i, copiedNode),
                   (Canvas.setNodes
                      (pasteOne offsetX offsetY (genId i) copiedNode) acc,
                    ids ++ [genId i]))
                (st1, []) (imap pair (copiedNodes clip)) in
            let st3 :=
              if (0 <? length newNodeIds)%nat then
                Canvas.setSelectedEdgeId None
                  (Canvas.setSelectedNodeIds (list_to_set newNodeIds) st2)
              else st2 in
            (Canvas.markDirty st3,
             {| copiedNodes := copiedNodes clip;
                pasteOffset :=
                  (n_add A (pasteOffset clip).1 20,
                   n_add A (pasteOffset clip).2 20) |})
        end
  end.

End arith.
End Doubles.

(** ** Specification vocabulary *)

(** [edge] joins the unordered pair [{a, b}]. *)
Definition joins (a b : string) (edge : Edge) : Prop :=
  (edge_from edge = a ∧ edge_to edge = b)
  ∨ (edge_from edge = b ∧ edge_to edge = a).

(** No two entries of the edge map join the same unordered pair. *)
Definition onePerPair (edges : EdgeMap) : Prop :=
  ∀ k1 k2 e1 e2,
    edges !! k1 = Some e1 → edges !! k2 = Some e2 →
    joins (edge_from e1) (edge_to e1) e2 → k1 = k2.

(** A request to [createEdge]: the id [generateId] would draw, and the two
    endpoints. *)
Record EdgeRequest := mkEdgeRequest {
  req_id : string;
  req_from : string;
  req_to : string
}.

(** The edge map after a run of [createEdge] calls. *)
Definition buildEdges (reqs : list EdgeRequest) (edges : EdgeMap) : EdgeMap :=
  foldl
    (λ acc r,
       (useEdges.createEdge (req_id r) (req_from r) (req_to r) acc).2)
    edges reqs.

(** The squared distance from the target to a handle, as the loops of
    [findClosestHandleInNodes] compute it. *)
Definition dist2At (targetX targetY : Q) (h : HandlePoint) : Q :=
  geometry.hypot2 (hp_x h - targetX) (hp_y h - targetY).

(** The Euclidean distance itself, a real number. *)
Definition euclid (targetX targetY : Q) (h : HandlePoint) : R :=
  sqrt (Q2R (dist2At targetX targetY h)).

(** The handles [findClosestHandleInNodes] looks at: the four handles of
    every node but the excluded one, in scan order. *)
Definition candidateHandles (nodes : list Node)
    (excludeNodeId : option string) : list HandlePoint :=
  flat_map
    (λ node,
       if geometry.isExcluded excludeNodeId node then []
       else geometry.handleValues (geometry.getHandlePoints node))
    nodes.

(** The same handles as the arithmetic [A] computes them, and the distance
    [Math.hypot(handle.x - targetX, handle.y - targetY)] it computes. *)
Definition computedHandles (A : Arith) (nodes : list Node)
    (excludeNodeId : option string) : list HandlePoint :=
  flat_map
    (λ node,
       if geometry.isExcluded excludeNodeId node then []
       else geometry.handleValues (Doubles.getHandlePoints A node))
    nodes.

Definition computedDistance (A : Arith) (targetX targetY : Q)
    (h : HandlePoint) : Q :=
  n_hypot A (n_sub A (hp_x h) targetX) (n_sub A (hp_y h) targetY).

(** A wheel event as [handleWheel] reads it: the pointer position the stage
    reports (if any) and [deltaY]. *)
Record WheelEvent := mkWheelEvent {
  we_pointer : option (Q * Q);
  we_deltaY : Q
}.

(** The scale [handleWheel] moves to. *)
Definition nextScale (o : UseCanvasOptions) (deltaY : Q) (camera : Camera)
  : Q :=
  if Qlt_le_dec deltaY 0
  then Qmin (cam_scale camera * scaleStep o) (maxScale o)
  else Qmax (cam_scale camera / scaleStep o) (minScale o).

(** The cameras a run of wheel events goes through. *)
Fixpoint wheelRun (o : UseCanvasOptions) (events : list WheelEvent)
    (camera : Camera) : list Camera :=
  match events with
  | [] => []
  | e :: rest =>
      let camera' :=
        useCanvas.handleWheel o (we_pointer e) (we_deltaY e) camera in
      camera' :: wheelRun o rest camera'
  end.

Definition scaleInRange (o : UseCanvasOptions) (camera : Camera) : Prop :=
  (minScale o <= cam_scale camera ∧ cam_scale camera <= maxScale o)%Q.

(** The graph a history snapshot records, and the setters [undo] and
    [redo] are handed ([setAllNodes], [setAllEdges]). *)
Abbreviation Graph := HistoryState.

Definition setGraphNodes (n : NodeMap) (g : Graph) : Graph :=
  mkHistoryState n (hs_edges g).

Definition setGraphEdges (e : EdgeMap) (g : Graph) : Graph :=
  mkHistoryState (hs_nodes g) e.

(** One logical user action: [pushState] of the graph as it is, then the
    mutation. *)
Definition act (maxSize : Z) (s : History * Graph) (a : Graph → Graph)
  : History * Graph :=
  (useHistory.pushState maxSize (hs_nodes s.2) (hs_edges s.2) s.1, a s.2).

Definition runActions (maxSize : Z) (actions : list (Graph → Graph))
    (s : History * Graph) : History * Graph :=
  foldl (act maxSize) s actions.

Definition undoStep (s : History * Graph) : bool * (History * Graph) :=
  let '(ok, h, g) :=
    useHistory.undo (hs_nodes s.2) (hs_edges s.2)
      setGraphNodes setGraphEdges s.1 s.2 in
  (ok, (h, g)).

Definition redoStep (s : History * Graph) : bool * (History * Graph) :=
  let '(ok, h, g) :=
    useHistory.redo (hs_nodes s.2) (hs_edges s.2)
      setGraphNodes setGraphEdges s.1 s.2 in
  (ok, (h, g)).

(** [n] calls in a row, with the value each call returned. *)
Fixpoint repeatStep {S} (step : S → bool * S) (n : nat) (s : S)
  : list bool * S :=
  match n with
  | O => ([], s)
  | Datatypes.S n' =>
      let '(ok, s1) := step s in
      let '(oks, s2) := repeatStep step n' s1 in
      (ok :: oks, s2)
  end.

(** The graphs held before each action of a run. *)
Fixpoint snapshots (actions : list (Graph → Graph)) (g : Graph)
  : list Graph :=
  match actions with
  | [] => []
  | a :: rest => g :: snapshots rest (a g)
  end.

(** *** Sample sessions

    Two nodes are created by double clicks at (0, 0) and (300, 0) under the
    initial camera, then joined by dragging a connection from the right
    handle of the first to a point 29 units left of the left handle of the
    second. *)
Definition twoNodes : CanvasState :=
  Canvas.createNodeAtPointer "node-b" (Some (300, 0))
    (Canvas.createNodeAtPointer "node-a" (Some (0, 0)) Canvas.initial).

Definition dragTowardsB (st : CanvasState) : CanvasState :=
  Canvas.handleConnectionMove 271 70
    (Canvas.handleConnectionStart "node-a" right st).

Definition connected : CanvasState :=
  Canvas.handleConnectionEnd "edge-1" (dragTowardsB twoNodes).

(** Both nodes selected (click, then modifier-click) and the first dragged
    by (50, -20). *)
Definition bothSelected : CanvasState :=
  Canvas.handleNodeClick "node-b" true
    (Canvas.handleNodeClick "node-a" false connected).

Definition midDrag : CanvasState :=
  Canvas.handleNodeDragMove "node-a" 50 (-20) bothSelected.

Definition afterDrag : CanvasState :=
  Canvas.handleNodeDragEnd "node-a" 50 (-20) midDrag.

(** The first node selected alone, then [Delete]. *)
Definition afterDelete : CanvasState :=
  Canvas.handleKeyDown KeyDelete
    (Canvas.handleNodeClick "node-a" false connected).

(** A sample run for the history bound: a graph with the single node [n],
    and the action that moves it to abscissa [i]. *)
Definition sampleGraph : Graph :=
  mkHistoryState {["n" := mkNode "n" 0 0 220 140 "New Node" "" false None]} ∅.

Definition moveTo (i : nat) (g : Graph) : Graph :=
  setGraphNodes
    (useNodes.moveNode "n" (inject_Z (Z.of_nat i)) 0 (hs_nodes g)) g.

(** A run of [pushState] calls. *)
Definition pushAll (maxSize : Z) (snaps : list Graph) (h : History)
  : History :=
  foldl (λ acc g, useHistory.pushState maxSize (hs_nodes g) (hs_edges g) acc)
    h snaps.

(** *** The gestures of the canvas

    One constructor per handler of [Canvas.tsx] that a pointer or key event
    reaches, with the values the event carries. *)
Inductive Gesture :=
| GCreateNode (newNodeId : string) (pointer : option (Q * Q))
| GKey (key : Key)
| GNodeClick (nodeId : string) (isCtrlClick : bool)
| GEdgeClick (edgeId : string)
| GStageClick (targetIsStage : bool)
| GStartEditing
| GCancelEdit
| GSaveEdit (ed : EditingState) (value : string)
| GConnectionStart (nodeId : string) (position : HandlePosition)
| GConnectionMove (screenX screenY : Q)
| GConnectionEnd (newEdgeId : string)
| GNodeDragMove (nodeId : string) (x y : Q)
| GNodeDragEnd (nodeId : string) (x y : Q)
| GNodeResize (nodeId : string) (w h : Q)
| GToggleCollapse (nodeId : string)
| GToggleTitleColor (nodeId : string).

Definition applyGesture (g : Gesture) (st : CanvasState) : CanvasState :=
  match g with
  | GCreateNode newNodeId pointer =>
      Canvas.createNodeAtPointer newNodeId pointer st
  | GKey key => Canvas.handleKeyDown key st
  | GNodeClick nodeId isCtrlClick =>
      Canvas.handleNodeClick nodeId isCtrlClick st
  | GEdgeClick edgeId => Canvas.handleEdgeClick edgeId st
  | GStageClick targetIsStage => Canvas.handleStageClick targetIsStage st
  | GStartEditing => Canvas.startEditing st
  | GCancelEdit => Canvas.handleCancelEdit st
  | GSaveEdit ed value => Canvas.handleSaveEdit ed value st
  | GConnectionStart nodeId position =>
      Canvas.handleConnectionStart nodeId position st
  | GConnectionMove screenX screenY =>
      Canvas.handleConnectionMove screenX screenY st
  | GConnectionEnd newEdgeId => Canvas.handleConnectionEnd newEdgeId st
  | GNodeDragMove nodeId x y => Canvas.handleNodeDragMove nodeId x y st
  | GNodeDragEnd nodeId x y => Canvas.handleNodeDragEnd nodeId x y st
  | GNodeResize nodeId w h => Canvas.handleNodeResize nodeId w h st
  | GToggleCollapse nodeId => Canvas.handleToggleCollapse nodeId st
  | GToggleTitleColor nodeId => Canvas.handleToggleTitleColor nodeId st
  end.

(** An input event: a gesture, or one of the two history shortcuts. *)
Inductive CanvasEvent :=
| Do (g : Gesture)
| UndoKey
| RedoKey.

Definition applyEvent (st : CanvasState) (e : CanvasEvent) : CanvasState :=
  match e with
  | Do g => applyGesture g st
  | UndoKey => Canvas.handleUndo st
  | RedoKey => Canvas.handleRedo st
  end.

Definition runEvents (events : list CanvasEvent) (st : CanvasState)
  : CanvasState :=
  foldl applyEvent st events.

(** The parts of the state the properties of the gestures look at. *)
Definition graphAndHistory (st : CanvasState) :=
  (nodes st, edges st, history st).

Definition selection (st : CanvasState) :=
  (selectedNodeIds st, selectedEdgeId st).

(** At most one kind of thing is selected. *)
Definition selectionExclusive (st : CanvasState) : Prop :=
  selectedEdgeId st = None ∨ selectedNodeIds st = ∅.

(** *** The resize handle of a node ([components/Node.tsx]) *)

Module NodeView.

Definition RESIZE_HANDLE_SIZE : Q := 8.

(** [handleResizeDragMove]: the [localSize] it stores, from the position
    [(hx, hy)] of the dragged handle. *)
Definition handleResizeDragMove (hx hy : Q) : Q * Q :=
  (Qmax (hx + RESIZE_HANDLE_SIZE / 2) nodeDefaults.minWidth,
   Qmax (hy + RESIZE_HANDLE_SIZE / 2) nodeDefaults.minHeight).

(** [handleResizeDragEnd]: [onResize] is [Canvas.handleNodeResize] for this
    node; without a [localSize] nothing is committed. *)
Definition handleResizeDragEnd (nodeId : string) (localSize : option (Q * Q))
    (st : CanvasState) : CanvasState :=
  match localSize with
  | Some size => Canvas.handleNodeResize nodeId size.1 size.2 st
  | None => st
  end.

End NodeView.

(** *** Operations of the history manager, as a trace *)
Inductive HistoryOp :=
| OpPush (g : Graph)
| OpUndo
| OpRedo
| OpClear.

Definition applyHistoryOp (maxSize : Z) (s : History * Graph)
    (op : HistoryOp) : History * Graph :=
  match op with
  | OpPush g =>
      (useHistory.pushState maxSize (hs_nodes s.2) (hs_edges s.2) s.1, g)
  | OpUndo => (undoStep s).2
  | OpRedo => (redoStep s).2
  | OpClear => (useHistory.clearHistory s.1, s.2)
  end.

(** The pointer moves of a pan gesture, in order; [None] is a move for
    which the stage reports no pointer. *)
Definition panMoves (moves : list (option (Q * Q))) (ps : PanState)
  : PanState :=
  foldl (λ acc pos, useCanvas.handleMouseMove pos acc) ps moves.

(** The same moves in the arithmetic [A]. *)
Definition panMovesIn (A : Arith) (moves : list (option (Q * Q)))
    (ps : PanState) : PanState :=
  foldl (λ acc pos, Doubles.handleMouseMove A pos acc) ps moves.

(** [computed] is [exact] up to a relative error of [u].  One operation of
    IEEE 754 on doubles meets this with [u] = 2^-53 when its result neither
    overflows nor falls below the normal range. *)
Definition rounds (u exact computed : Q) : Prop :=
  (Qabs (computed - exact) <= u * Qabs exact)%Q.

(** The two operations [screenToCanvas] performs on one coordinate round
    with a relative error of at most [u]; likewise those of
    [canvasToScreen]. *)
Definition toCanvasRounds (A : Arith) (u offset scale screen : Q) : Prop :=
  let d := n_sub A screen offset in
  rounds u (screen - offset) d ∧ rounds u (d / scale) (n_div A d scale).

Definition toScreenRounds (A : Arith) (u offset scale canvas : Q) : Prop :=
  let m := n_mul A canvas scale in
  rounds u (canvas * scale) m ∧ rounds u (m + offset) (n_add A m offset).

(** The last pointer position among [moves], [p0] if there is none. *)
Definition lastPointer (p0 : Q * Q) (moves : list (option (Q * Q)))
  : Q * Q :=
  foldl (λ acc pos, default acc pos) p0 moves.


(** A scan for a minimum of [cost], keeping the first minimum met. *)
Definition scanBy {A} (cost : A → Q) (acc : option (A * Q)) (a : A)
  : option (A * Q) :=
  match acc with
  | None => Some (a, cost a)
  | Some (_, minDist) =>
      if Qlt_le_dec (cost a) minDist then Some (a, cost a) else acc
  end.

(** An operation of the edge store, as the canvas uses it: [createEdge],
    [deleteEdge], [updateEdge] of the label, [deleteEdgesForNode]. *)
Inductive EdgeOp :=
| EdgeCreate (id fromNodeId toNodeId : string)
| EdgeDelete (id : string)
| EdgeSetLabel (id : string) (label : option string)
| EdgePrune (nodeId : string).

Definition applyEdgeOp (edges : EdgeMap) (op : EdgeOp) : EdgeMap :=
  match op with
  | EdgeCreate id a b => (useEdges.createEdge id a b edges).2
  | EdgeDelete id => useEdges.deleteEdge id edges
  | EdgeSetLabel id label =>
      useEdges.updateEdge id (mkEdgeUpdates None None (Some label)) edges
  | EdgePrune nodeId => useEdges.deleteEdgesForNode nodeId edges
  end.

(** The label update of an operation names no member of
    [Object.prototype]. *)
Definition plainEdgeOp (op : EdgeOp) : Prop :=
  match op with
  | EdgeSetLabel id _ => inherits id = false
  | _ => True
  end.

(** A well-formed edge map: every edge is stored under its own id, none
    joins a node to itself, and no two join the same pair. *)
Definition edgesWellFormed (edges : EdgeMap) : Prop :=
  (∀ k e, edges !! k = Some e → edge_id e = k ∧ edge_from e ≠ edge_to e)
  ∧ onePerPair edges.

(** *** Copy and paste *)

(** The node a paste stores for the copied node [c]: a copy under the new
    id, shifted by the offset. *)
Definition pastedNode (offsetX offsetY : Q) (newId : string) (c : Node)
  : Node :=
  mkNode newId (node_x c + offsetX) (node_y c + offsetY) (node_width c)
    (node_height c) (node_title c) (node_description c) (node_collapsed c)
    (node_titleColor c).

(** The copy of [c] stored under [newId] at the position [(x, y)]. *)
Definition pastedAt (x y : Q) (newId : string) (c : Node) : Node :=
  mkNode newId x y (node_width c) (node_height c) (node_title c)
    (node_description c) (node_collapsed c) (node_titleColor c).

(** The canvas position a paste aims at. *)
Definition pasteTarget (pointer : option (Q * Q)) (dimensions : Q * Q)
    (camera : Camera) : Q * Q :=
  match pointer with
  | Some p => useCanvas.screenToCanvas camera p.1 p.2
  | None =>
      useCanvas.screenToCanvas camera (dimensions.1 / 2) (dimensions.2 / 2)
  end.

(** The same in the arithmetic [A]. *)
Definition pasteTargetIn (A : Arith) (pointer : option (Q * Q))
    (dimensions : Q * Q) (camera : Camera) : Q * Q :=
  match pointer with
  | Some p => Doubles.screenToCanvas A camera p.1 p.2
  | None =>
      Doubles.screenToCanvas A camera (n_div A dimensions.1 2)
        (n_div A dimensions.2 2)
  end.

(** The ids a paste of [n] nodes draws. *)
Definition pasteIds (genId : nat → string) (n : nat) : list string :=
  genId <$> seq 0 n.

(** The loop of [handlePaste], on its two accumulators, with [one] for what
    it does to the node map per copied node. *)
Definition pasteStepBy (one : string → Node → NodeMap → NodeMap)
    (genId : nat → string) (acc : CanvasState * list string)
    (ic : nat * Node) : CanvasState * list string :=
  (Canvas.setNodes (one (genId ic.1) ic.2) acc.1, acc.2 ++ [genId ic.1]).

Definition pasteStep (genId : nat → string) (offsetX offsetY : Q)
  : CanvasState * list string → nat * Node → CanvasState * list string :=
  pasteStepBy (Canvas.pasteOne offsetX offsetY) genId.

(** The five operations that place one coordinate of a copy in two pastes
    at the target [t], from the paste offset [po]: each rounds with a
    relative error of at most [u]. *)
Definition staggerRounds (A : Arith) (u t po x : Q) : Prop :=
  let a1 := n_sub A t po in
  let p2 := n_add A po 20 in
  let a2 := n_sub A t p2 in
  rounds u (t - po) a1 ∧ rounds u (x + a1) (n_add A x a1)
  ∧ rounds u (po + 20) p2 ∧ rounds u (t - p2) a2
  ∧ rounds u (x + a2) (n_add A x a2).

(** The four operations that take one coordinate [x] of a single copied
    node to its place in the first paste at the target [t]. *)
Definition singleRounds (A : Arith) (u t x : Q) : Prop :=
  let s := n_add A 0 x in
  let c := n_div A s 1 in
  let a := n_sub A t c in
  rounds u (0 + x) s ∧ rounds u (s / 1) c ∧ rounds u (t - c) a
  ∧ rounds u (x + a) (n_add A x a).

(** The sample session seen through a camera zoomed to 1.1. *)
Definition zoomed (st : CanvasState) : CanvasState :=
  Canvas.setCamera (λ _, mkCamera 0 0 (binary64.round (11 # 10))) st.

(** A sample paste: the two nodes of the sample session copied, and pasted
    at pointer (500, 400) under ids [copy-0], [copy-1], ... *)
Definition sampleGenId (prefix : string) (i : nat) : string :=
  prefix ++ String (Ascii.ascii_of_nat (48 + i)) "".


(** ** Properties of the node store *)

Section node_store.
Implicit Types (nodes : NodeMap) (id : string) (u : NodeUpdates).

Lemma spread_id n u : node_id (useNodes.spread n u) = node_id n.
Proof. reflexivity. Qed.

Lemma getMember_own {A} (o : gmap string A) key a :
  o !! key = Some a → getMember o key = Own a.
Proof. intros H. unfold getMember. by rewrite H. Qed.

Lemma getMember_missing {A} (o : gmap string A) key :
  o !! key = None → inherits key = false → getMember o key = Missing.
Proof. intros H Hk. unfold getMember. by rewrite H, Hk. Qed.

Lemma getMember_inherited {A} (o : gmap string A) key :
  o !! key = None → inherits key = true → getMember o key = Inherited.
Proof. intros H Hk. unfold getMember. by rewrite H, Hk. Qed.

Lemma updateNode_absent nodes id u :
  nodes !! id = None → inherits id = false →
  useNodes.updateNode id u nodes = nodes.
Proof.
  intros H Hk. unfold useNodes.updateNode.
  by rewrite getMember_missing.
Qed.

Lemma updateNode_other nodes id id' u :
  id ≠ id' → useNodes.updateNode id u nodes !! id' = nodes !! id'.
Proof.
  intros Hne. unfold useNodes.updateNode.
  destruct (getMember nodes id); [|  |done]; by rewrite lookup_insert_ne.
Qed.

Lemma updateNode_lookup nodes id u :
  useNodes.updateNode id u nodes !! id
  = match nodes !! id with
    | Some n => Some (useNodes.spread n u)
    | None =>
        if inherits id then Some (useNodes.spread useNodes.noFields u)
        else None
    end.
Proof.
  unfold useNodes.updateNode, getMember.
  destruct (nodes !! id) eqn:E; simpl.
  - by rewrite lookup_insert_eq.
  - destruct (inherits id); [by rewrite lookup_insert_eq|done].
Qed.

(** What [updateNode] does to the map, case by case. *)
Lemma updateNode_frame nodes id u :
  (∀ id', id' ≠ id →
     useNodes.updateNode id u nodes !! id' = nodes !! id')
  ∧ (∀ n, nodes !! id = Some n →
       ∃ n', useNodes.updateNode id u nodes !! id = Some n'
             ∧ n' = useNodes.spread n u
             ∧ node_id n' = node_id n)
  ∧ (nodes !! id = None → inherits id = false →
     useNodes.updateNode id u nodes = nodes)
  ∧ (nodes !! id = None → inherits id = true →
     is_Some (useNodes.updateNode id u nodes !! id)
     ∧ useNodes.updateNode id u nodes ≠ nodes).
Proof.
  split; [|split; [|split]].
  - intros id' Hne. by apply updateNode_other.
  - intros n Hn. exists (useNodes.spread n u).
    rewrite updateNode_lookup, Hn. done.
  - apply updateNode_absent.
  - intros Hn Hk.
    assert (is_Some (useNodes.updateNode id u nodes !! id)) as Hs.
    { rewrite updateNode_lookup, Hn, Hk. by eexists. }
    split; [done|]. intros Heq. rewrite Heq, Hn in Hs. by destruct Hs.
Qed.

End node_store.

(** C10, as the code has it — [updateNode] and an id that names a member
    of [Object.prototype].  The guard [if (!prev[id]) return prev] is meant
    to return the map unchanged when [id] is absent; for
    [updateNode('toString', { x: 5 })] on a map that holds the single node
    [node-a] the read [prev['toString']] yields the inherited function, the
    guard lets it through, and an entry is stored under ['toString']: the
    map is not returned unchanged.  The node [node-a] is left as it was.
    The general facts are in [updateNode_frame]. *)
Theorem updateNode_inherited_member :
  let a := mkNode "node-a" 0 0 220 140 "A" "" false None in
  let prev : NodeMap := {["node-a" := a]} in
  let fields :=
    mkNodeUpdates (Some 5) None None None None None None None in
  let next := useNodes.updateNode "toString" fields prev in
  prev !! "toString" = None
  ∧ is_Some (next !! "toString")
  ∧ next ≠ prev
  ∧ size next = 2%nat
  ∧ next !! "node-a" = Some a
  ∧ useNodes.updateNode "node-c" fields prev = prev.
Proof.
  intros a prev fields next.
  assert (prev !! "toString" = None) as Hn by done.
  destruct (updateNode_frame prev "toString" fields)
    as (Hother & _ & _ & Hinh).
  destruct (Hinh Hn eq_refl) as [Hs Hne].
  split; [done|]. split; [done|]. split; [done|]. split; [by vm_compute|].
  split; [by rewrite Hother|].
  by apply updateNode_absent.
Qed.

(** ** Properties of the edge store *)

Section edge_store.
Implicit Types (edges : EdgeMap) (e : Edge) (a b id k : string).

Lemma connects_joins a b e :
  useEdges.connects a b e = true ↔ joins a b e.
Proof.
  unfold useEdges.connects, joins.
  rewrite orb_true_iff, !andb_true_iff, !String.eqb_eq. tauto.
Qed.

Lemma joins_sym a b e : joins a b e → joins b a e.
Proof. unfold joins. tauto. Qed.

Lemma elem_of_edgeList edges e :
  e ∈ useEdges.edgeList edges ↔ ∃ k, edges !! k = Some e.
Proof.
  unfold useEdges.edgeList. rewrite list_elem_of_fmap. split.
  - intros [[k e'] [-> Hin]]. exists k. by apply elem_of_map_to_list.
  - intros [k Hk]. exists (k, e). split; [done|].
    by apply elem_of_map_to_list.
Qed.

Lemma exists_connects edges a b :
  existsb (useEdges.connects a b) (useEdges.edgeList edges) = true
  ↔ ∃ k e, edges !! k = Some e ∧ joins a b e.
Proof.
  rewrite existsb_exists. split.
  - intros (e & Hin & Hc). apply list_elem_of_In, elem_of_edgeList in Hin.
    destruct Hin as [k Hk]. exists k, e. by rewrite <- connects_joins.
  - intros (k & e & Hk & Hj). exists e. split.
    + apply list_elem_of_In, elem_of_edgeList. by exists k.
    + by apply connects_joins.
Qed.

Lemma createEdge_self id a edges :
  useEdges.createEdge id a a edges = (None, edges).
Proof. unfold useEdges.createEdge. by rewrite String.eqb_refl. Qed.

Lemma createEdge_duplicate id a b edges k e :
  edges !! k = Some e → joins a b e →
  useEdges.createEdge id a b edges = (None, edges).
Proof.
  intros Hk Hj. unfold useEdges.createEdge.
  destruct (String.eqb a b); [done|].
  assert (existsb (useEdges.connects a b) (useEdges.edgeList edges) = true)
    as -> by (apply exists_connects; eauto).
  done.
Qed.

(** The three ways a call can end. *)
Lemma createEdge_cases id a b edges :
  (a = b ∧ useEdges.createEdge id a b edges = (None, edges))
  ∨ (a ≠ b ∧ (∃ k e, edges !! k = Some e ∧ joins a b e)
     ∧ useEdges.createEdge id a b edges = (None, edges))
  ∨ (a ≠ b ∧ (∀ k e, edges !! k = Some e → ¬ joins a b e)
     ∧ useEdges.createEdge id a b edges
       = (Some (mkEdge id a b None), <[id := mkEdge id a b None]> edges)).
Proof.
  unfold useEdges.createEdge.
  destruct (String.eqb a b) eqn:Hab.
  - left. by apply String.eqb_eq in Hab.
  - apply String.eqb_neq in Hab. right.
    destruct (existsb _ _) eqn:Hex.
    + left. by apply exists_connects in Hex.
    + right. repeat split; try done.
      intros k e Hk Hj.
      assert (existsb (useEdges.connects a b) (useEdges.edgeList edges)
              = true) by (apply exists_connects; eauto).
      congruence.
Qed.

Lemma createEdge_onePerPair id a b edges :
  onePerPair edges →
  onePerPair (useEdges.createEdge id a b edges).2.
Proof.
  intros Hinv.
  destruct (createEdge_cases id a b edges)
    as [[_ ->]|[(_ & _ & ->)|(Hab & Hfresh & ->)]]; try done.
  simpl. intros k1 k2 e1 e2 H1 H2 Hj.
  destruct (decide (k1 = k2)) as [|Hne]; [done|]. exfalso.
  destruct (decide (k1 = id)) as [E1|N1];
    destruct (decide (k2 = id)) as [E2|N2]; [congruence|..].
  - subst k1. rewrite lookup_insert_eq in H1.
    rewrite lookup_insert_ne in H2 by done.
    injection H1 as <-. simpl in Hj. by eapply Hfresh.
  - subst k2. rewrite lookup_insert_eq in H2.
    rewrite lookup_insert_ne in H1 by done.
    injection H2 as <-. eapply Hfresh; [exact H1|].
    unfold joins in *. simpl in Hj. intuition congruence.
  - rewrite lookup_insert_ne in H1, H2 by done.
    apply Hne. by eapply Hinv.
Qed.

Lemma buildEdges_onePerPair reqs edges :
  onePerPair edges → onePerPair (buildEdges reqs edges).
Proof.
  revert edges. induction reqs as [|r reqs IH]; intros edges Hinv; [done|].
  simpl. apply IH. by apply createEdge_onePerPair.
Qed.

Lemma onePerPair_empty : onePerPair ∅.
Proof. intros k1 k2 e1 e2 H1. by rewrite lookup_empty in H1. Qed.

(** What [deleteEdgesForNode] keeps. *)
Lemma deleteEdgesForNode_lookup nodeId edges k e :
  useEdges.deleteEdgesForNode nodeId edges !! k = Some e
  ↔ edges !! k = Some e ∧ edge_from e ≠ nodeId ∧ edge_to e ≠ nodeId.
Proof.
  unfold useEdges.deleteEdgesForNode.
  by rewrite map_lookup_filter_Some.
Qed.

End edge_store.

(** C3 — edge creation validity: [createEdge(a, a)] returns [null] and
    leaves the edge map as it was; so does [createEdge(a, b)] when some edge
    already joins [a] and [b] in either direction; hence an edge map built
    from the empty one by [createEdge] calls never holds two entries joining
    the same unordered pair of node ids. *)
Theorem createEdge_validity :
  (∀ id a (edges : EdgeMap),
     useEdges.createEdge id a a edges = (None, edges))
  ∧ (∀ id a b (edges : EdgeMap) k e,
       edges !! k = Some e →
       (edge_from e = a ∧ edge_to e = b) ∨ (edge_from e = b ∧ edge_to e = a) →
       useEdges.createEdge id a b edges = (None, edges))
  ∧ (∀ reqs k1 k2 e1 e2,
       buildEdges reqs ∅ !! k1 = Some e1 →
       buildEdges reqs ∅ !! k2 = Some e2 →
       k1 ≠ k2 →
       ¬ ((edge_from e1 = edge_from e2 ∧ edge_to e1 = edge_to e2)
          ∨ (edge_from e1 = edge_to e2 ∧ edge_to e1 = edge_from e2))).
Proof.
  split; [|split].
  - apply createEdge_self.
  - intros id a b edges k e Hk Hj. by eapply createEdge_duplicate.
  - intros reqs k1 k2 e1 e2 H1 H2 Hne Hsame. apply Hne.
    eapply (buildEdges_onePerPair reqs ∅ onePerPair_empty); [done..|].
    unfold joins. intuition congruence.
Qed.

(** ** Properties of the history manager *)

Section history.
Implicit Types (h : History) (g : Graph) (l p q f : list Graph).

Lemma graph_eta g : mkHistoryState (hs_nodes g) (hs_edges g) = g.
Proof. by destruct g. Qed.

Lemma slice_from_neg {A} (m : Z) (l : list A) :
  (1 ≤ m)%Z → slice_from (- m) l = drop (length l - Z.to_nat m) l.
Proof.
  intros Hm. unfold slice_from.
  assert ((- m <? 0)%Z = true) as -> by lia.
  f_equal. lia.
Qed.

Lemma slice_init_snoc {A} (l : list A) x : slice_init (l ++ [x]) = l.
Proof.
  unfold slice_init. rewrite length_app. simpl.
  replace (length l + 1 - 1)%nat with (length l) by lia.
  by rewrite take_app_length.
Qed.

(** For a positive bound the two branches of the trim agree with one
    [drop]. *)
Lemma pushState_past (m : Z) n e p f :
  (1 ≤ m)%Z →
  past (useHistory.pushState m n e (mkHistory p f false))
  = drop (length p + 1 - Z.to_nat m) (p ++ [mkHistoryState n e]).
Proof.
  intros Hm. unfold useHistory.pushState. simpl.
  rewrite length_app. simpl.
  destruct (m <? _)%Z eqn:E.
  - rewrite slice_from_neg by done. by rewrite length_app.
  - apply Z.ltb_ge in E.
    replace (length p + 1 - Z.to_nat m)%nat with 0%nat by lia. done.
Qed.

(** The bound has to be positive for that: [slice(-0)] is [slice(0)], the
    whole array. *)
Example pushState_zero_bound :
  length (past (useHistory.pushState 0 ∅ ∅ useHistory.initial)) = 1%nat.
Proof. reflexivity. Qed.

Lemma pushState_future (m : Z) n e p f :
  future (useHistory.pushState m n e (mkHistory p f false)) = [].
Proof. done. Qed.

Lemma pushState_isUndoing (m : Z) n e p f :
  isUndoing (useHistory.pushState m n e (mkHistory p f false)) = false.
Proof. done. Qed.

Lemma pushState_length (m : Z) n e p f :
  (1 ≤ m)%Z →
  (Z.of_nat (length (past (useHistory.pushState m n e (mkHistory p f false))))
   ≤ m)%Z.
Proof.
  intros Hm. rewrite pushState_past by done.
  rewrite length_drop, length_app. simpl. lia.
Qed.

Lemma history_eta h : mkHistory (past h) (future h) (isUndoing h) = h.
Proof. by destruct h. Qed.

Lemma pushAll_snoc m snaps g h :
  pushAll m (snaps ++ [g]) h
  = useHistory.pushState m (hs_nodes g) (hs_edges g) (pushAll m snaps h).
Proof. unfold pushAll. by rewrite foldl_snoc. Qed.

Lemma pushAll_isUndoing m snaps p f :
  isUndoing (pushAll m snaps (mkHistory p f false)) = false.
Proof.
  induction snaps as [|g snaps IH] using rev_ind; [done|].
  rewrite pushAll_snoc. unfold useHistory.pushState. by rewrite IH.
Qed.

(** From the empty history, the past stack is the last [maxSize]
    snapshots pushed, oldest first. *)
Lemma pushAll_past m snaps :
  (1 ≤ m)%Z →
  past (pushAll m snaps useHistory.initial)
  = drop (length snaps - Z.to_nat m) snaps.
Proof.
  intros Hm. induction snaps as [|g snaps IH] using rev_ind; [done|].
  rewrite pushAll_snoc.
  pose proof (pushAll_isUndoing m snaps [] []) as Hu.
  fold useHistory.initial in Hu.
  rewrite <- (history_eta (pushAll m snaps useHistory.initial)), Hu.
  rewrite pushState_past by done. rewrite graph_eta, IH.
  rewrite length_drop, length_app. simpl.
  destruct (decide (length snaps ≤ Z.to_nat m)%nat) as [Hle|Hgt].
  - replace (length snaps - Z.to_nat m)%nat with 0%nat by lia.
    simpl. f_equal. lia.
  - rewrite (drop_app_le snaps) by lia.
    replace (length snaps - (length snaps - Z.to_nat m) + 1 - Z.to_nat m)%nat
      with 1%nat by lia.
    rewrite drop_app_le by (rewrite length_drop; lia).
    rewrite drop_drop. do 2 f_equal. lia.
Qed.

(** *** Undo and redo *)

Lemma undoStep_empty h g :
  past h = [] → undoStep (h, g) = (false, (h, g)).
Proof. intros Hp. unfold undoStep, useHistory.undo. simpl. by rewrite Hp. Qed.

Lemma redoStep_empty h g :
  future h = [] → redoStep (h, g) = (false, (h, g)).
Proof. intros Hf. unfold redoStep, useHistory.redo. simpl. by rewrite Hf. Qed.

Lemma undoStep_snoc p x f b g :
  undoStep (mkHistory (p ++ [x]) f b, g)
  = (true, (mkHistory p (f ++ [g]) false, x)).
Proof.
  unfold undoStep, useHistory.undo. simpl.
  rewrite last_snoc, slice_init_snoc.
  unfold setGraphEdges, setGraphNodes. simpl.
  by rewrite !graph_eta.
Qed.

Lemma redoStep_snoc p x f b g :
  redoStep (mkHistory p (f ++ [x]) b, g)
  = (true, (mkHistory (p ++ [g]) f false, x)).
Proof.
  unfold redoStep, useHistory.redo. simpl.
  rewrite last_snoc, slice_init_snoc.
  unfold setGraphEdges, setGraphNodes. simpl.
  by rewrite !graph_eta.
Qed.

(** Undoing as many times as there are snapshots on top of [q] walks the
    current graph back to the oldest of them and stacks the graphs left
    behind on the future stack. *)
Lemma undo_many snaps : ∀ q f cur,
  repeatStep undoStep (length snaps) (mkHistory (q ++ snaps) f false, cur)
  = (replicate (length snaps) true,
     (mkHistory q (f ++ rev (tail (snaps ++ [cur]))) false,
      hd cur snaps)).
Proof.
  induction snaps as [|x snaps IH] using rev_ind; intros q f cur.
  - simpl. by rewrite !app_nil_r.
  - rewrite length_app. simpl. rewrite Nat.add_1_r. simpl.
    rewrite app_assoc, undoStep_snoc, IH.
    do 2 f_equal.
    + f_equal. destruct snaps; simpl.
      * by rewrite <- app_assoc.
      * rewrite <- !app_assoc. simpl. by rewrite !rev_app_distr.
    + by destruct snaps.
Qed.

Lemma last_cons_default {A} (t : list A) : ∀ y c,
  List.last (y :: t) c = List.last t y.
Proof.
  induction t as [|z t IH]; intros y c; [done|].
  change (List.last (y :: z :: t) c) with (List.last (z :: t) c).
  rewrite !IH. done.
Qed.

(** Redoing walks forward again. *)
Lemma redo_many t : ∀ q f c,
  repeatStep redoStep (length t) (mkHistory q (f ++ rev t) false, c)
  = (replicate (length t) true,
     (mkHistory (q ++ removelast (c :: t)) f false, List.last t c)).
Proof.
  induction t as [|y t IH]; intros q f c.
  - simpl. by rewrite !app_nil_r.
  - cbn [length repeatStep rev]. rewrite app_assoc, redoStep_snoc, IH.
    do 2 f_equal.
    + f_equal. rewrite <- app_assoc. simpl. by destruct t.
    + by rewrite last_cons_default.
Qed.

Lemma undo_then_redo snaps q f cur :
  let u :=
    repeatStep undoStep (length snaps)
      (mkHistory (q ++ snaps) f false, cur) in
  repeatStep redoStep (length snaps) u.2
  = (replicate (length snaps) true,
     (mkHistory (q ++ snaps) f false, cur)).
Proof.
  intros u. subst u. rewrite undo_many. simpl.
  pose proof (redo_many (tail (snaps ++ [cur])) q f (hd cur snaps)) as H.
  assert (length (tail (snaps ++ [cur])) = length snaps) as Hlen.
  { destruct snaps; simpl; [done|]. rewrite length_app. simpl. lia. }
  rewrite Hlen in H. rewrite H. do 2 f_equal.
  - f_equal. f_equal.
    assert (hd cur snaps :: tail (snaps ++ [cur]) = snaps ++ [cur]) as ->
      by by destruct snaps.
    by rewrite removelast_last.
  - destruct snaps as [|z snaps]; [done|]. simpl.
    apply (last_last snaps cur).
Qed.

(** *** Runs of actions *)

Lemma snapshots_length actions g :
  length (snapshots actions g) = length actions.
Proof.
  revert g. induction actions as [|a actions IH]; intros g; simpl; [done|].
  by rewrite IH.
Qed.

(** While the run fits under the bound, nothing it pushed is evicted. *)
Lemma runActions_past m actions : ∀ q s f g,
  (Z.of_nat (length s + length actions) ≤ m)%Z →
  ∃ q' f',
    (runActions m actions (mkHistory (q ++ s) f false, g)).1
    = mkHistory (q' ++ s ++ snapshots actions g) f' false.
Proof.
  induction actions as [|a actions IH]; intros q s f g Hlen.
  - exists q, f. simpl. by rewrite app_nil_r.
  - simpl in *.
    assert (1 ≤ m)%Z as Hm by lia.
    pose proof (pushState_past m (hs_nodes g) (hs_edges g) (q ++ s) f Hm)
      as Hp.
    pose proof (pushState_future m (hs_nodes g) (hs_edges g) (q ++ s) f)
      as Hf.
    pose proof (pushState_isUndoing m (hs_nodes g) (hs_edges g) (q ++ s) f)
      as Hu.
    rewrite graph_eta in Hp.
    unfold act. cbn [fst snd].
    rewrite <- (history_eta (useHistory.pushState _ _ _ _)), Hp, Hf, Hu.
    rewrite <- app_assoc, length_app.
    rewrite drop_app_le by lia.
    specialize (IH (drop (length q + length s + 1 - Z.to_nat m) q)
                   (s ++ [g]) [] (a g)).
    destruct IH as (q' & f' & IH).
    { rewrite length_app. simpl. lia. }
    exists q', f'. rewrite IH. by rewrite <- !app_assoc.
Qed.

Lemma runActions_graph m actions : ∀ h g,
  (runActions m actions (h, g)).2 = foldl (λ g a, a g) g actions.
Proof.
  induction actions as [|a actions IH]; intros h g; [done|].
  simpl. change (act m (h, g) a) with
    (useHistory.pushState m (hs_nodes g) (hs_edges g) h, a g).
  by rewrite IH.
Qed.

End history.

(** C6 — history bound, for a positive configured maximum (the default is
    50): after any run of [pushState] calls the past stack holds at most
    [maxSize] entries, namely the most recent ones (the oldest are the ones
    evicted); and every single [pushState] drops from the front exactly the
    entries in excess and empties the future stack. *)
Theorem history_bound (maxSize : Z) (Hmax : (1 ≤ maxSize)%Z) :
  (∀ snaps : list Graph,
     let h := pushAll maxSize snaps useHistory.initial in
     (Z.of_nat (length (past h)) ≤ maxSize)%Z
     ∧ past h = drop (length snaps - Z.to_nat maxSize) snaps
     ∧ (snaps ≠ [] → future h = []))
  ∧ (∀ (p f : list Graph) n e,
       let h' := useHistory.pushState maxSize n e (mkHistory p f false) in
       (Z.of_nat (length (past h')) ≤ maxSize)%Z
       ∧ past h'
         = drop (length p + 1 - Z.to_nat maxSize) (p ++ [mkHistoryState n e])
       ∧ future h' = []).
Proof.
  split.
  - intros snaps h. subst h. rewrite pushAll_past by done.
    split; [rewrite length_drop; lia|]. split; [done|].
    intros Hne. destruct snaps as [|g snaps _] using rev_ind; [done|].
    rewrite pushAll_snoc.
    pose proof (pushAll_isUndoing maxSize snaps [] []) as Hu.
    fold useHistory.initial in Hu.
    unfold useHistory.pushState. by rewrite Hu.
  - intros p f n e h'. subst h'. split; [by apply pushState_length|].
    split; [by apply pushState_past|done].
Qed.

(** Sixty pushes under the default maximum. *)
Lemma history_bound_default :
  (1 ≤ useHistory.DEFAULT_MAX_SIZE)%Z
  ∧ let snaps := replicate 60 sampleGraph in
    let h := pushAll useHistory.DEFAULT_MAX_SIZE snaps useHistory.initial in
    (Z.of_nat (length (past h)) ≤ useHistory.DEFAULT_MAX_SIZE)%Z
    ∧ past h
      = drop (length snaps - Z.to_nat useHistory.DEFAULT_MAX_SIZE) snaps
    ∧ (snaps ≠ [] → future h = []).
Proof.
  assert (1 ≤ useHistory.DEFAULT_MAX_SIZE)%Z as H by (vm_compute; discriminate).
  split; [exact H|].
  exact (proj1 (history_bound useHistory.DEFAULT_MAX_SIZE H)
           (replicate 60 sampleGraph)).
Defined.

(** C4, as the code has it — undo/redo inverse law within the history
    bound: for a run of [N ≤ maxSize] actions, each preceded by one
    [pushState] of the graph before it, [N] undos all return [true] and
    restore the graph held before the first action; [N] redos then all
    return [true] and restore the graph (and the history) held after the
    last action.  [undo] on an empty past stack and [redo] on an empty
    future stack return [false] and change nothing. *)
Theorem undo_redo_inverse (maxSize : Z) (actions : list (Graph → Graph))
    (p f : list Graph) (g0 : Graph) :
  (Z.of_nat (length actions) ≤ maxSize)%Z →
  let N := length actions in
  let s1 := runActions maxSize actions (mkHistory p f false, g0) in
  let u := repeatStep undoStep N s1 in
  let r := repeatStep redoStep N u.2 in
  s1.2 = foldl (λ g a, a g) g0 actions
  ∧ u.1 = replicate N true ∧ u.2.2 = g0
  ∧ r.1 = replicate N true ∧ r.2 = s1
  ∧ (∀ h g, past h = [] → undoStep (h, g) = (false, (h, g)))
  ∧ (∀ h g, future h = [] → redoStep (h, g) = (false, (h, g))).
Proof.
  intros Hlen N s1 u r.
  destruct (runActions_past maxSize actions p [] f g0) as (q' & f' & Hrun);
    [simpl; lia|].
  rewrite app_nil_r in Hrun. fold s1 in Hrun. simpl in Hrun.
  pose proof (snapshots_length actions g0) as Hsn. fold N in Hsn.
  assert (s1 = (mkHistory (q' ++ snapshots actions g0) f' false, s1.2))
    as Hs1 by (rewrite <- Hrun; by destruct s1).
  split; [apply runActions_graph|].
  pose proof (undo_many (snapshots actions g0) q' f' s1.2) as Hu.
  pose proof (undo_then_redo (snapshots actions g0) q' f' s1.2) as Hr.
  rewrite Hsn, <- Hs1 in Hu, Hr. simpl in Hr. fold u in Hu, Hr. fold r in Hr.
  rewrite Hu, Hr. simpl.
  repeat split; try done.
  - unfold s1. rewrite runActions_graph. by destruct actions.
  - apply undoStep_empty.
  - apply redoStep_empty.
Qed.

(** Two moves of a node under the default bound, undone and redone. *)
Lemma undo_redo_inverse_two_moves :
  (Z.of_nat (length [moveTo 1; moveTo 2]) ≤ useHistory.DEFAULT_MAX_SIZE)%Z
  ∧ let s1 :=
      runActions useHistory.DEFAULT_MAX_SIZE [moveTo 1; moveTo 2]
        (mkHistory [] [] false, sampleGraph) in
    let u := repeatStep undoStep 2 s1 in
    let r := repeatStep redoStep 2 u.2 in
    u.1 = [true; true] ∧ u.2.2 = sampleGraph
    ∧ r.1 = [true; true] ∧ r.2 = s1.
Proof.
  assert (Z.of_nat (length [moveTo 1; moveTo 2])
          ≤ useHistory.DEFAULT_MAX_SIZE)%Z as H
    by (vm_compute; discriminate).
  split; [exact H|].
  pose proof (undo_redo_inverse useHistory.DEFAULT_MAX_SIZE
                [moveTo 1; moveTo 2] [] [] sampleGraph H) as T.
  cbv zeta in T. simpl length in T. simpl replicate in T.
  intros s1 u r.
  exact (conj (proj1 (proj2 T))
           (conj (proj1 (proj2 (proj2 T)))
              (conj (proj1 (proj2 (proj2 (proj2 T))))
                 (proj1 (proj2 (proj2 (proj2 (proj2 T)))))))).
Defined.

(** With the default bound of 50, a run of 51 actions cannot be undone in
    full: the 51st undo returns [false] and the graph reached is the one
    held before the second action, not the first. *)
Lemma undo_51_actions :
  let actions := map moveTo (seq 1 51) in
  let s1 :=
    runActions useHistory.DEFAULT_MAX_SIZE actions
      (useHistory.initial, sampleGraph) in
  let u := repeatStep undoStep 51 s1 in
  u.1 = replicate 50 true ++ [false]
  ∧ u.2.2 = moveTo 1 sampleGraph
  ∧ u.2.2 ≠ sampleGraph.
Proof.
  cbv zeta. split; [by vm_compute|]. split; [by vm_compute|].
  intros H.
  apply (f_equal (λ g, node_x <$> hs_nodes g !! "n")) in H.
  vm_compute in H. discriminate H.
Qed.

(** ** Properties of the camera *)

Section camera.
Local Open Scope Q_scope.
Implicit Types (o : UseCanvasOptions) (camera : Camera).

Lemma handleWheel_scale o px py deltaY camera :
  cam_scale (useCanvas.handleWheel o (Some (px, py)) deltaY camera)
  = nextScale o deltaY camera.
Proof.
  unfold useCanvas.handleWheel, nextScale.
  by destruct (Qlt_le_dec deltaY 0).
Qed.

Lemma div_step_le (s step : Q) : 0 <= s → 1 <= step → s / step <= s.
Proof.
  intros Hs Hstep. apply Qle_shift_div_r; [lra|]. nra.
Qed.

Lemma nextScale_in_range o deltaY camera :
  0 < minScale o → minScale o <= maxScale o → 1 <= scaleStep o →
  scaleInRange o camera →
  minScale o <= nextScale o deltaY camera
  ∧ nextScale o deltaY camera <= maxScale o.
Proof.
  intros Hmin Hle Hstep [Hlo Hhi]. unfold nextScale.
  destruct (Qlt_le_dec deltaY 0).
  - split.
    + apply Q.min_glb; [nra|done].
    + apply Q.le_min_r.
  - split.
    + apply Q.le_max_r.
    + apply Q.max_lub; [|done].
      pose proof (div_step_le (cam_scale camera) (scaleStep o)). lra.
Qed.

Lemma handleWheel_in_range o e camera :
  0 < minScale o → minScale o <= maxScale o → 1 <= scaleStep o →
  scaleInRange o camera →
  scaleInRange o
    (useCanvas.handleWheel o (we_pointer e) (we_deltaY e) camera).
Proof.
  intros Hmin Hle Hstep Hin.
  destruct (we_pointer e) as [[px py]|]; [|done].
  unfold scaleInRange. rewrite handleWheel_scale.
  by apply nextScale_in_range.
Qed.



End camera.

(** C8 — zoom clamp: with options such that [0 < minScale ≤ maxScale] and
    [1 ≤ scaleStep] (the defaults are 0.1, 3 and 1.1), from a camera whose
    scale lies within [[minScale, maxScale]], every camera reached by any
    run of wheel events has its scale within [[minScale, maxScale]]. *)
Theorem zoom_clamp (o : UseCanvasOptions) (events : list WheelEvent)
    (camera : Camera) :
  (0 < minScale o)%Q → (minScale o <= maxScale o)%Q →
  (1 <= scaleStep o)%Q →
  scaleInRange o camera →
  Forall (scaleInRange o) (wheelRun o events camera).
Proof.
  intros Hmin Hle Hstep. revert camera.
  induction events as [|e events IH]; intros camera Hin; simpl.
  - constructor.
  - pose proof (handleWheel_in_range o e camera Hmin Hle Hstep Hin) as H1.
    constructor; [exact H1|]. by apply IH.
Qed.

(** Zooming in at the upper bound, out again, and a wheel event without a
    pointer, under the default options. *)
Lemma zoom_clamp_default :
  Forall (scaleInRange useCanvas.DEFAULT_OPTIONS)
    (wheelRun useCanvas.DEFAULT_OPTIONS
       [mkWheelEvent (Some (400, 300)) (-100);
        mkWheelEvent (Some (400, 300)) 100;
        mkWheelEvent None 100]
       (mkCamera 0 0 3)).
Proof.
  apply zoom_clamp.
  - reflexivity.
  - vm_compute. discriminate.
  - vm_compute. discriminate.
  - split; vm_compute; discriminate.
Defined.



(** ** Properties of the interaction controller *)

Section controller.
Implicit Types (st : CanvasState) (ids : list string).

Lemma nodes_saveStateForUndo st0 st :
  nodes (Canvas.saveStateForUndo st0 st) = nodes st.
Proof. done. Qed.

Lemma edges_saveStateForUndo st0 st :
  edges (Canvas.saveStateForUndo st0 st) = edges st.
Proof. done. Qed.

(** *** Deleting the selection *)

Lemma deleteNodes_edges ids st :
  edges (foldl (λ acc id, Canvas.setNodes (useNodes.deleteNode id) acc)
           st ids)
  = edges st.
Proof.
  revert st. induction ids as [|id ids IH]; intros st; simpl; [done|].
  by rewrite IH.
Qed.

Lemma deleteNodes_lookup ids st id :
  id ∈ ids →
  nodes (foldl (λ acc id, Canvas.setNodes (useNodes.deleteNode id) acc)
           st ids) !! id
  = None.
Proof.
  revert st. induction ids as [|i ids IH]; intros st Hin; simpl.
  - by apply elem_of_nil in Hin.
  - destruct (decide (id ∈ ids)) as [Hin'|Hnin]; [by apply IH|].
    apply elem_of_cons in Hin as [->|]; [|done].
    clear IH. revert st.
    assert (∀ m : NodeMap, m !! i = None →
            ∀ l (st : CanvasState), nodes st = m →
              nodes (foldl (λ acc id,
                       Canvas.setNodes (useNodes.deleteNode id) acc) st l)
                !! i = None) as Hkeep.
    { intros m Hm l. revert m Hm.
      induction l as [|j l IHl]; intros m Hm st Hst; simpl.
      - by rewrite Hst.
      - eapply (IHl (delete j m)); [|simpl; by rewrite Hst].
        rewrite lookup_delete. by case_decide. }
    intros st. eapply Hkeep; [|done]. simpl.
    unfold useNodes.deleteNode. apply lookup_delete_eq.
Qed.

(** With nodes selected and no edge selected, the [Delete] branch removes
    every selected node and leaves the edge map as it was. *)
Lemma delete_selected_nodes st :
  editing st = false → truthy (selectedEdgeId st) = false →
  edges (Canvas.handleKeyDown KeyDelete st) = edges st
  ∧ ∀ id, id ∈ selectedNodeIds st →
      nodes (Canvas.handleKeyDown KeyDelete st) !! id = None.
Proof.
  intros He Hs. unfold Canvas.handleKeyDown. rewrite He, Hs.
  destruct (0 <? size (selectedNodeIds st))%nat eqn:Hsz.
  - split.
    + simpl. unfold Canvas.forEachSelected. by rewrite deleteNodes_edges.
    + intros id Hid. simpl. unfold Canvas.forEachSelected.
      apply deleteNodes_lookup. by apply elem_of_elements.
  - split; [done|]. intros id Hid. exfalso.
    apply Nat.ltb_ge in Hsz.
    assert (size (selectedNodeIds st) = 0)%nat as Hz by lia.
    apply size_empty_inv in Hz. set_solver.
Qed.

(** *** Ending a node drag *)

Lemma cleared_lookup ids (m : gmap string (Q * Q)) id :
  id ∈ ids → foldl (λ acc i, delete i acc) m ids !! id = None.
Proof.
  revert m. induction ids as [|i ids IH]; intros m Hin; simpl.
  - by apply elem_of_nil in Hin.
  - destruct (decide (id ∈ ids)) as [|Hnin]; [by apply IH|].
    apply elem_of_cons in Hin as [->|]; [|done].
    clear IH Hnin. generalize (lookup_delete_eq m i).
    generalize (delete i m). clear m.
    induction ids as [|j ids IH]; intros m Hm; simpl; [done|].
    apply IH. rewrite lookup_delete. by case_decide.
Qed.

(** The loop that should move the other selected nodes finds no start
    position left to read. *)
Lemma moveOthers_skip ids st nodeId (offsetX offsetY : Q) :
  (∀ id, id ∈ ids → dragStartPositions st !! id = None) →
  foldl
    (λ acc id,
       if String.eqb id nodeId then acc
       else
         match dragStartPositions acc !! id with
         | None => acc
         | Some otherStartPos =>
             Canvas.setNodes
               (useNodes.moveNode id (otherStartPos.1 + offsetX)
                  (otherStartPos.2 + offsetY)) acc
         end) st ids
  = st.
Proof.
  induction ids as [|i ids IH]; intros Hnone; simpl; [done|].
  destruct (String.eqb i nodeId).
  - apply IH. intros id Hid. apply Hnone. by right.
  - rewrite (Hnone i) by by left.
    apply IH. intros id Hid. apply Hnone. by right.
Qed.

(** [handleNodeDragEnd] writes the dragged node and no other. *)
Lemma handleNodeDragEnd_nodes nodeId x y st :
  nodes (Canvas.handleNodeDragEnd nodeId x y st)
  = match nodes st !! nodeId, dragStartPositions st !! nodeId with
    | Some _, Some _ => useNodes.moveNode nodeId x y (nodes st)
    | _, _ => nodes st
    end.
Proof.
  unfold Canvas.handleNodeDragEnd.
  destruct (nodes st !! nodeId) as [node|]; [|done].
  destruct (dragStartPositions st !! nodeId) as [startPos|]; [|done].
  destruct (Canvas.isMultiDrag nodeId st); [|done].
  unfold Canvas.forEachSelected at 1.
  rewrite moveOthers_skip; [done|].
  intros id Hid. simpl. unfold Canvas.forEachSelected.
  by apply cleared_lookup.
Qed.

Lemma handleNodeDragEnd_others nodeId x y st id :
  id ≠ nodeId →
  nodes (Canvas.handleNodeDragEnd nodeId x y st) !! id = nodes st !! id.
Proof.
  intros Hne. rewrite handleNodeDragEnd_nodes.
  destruct (nodes st !! nodeId); [|done].
  destruct (dragStartPositions st !! nodeId); [|done].
  unfold useNodes.moveNode. by apply updateNode_other.
Qed.

(** *** Releasing a connection drag *)

Lemma createEdge_rejected id a b (m : EdgeMap) :
  (useEdges.createEdge id a b m).1 = None →
  (useEdges.createEdge id a b m).2 = m.
Proof.
  destruct (createEdge_cases id a b m)
    as [[_ ->]|[(_ & _ & ->)|(_ & _ & ->)]]; done.
Qed.

Lemma truthy_Some t : t ≠ "" → truthy (Some t) = true.
Proof.
  intros Ht. simpl. apply negb_true_iff. by apply String.eqb_neq.
Qed.

End controller.

(** C1 — multi-node drag commit, evaluated on the code: with two nodes
    selected and the first dragged by (50, -20), the overlay shows the
    second node moved by (50, -20) during the drag, but at drag end only the
    dragged node is written to the store; the second keeps its start
    position. *)
Theorem multi_drag_commits_dragged_node_only :
  elements (selectedNodeIds midDrag) = ["node-a"; "node-b"]
  ∧ draggingNodes midDrag !! "node-b" = Some (350, -20)%Q
  ∧ (λ n, (node_x n, node_y n)) <$> nodes bothSelected !! "node-a"
    = Some (0, 0)%Q
  ∧ (λ n, (node_x n, node_y n)) <$> nodes afterDrag !! "node-a"
    = Some (50, -20)%Q
  ∧ (λ n, (node_x n, node_y n)) <$> nodes bothSelected !! "node-b"
    = Some (300, 0)%Q
  ∧ (λ n, (node_x n, node_y n)) <$> nodes afterDrag !! "node-b"
    = Some (300, 0)%Q.
Proof. repeat split; by vm_compute. Qed.

(** C2 — dangling-edge invariant, evaluated on the code: deleting the
    selected node with [Delete] removes the node and keeps the edge that
    starts at it; [deleteEdgesForNode], which would prune it, is not
    called. *)
Theorem delete_node_keeps_incident_edge :
  nodes afterDelete !! "node-a" = None
  ∧ edges afterDelete !! "edge-1"
    = Some (mkEdge "edge-1" "node-a" "node-b" None)
  ∧ useEdges.deleteEdgesForNode "node-a" (edges afterDelete) !! "edge-1"
    = None.
Proof. repeat split; by vm_compute. Qed.

(** C5, as the code has it — history on a connection release: a release
    while snapped to node [t] first pushes one snapshot of the graph as it
    is ([pushState] with the default bound) and then calls [createEdge];
    when [createEdge] rejects, nodes and edges are as before and the
    snapshot stays on the past stack.  A release that is not snapped leaves
    history, nodes and edges as they were. *)
Theorem connection_release_history (st : CanvasState)
    (drag : ConnectionDragState) (newEdgeId : string) :
  connectionDrag st = Some drag →
  let st' := Canvas.handleConnectionEnd newEdgeId st in
  (∀ t, snappedNodeId drag = Some t → t ≠ "" →
     history st'
     = useHistory.pushState useHistory.DEFAULT_MAX_SIZE (nodes st)
         (edges st) (history st)
     ∧ ((useEdges.createEdge newEdgeId (fromNodeId drag) t (edges st)).1
        = None →
        nodes st' = nodes st ∧ edges st' = edges st))
  ∧ (truthy (snappedNodeId drag) = false →
     history st' = history st ∧ nodes st' = nodes st
     ∧ edges st' = edges st).
Proof.
  intros Hdrag st'. subst st'. unfold Canvas.handleConnectionEnd.
  rewrite Hdrag. split.
  - intros t Ht Hne. rewrite Ht, (truthy_Some t Hne). simpl.
    split; [done|]. intros Hrej. split; [done|].
    by apply createEdge_rejected.
  - intros Hfalse. by rewrite Hfalse.
Qed.

(** The second drag between the two joined nodes of the sample session. *)
Lemma connection_release_history_rejected :
  let st := dragTowardsB connected in
  ∃ drag, connectionDrag st = Some drag
    ∧ snappedNodeId drag = Some "node-b"
    ∧ let st' := Canvas.handleConnectionEnd "edge-2" st in
      history st'
      = useHistory.pushState useHistory.DEFAULT_MAX_SIZE (nodes st)
          (edges st) (history st)
      ∧ nodes st' = nodes st ∧ edges st' = edges st.
Proof.
  intros st.
  destruct (connectionDrag st) as [drag|] eqn:E;
    [|vm_compute in E; discriminate E].
  exists drag. split; [reflexivity|].
  assert (snappedNodeId drag = Some "node-b") as Ht.
  { assert (connectionDrag st ≫= snappedNodeId = Some "node-b") as H
      by (vm_compute; reflexivity).
    rewrite E in H. exact H. }
  split; [exact Ht|].
  destruct (connection_release_history st drag "edge-2" E) as [Hsnap _].
  destruct (Hsnap "node-b" Ht) as [Hh Hrej]; [discriminate|].
  assert (fromNodeId drag = "node-a") as Hfrom.
  { assert (fromNodeId <$> connectionDrag st = Some "node-a") as H
      by (vm_compute; reflexivity).
    rewrite E in H. by injection H. }
  rewrite Hfrom in Hrej.
  destruct Hrej as [Hn He]; [vm_compute; reflexivity|].
  exact (conj Hh (conj Hn He)).
Defined.

(** With the edge from the first node to the second already there, a second
    connection drag released while snapped to the second node is rejected
    by [createEdge], and the past stack has grown by one entry. *)
Lemma rejected_release_grows_history :
  let st := dragTowardsB connected in
  let st' := Canvas.handleConnectionEnd "edge-2" st in
  connectionDrag st ≫= snappedNodeId = Some "node-b"
  ∧ (useEdges.createEdge "edge-2" "node-a" "node-b" (edges st)).1 = None
  ∧ edges st' = edges st
  ∧ length (past (history st)) = 3%nat
  ∧ length (past (history st')) = 4%nat
  ∧ past (history st') ≠ past (history st).
Proof.
  cbv zeta. repeat split; by vm_compute.
Qed.

(** ** Properties of the geometry helpers *)

Section geometry_facts.
Implicit Types (h : HandlePoint) (hs : list HandlePoint).

Lemma hypot2_nonneg (dx dy : Q) : (0 <= geometry.hypot2 dx dy)%Q.
Proof. unfold geometry.hypot2. nra. Qed.

Lemma dist2At_nonneg tx ty h : (0 <= dist2At tx ty h)%Q.
Proof. apply hypot2_nonneg. Qed.

Lemma Q2R_nonneg (a : Q) : (0 <= a)%Q → (0 <= Q2R a)%R.
Proof.
  intros Ha.
  replace 0%R with (Q2R 0) by (unfold Q2R; simpl; Lra.lra).
  by apply Qle_Rle.
Qed.

(** Comparing squares is comparing roots. *)
Lemma sqrt_lt_square (a b : Q) :
  (0 <= a)%Q → (0 <= b)%Q →
  (a < b * b)%Q ↔ (sqrt (Q2R a) < Q2R b)%R.
Proof.
  intros Ha Hb.
  assert (Q2R b = sqrt (Q2R (b * b))) as ->.
  { rewrite Q2R_mult. symmetry. apply sqrt_square. by apply Q2R_nonneg. }
  split.
  - intros H. apply sqrt_lt_1_alt.
    split; [by apply Q2R_nonneg|by apply Qlt_Rlt].
  - intros H. apply Rlt_Qlt. by apply sqrt_lt_0_alt in H.
Qed.


Lemma euclid_lt_threshold tx ty h :
  (dist2At tx ty h < geometry.SNAP_THRESHOLD * geometry.SNAP_THRESHOLD)%Q
  ↔ (euclid tx ty h < Q2R geometry.SNAP_THRESHOLD)%R.
Proof.
  apply sqrt_lt_square; [apply dist2At_nonneg|done].
Qed.


(** The nested loops are one scan of the candidate handles. *)
Lemma scanNode_candidates tx ty ex (nodes : list Node) : ∀ acc,
  foldl (geometry.scanNode tx ty ex) acc nodes
  = foldl (geometry.scanHandle tx ty) acc (candidateHandles nodes ex).
Proof.
  induction nodes as [|n nodes IH]; intros acc; [done|].
  simpl. rewrite foldl_app, IH. unfold geometry.scanNode.
  by destruct (geometry.isExcluded ex n).
Qed.

(** What a scan returns: nothing exactly when there was nothing to scan,
    otherwise a scanned handle (or the one it started with), its squared
    distance, and no scanned handle is nearer. *)
Lemma scanHandle_spec tx ty hs : ∀ acc,
  (∀ h d, acc = Some (h, d) → d = dist2At tx ty h) →
  match foldl (geometry.scanHandle tx ty) acc hs with
  | None => acc = None ∧ hs = []
  | Some (h, d) =>
      d = dist2At tx ty h
      ∧ ((∃ d0, acc = Some (h, d0)) ∨ h ∈ hs)
      ∧ (∀ h', h' ∈ hs → (d <= dist2At tx ty h')%Q)
      ∧ (∀ h0 d0, acc = Some (h0, d0) → (d <= d0)%Q)
  end.
Proof.
  induction hs as [|h1 hs IH]; intros acc Hacc.
  - simpl. destruct acc as [[h d]|]; [|done].
    split; [by apply Hacc|]. split; [by eauto|].
    split; [by intros h' ?%elem_of_nil|].
    intros h0 d0 [= <- <-]. apply Qle_refl.
  - simpl.
    assert (∀ h d, geometry.scanHandle tx ty acc h1 = Some (h, d) →
              d = dist2At tx ty h) as Hacc'.
    { intros h d. unfold geometry.scanHandle.
      destruct acc as [[h0 d0]|].
      - destruct (Qlt_le_dec _ d0); [by intros [= <- <-]|]. apply Hacc.
      - by intros [= <- <-]. }
    specialize (IH _ Hacc').
    destruct (foldl _ (geometry.scanHandle tx ty acc h1) hs)
      as [[h d]|].
    + destruct IH as (Hd & Hin & Hmin & Hle). split; [done|].
      unfold geometry.scanHandle in Hin, Hle.
      fold (dist2At tx ty h1) in Hin, Hle.
      destruct acc as [[h0 d0]|].
      * destruct (Qlt_le_dec (dist2At tx ty h1) d0) as [Hlt|Hge].
        -- split; [|split].
           ++ right. destruct Hin as [[d1 [= <- <-]]|Hin];
                [by left|by right].
           ++ intros h' [->|Hin']%elem_of_cons; [by eapply Hle|by apply Hmin].
           ++ intros h2 d2 [= <- <-].
              eapply Qle_trans; [by eapply Hle|]. by apply Qlt_le_weak.
        -- split; [|split].
           ++ destruct Hin as [[d1 [= <- <-]]|Hin]; [left; eauto|].
              right. by right.
           ++ intros h' [->|Hin']%elem_of_cons; [|by apply Hmin].
              eapply Qle_trans; [by eapply Hle|done].
           ++ intros h2 d2 [= <- <-]. by eapply Hle.
      * split; [|split].
        -- right. destruct Hin as [[d1 [= <- <-]]|Hin]; [by left|by right].
        -- intros h' [->|Hin']%elem_of_cons; [by eapply Hle|by apply Hmin].
        -- done.
    + destruct IH as [Hnone _]. exfalso.
      unfold geometry.scanHandle in Hnone.
      destruct acc as [[h0 d0]|]; [|done].
      by destruct (Qlt_le_dec _ d0).
Qed.

Lemma findClosest_spec (nodes : list Node) tx ty ex :
  match geometry.findClosestHandleInNodes nodes tx ty ex with
  | None => candidateHandles nodes ex = []
  | Some c =>
      handle c ∈ candidateHandles nodes ex
      ∧ distance2 c = dist2At tx ty (handle c)
      ∧ ∀ h', h' ∈ candidateHandles nodes ex →
          (distance2 c <= dist2At tx ty h')%Q
  end.
Proof.
  unfold geometry.findClosestHandleInNodes.
  rewrite scanNode_candidates.
  pose proof (scanHandle_spec tx ty (candidateHandles nodes ex) None) as H.
  destruct (foldl _ None _) as [[h d]|].
  - destruct H as (Hd & Hin & Hmin & _); [done|]. simpl.
    destruct Hin as [[? [=]]|Hin]. done.
  - by destruct H as [_ ?].
Qed.

(** A candidate handle carries the id of a node other than the excluded
    one. *)
Lemma candidate_nodeId (nodes : list Node) from h :
  h ∈ candidateHandles nodes (Some from) →
  ∃ n, n ∈ nodes ∧ hp_nodeId h = Some (node_id n) ∧ node_id n ≠ from.
Proof.
  unfold candidateHandles. rewrite list_elem_of_In, in_flat_map.
  intros (n & Hn & Hh). exists n. split; [by apply list_elem_of_In|].
  simpl in Hh. destruct (String.eqb (node_id n) from) eqn:E; [done|].
  apply String.eqb_neq in E. split; [|done].
  simpl in Hh. intuition (subst; done).
Qed.

(** What a [scanBy] returns: see [scanHandle_spec]. *)
Lemma scanBy_spec {A} (cost : A → Q) (l : list A) : ∀ acc,
  (∀ a d, acc = Some (a, d) → d = cost a) →
  match foldl (scanBy cost) acc l with
  | None => acc = None ∧ l = []
  | Some (a, d) =>
      d = cost a
      ∧ ((∃ d0, acc = Some (a, d0)) ∨ a ∈ l)
      ∧ (∀ a', a' ∈ l → (d <= cost a')%Q)
      ∧ (∀ a0 d0, acc = Some (a0, d0) → (d <= d0)%Q)
  end.
Proof.
  induction l as [|x l IH]; intros acc Hacc.
  - simpl. destruct acc as [[a d]|]; [|done].
    split; [by apply Hacc|]. split; [by eauto|].
    split; [by intros a' ?%elem_of_nil|].
    intros a0 d0 [= <- <-]. apply Qle_refl.
  - simpl.
    assert (∀ a d, scanBy cost acc x = Some (a, d) → d = cost a) as Hacc'.
    { intros a d. unfold scanBy. destruct acc as [[a0 d0]|].
      - destruct (Qlt_le_dec _ d0); [by intros [= <- <-]|]. apply Hacc.
      - by intros [= <- <-]. }
    specialize (IH _ Hacc').
    destruct (foldl _ (scanBy cost acc x) l) as [[a d]|].
    + destruct IH as (Hd & Hin & Hmin & Hle). split; [done|].
      unfold scanBy in Hin, Hle.
      destruct acc as [[a0 d0]|].
      * destruct (Qlt_le_dec (cost x) d0) as [Hlt|Hge].
        -- split; [|split].
           ++ right. destruct Hin as [[d1 [= <- <-]]|Hin];
                [by left|by right].
           ++ intros a' [->|Hin']%elem_of_cons;
                [by eapply Hle|by apply Hmin].
           ++ intros a2 d2 [= <- <-].
              eapply Qle_trans; [by eapply Hle|]. by apply Qlt_le_weak.
        -- split; [|split].
           ++ destruct Hin as [[d1 [= <- <-]]|Hin]; [left; eauto|].
              right. by right.
           ++ intros a' [->|Hin']%elem_of_cons; [|by apply Hmin].
              eapply Qle_trans; [by eapply Hle|done].
           ++ intros a2 d2 [= <- <-]. by eapply Hle.
      * split; [|split].
        -- right. destruct Hin as [[d1 [= <- <-]]|Hin]; [by left|by right].
        -- intros a' [->|Hin']%elem_of_cons; [by eapply Hle|by apply Hmin].
        -- done.
    + destruct IH as [Hnone _]. exfalso. unfold scanBy in Hnone.
      destruct acc as [[a0 d0]|]; [|done].
      by destruct (Qlt_le_dec _ d0).
Qed.

End geometry_facts.

(** ** Connection drags and the snap threshold *)

Section snapping.
Implicit Types (st : CanvasState) (drag : ConnectionDragState).
Variable A : Arith.

(** The nested loops are one scan of the handles, by computed distance. *)
Lemma computed_scan tx ty ex (nodes : list Node) : ∀ acc,
  foldl (Doubles.scanNode A tx ty ex) acc nodes
  = foldl (scanBy (computedDistance A tx ty)) acc
      (computedHandles A nodes ex).
Proof.
  induction nodes as [|n nodes IH]; intros acc; [done|].
  simpl. rewrite foldl_app, IH. unfold Doubles.scanNode.
  by destruct (geometry.isExcluded ex n).
Qed.

Lemma computed_closest (nodes : list Node) tx ty ex :
  match Doubles.findClosestHandleInNodes A nodes tx ty ex with
  | None => computedHandles A nodes ex = []
  | Some c =>
      Doubles.handle c ∈ computedHandles A nodes ex
      ∧ Doubles.distance c = computedDistance A tx ty (Doubles.handle c)
      ∧ ∀ h', h' ∈ computedHandles A nodes ex →
          (Doubles.distance c <= computedDistance A tx ty h')%Q
  end.
Proof.
  unfold Doubles.findClosestHandleInNodes. rewrite computed_scan.
  pose proof (scanBy_spec (computedDistance A tx ty)
                (computedHandles A nodes ex) None) as H.
  destruct (foldl _ None _) as [[h d]|].
  - destruct H as (Hd & Hin & Hmin & _); [done|]. simpl.
    destruct Hin as [[? [=]]|Hin]. done.
  - by destruct H as [_ ?].
Qed.

(** A handle that is scanned carries the id of a node other than the
    excluded one. *)
Lemma computed_nodeId (nodes : list Node) from h :
  h ∈ computedHandles A nodes (Some from) →
  ∃ n, n ∈ nodes ∧ hp_nodeId h = Some (node_id n) ∧ node_id n ≠ from.
Proof.
  unfold computedHandles. rewrite list_elem_of_In, in_flat_map.
  intros (n & Hn & Hh). exists n. split; [by apply list_elem_of_In|].
  simpl in Hh. destruct (String.eqb (node_id n) from) eqn:E; [done|].
  apply String.eqb_neq in E. split; [|done].
  simpl in Hh. intuition (subst; done).
Qed.

Lemma isSnapped_iff (closest : option Doubles.ClosestHandle) :
  Doubles.isSnapped closest = true
  ↔ ∃ c, closest = Some c
      ∧ (Doubles.distance c < geometry.SNAP_THRESHOLD)%Q.
Proof.
  unfold Doubles.isSnapped. destruct closest as [c|].
  - destruct (Qlt_le_dec _ _) as [Hlt|Hge]; split; try done.
    + intros _. by exists c.
    + intros (c' & [= <-] & Hlt). exfalso. lra.
  - split; [done|]. by intros (c & ? & _).
Qed.

(** The drag descriptor [handleConnectionMove] stores. *)
Lemma handleConnectionMove_drag st drag sx sy :
  connectionDrag st = Some drag →
  let p := Doubles.screenToCanvas A (camera st) sx sy in
  let closest :=
    Doubles.findClosestHandleInNodes A (useNodes.nodeList (nodes st))
      p.1 p.2 (Some (fromNodeId drag)) in
  let st1 := Doubles.handleConnectionMove A sx sy st in
  nodes st1 = nodes st ∧ edges st1 = edges st ∧ history st1 = history st
  ∧ fromNodeId <$> connectionDrag st1 = Some (fromNodeId drag)
  ∧ connectionDrag st1 ≫= snappedX
    = (if Doubles.isSnapped closest
       then closest ≫= (λ c, Some (hp_x (Doubles.handle c))) else None)
  ∧ connectionDrag st1 ≫= snappedNodeId
    = (if Doubles.isSnapped closest
       then closest ≫= (λ c, if truthy (hp_nodeId (Doubles.handle c))
                             then hp_nodeId (Doubles.handle c) else None)
       else None).
Proof.
  intros Hdrag p closest st1. subst st1.
  unfold Doubles.handleConnectionMove. rewrite Hdrag. simpl.
  fold p. fold closest. done.
Qed.

(** What [handleConnectionEnd] does to the edge map and the history. *)
Lemma handleConnectionEnd_snapped st drag newEdgeId t :
  connectionDrag st = Some drag → snappedNodeId drag = Some t →
  truthy (Some t) = true →
  edges (Canvas.handleConnectionEnd newEdgeId st)
  = (useEdges.createEdge newEdgeId (fromNodeId drag) t (edges st)).2.
Proof.
  intros Hdrag Ht Htr. unfold Canvas.handleConnectionEnd.
  rewrite Hdrag, Ht, Htr. done.
Qed.

Lemma handleConnectionEnd_free st drag newEdgeId :
  connectionDrag st = Some drag → snappedNodeId drag = None →
  edges (Canvas.handleConnectionEnd newEdgeId st) = edges st
  ∧ history (Canvas.handleConnectionEnd newEdgeId st) = history st.
Proof.
  intros Hdrag Ht. unfold Canvas.handleConnectionEnd.
  rewrite Hdrag, Ht. done.
Qed.

End snapping.

Lemma Q2R_threshold : Q2R geometry.SNAP_THRESHOLD = 30%R.
Proof. unfold Q2R. simpl. Lra.lra. Qed.

(** C7, as the code has it — snap threshold.  The code measures the
    distance to a handle as the double
    [Math.hypot(handle.x - targetX, handle.y - targetY)], every operation
    rounded, and compares that double with [SNAP_THRESHOLD] = 30.  For any
    arithmetic [A], during a connection drag from a node, after a pointer
    move:
    - the pending connection is snapped exactly when the handle nearest to
      the pointer's canvas position among the handles of all other nodes,
      nearest by computed distance, has a computed distance strictly below
      30;
    - when it is snapped to node [t], [t] is not the source and the snapped
      handle is such a nearest handle of [t]; releasing then inserts the
      edge from the source to [t] if no edge joins the two nodes yet, and
      leaves the edge map as it was if one does;
    - when every such handle has a computed distance of 30 or more, nothing
      is snapped and releasing changes neither the edge map nor the
      history;
    - when no node has the empty id, a snapped connection names its node;
    - where the computed distance of each of these handles is within a
      relative error [ε] of its Euclidean distance, a handle at Euclidean
      distance below [30 / (1 + ε)] makes the connection snap, and it does
      not snap when all of them are at [30 / (1 - ε)] or more. *)
Theorem snap_threshold (A : Arith) (st : CanvasState)
    (drag : ConnectionDragState) (screenX screenY : Q)
    (newEdgeId : string) :
  connectionDrag st = Some drag →
  let p := Doubles.screenToCanvas A (camera st) screenX screenY in
  let candidates :=
    computedHandles A (useNodes.nodeList (nodes st))
      (Some (fromNodeId drag)) in
  let dist := computedDistance A p.1 p.2 in
  let threshold := geometry.SNAP_THRESHOLD in
  let nearest h :=
    h ∈ candidates ∧ ∀ h', h' ∈ candidates → (dist h <= dist h')%Q in
  let st1 := Doubles.handleConnectionMove A screenX screenY st in
  let st2 := Canvas.handleConnectionEnd newEdgeId st1 in
  (is_Some (connectionDrag st1 ≫= snappedX)
   ↔ ∃ h, nearest h ∧ (dist h < threshold)%Q)
  ∧ (∀ t, connectionDrag st1 ≫= snappedNodeId = Some t →
       t ≠ fromNodeId drag
       ∧ (∃ h, nearest h ∧ (dist h < threshold)%Q ∧ hp_nodeId h = Some t)
       ∧ ((∀ k e, edges st !! k = Some e → ¬ joins (fromNodeId drag) t e) →
          edges st2
          = <[newEdgeId := mkEdge newEdgeId (fromNodeId drag) t None]>
              (edges st))
       ∧ ((∃ k e, edges st !! k = Some e ∧ joins (fromNodeId drag) t e) →
          edges st2 = edges st))
  ∧ ((∀ h, h ∈ candidates → (threshold <= dist h)%Q) →
     connectionDrag st1 ≫= snappedX = None
     ∧ edges st2 = edges st ∧ history st2 = history st)
  ∧ ((∀ n, n ∈ useNodes.nodeList (nodes st) → node_id n ≠ "") →
     is_Some (connectionDrag st1 ≫= snappedX) →
     is_Some (connectionDrag st1 ≫= snappedNodeId))
  ∧ (∀ ε : R, (0 <= ε < 1)%R →
       (∀ h, h ∈ candidates →
          ((1 - ε) * euclid p.1 p.2 h <= Q2R (dist h)
           <= (1 + ε) * euclid p.1 p.2 h)%R) →
       ((∃ h, h ∈ candidates ∧ ((1 + ε) * euclid p.1 p.2 h < 30)%R) →
        is_Some (connectionDrag st1 ≫= snappedX))
       ∧ ((∀ h, h ∈ candidates → (30 <= (1 - ε) * euclid p.1 p.2 h)%R) →
          connectionDrag st1 ≫= snappedX = None)).
Proof.
  intros Hdrag p candidates dist threshold nearest st1 st2.
  subst threshold.
  destruct (handleConnectionMove_drag A st drag screenX screenY Hdrag)
    as (Hn1 & He1 & Hh1 & Hfrom & HsX & HsId).
  fold p st1 in Hn1, He1, Hh1, Hfrom, HsX, HsId.
  pose proof (computed_closest A (useNodes.nodeList (nodes st)) p.1 p.2
                (Some (fromNodeId drag))) as Hspec.
  fold candidates in Hspec.
  set (closest :=
         Doubles.findClosestHandleInNodes A (useNodes.nodeList (nodes st))
           p.1 p.2 (Some (fromNodeId drag))) in *.
  assert (Doubles.isSnapped closest = true
          ↔ ∃ h, nearest h ∧ (dist h < geometry.SNAP_THRESHOLD)%Q) as Hsnap.
  { rewrite isSnapped_iff. split.
    - intros (c & Hc & Hlt). rewrite Hc in Hspec.
      destruct Hspec as (Hin & Hd & Hmin). exists (Doubles.handle c).
      split; [split; [done|]|].
      + intros h' Hh'. unfold dist. rewrite <- Hd. by apply Hmin.
      + unfold dist. by rewrite <- Hd.
    - intros (h & [Hin Hmin] & Hlt).
      destruct closest as [c|];
        [|by rewrite Hspec in Hin; apply elem_of_nil in Hin].
      destruct Hspec as (Hcin & Hd & Hcmin). exists c. split; [done|].
      eapply Qle_lt_trans; [by apply Hcmin|done]. }
  assert (∀ t, connectionDrag st1 ≫= snappedNodeId = Some t →
            ∃ c, closest = Some c ∧ Doubles.isSnapped closest = true
                 ∧ hp_nodeId (Doubles.handle c) = Some t ∧ t ≠ "") as Hid.
  { intros t Ht. rewrite HsId in Ht.
    destruct (Doubles.isSnapped closest) eqn:Hs; [|done].
    destruct closest as [c|]; [|done]. simpl in Ht.
    destruct (truthy (hp_nodeId (Doubles.handle c))) eqn:Htr; [|done].
    exists c. repeat split; try done.
    rewrite Ht in Htr. simpl in Htr.
    apply negb_true_iff in Htr. by apply String.eqb_neq in Htr. }
  assert (is_Some (connectionDrag st1 ≫= snappedX)
          ↔ Doubles.isSnapped closest = true) as HX.
  { rewrite HsX. destruct (Doubles.isSnapped closest) eqn:Hs.
    - apply isSnapped_iff in Hs as (c & -> & _). simpl. split; eauto.
    - split; [by intros [? ?]|done]. }
  assert ((∀ h, h ∈ candidates → (geometry.SNAP_THRESHOLD <= dist h)%Q) →
          Doubles.isSnapped closest = false) as Hfar.
  { intros Hfar. destruct (Doubles.isSnapped closest) eqn:Hs; [|done].
    exfalso. destruct (proj1 Hsnap eq_refl) as (h & [Hin _] & Hlt).
    specialize (Hfar h Hin). lra. }
  split; [|split; [|split; [|split]]].
  - by rewrite HX.
  - intros t Ht. destruct (Hid t Ht) as (c & Hc & Hs & Hnode & Hne).
    rewrite Hc in Hspec. destruct Hspec as (Hin & Hd & Hmin).
    destruct (computed_nodeId A _ _ _ Hin) as (n & _ & Hn & Hnfrom).
    assert (t ≠ fromNodeId drag) as Htfrom by congruence.
    split; [done|]. split.
    { exists (Doubles.handle c). split; [split; [done|]|split; [|done]].
      - intros h' Hh'. unfold dist. rewrite <- Hd. by apply Hmin.
      - unfold dist. rewrite <- Hd.
        apply isSnapped_iff in Hs as (c' & Hc' & Hlt).
        rewrite Hc in Hc'. by injection Hc' as <-. }
    destruct (connectionDrag st1) as [drag1|] eqn:Hd1; [|done].
    simpl in Ht, Hfrom. injection Hfrom as Hfrom.
    assert (edges st2
            = (useEdges.createEdge newEdgeId (fromNodeId drag) t
                 (edges st)).2) as He2.
    { unfold st2.
      rewrite (handleConnectionEnd_snapped st1 drag1 newEdgeId t Hd1 Ht
                 (truthy_Some t Hne)).
      by rewrite Hfrom, He1. }
    rewrite He2.
    destruct (createEdge_cases newEdgeId (fromNodeId drag) t (edges st))
      as [[Heq _]|[(_ & Hex & ->)|(_ & Hfresh & ->)]]; [congruence|..].
    + split; [|done]. intros Hno. exfalso.
      destruct Hex as (k & e & Hk & Hj). by eapply Hno.
    + split; [done|]. intros (k & e & Hk & Hj). exfalso. by eapply Hfresh.
  - intros Hall. specialize (Hfar Hall).
    rewrite Hfar in HsX, HsId. split; [done|].
    destruct (connectionDrag st1) as [drag1|] eqn:Hd1.
    + simpl in HsId.
      destruct (handleConnectionEnd_free st1 drag1 newEdgeId Hd1 HsId)
        as [He2 Hh2].
      unfold st2. by rewrite He2, Hh2, He1, Hh1.
    + unfold st2, Canvas.handleConnectionEnd. rewrite Hd1. done.
  - intros Hids HsomeX. apply HX in HsomeX. rewrite HsId, HsomeX.
    destruct closest as [c|]; [|done]. simpl.
    destruct Hspec as (Hin & _ & _).
    destruct (computed_nodeId A _ _ _ Hin) as (n & Hnin & Hn & _).
    rewrite Hn, (truthy_Some (node_id n)); [by eauto|]. by apply Hids.
  - intros ε Hε Hacc. split.
    + intros (h & Hin & Hlt). apply HX, isSnapped_iff.
      destruct closest as [c|];
        [|by rewrite Hspec in Hin; apply elem_of_nil in Hin].
      destruct Hspec as (_ & _ & Hmin). exists c. split; [done|].
      eapply Qle_lt_trans; [by apply Hmin|].
      apply Rlt_Qlt. rewrite Q2R_threshold.
      destruct (Hacc h Hin) as [_ Hup]. fold dist. Lra.lra.
    + intros Hall.
      assert (Doubles.isSnapped closest = false) as Hs.
      { apply Hfar. intros h Hin. apply Rle_Qle. rewrite Q2R_threshold.
        destruct (Hacc h Hin) as [Hlo _]. specialize (Hall h Hin).
        Lra.lra. }
      by rewrite HsX, Hs.
Qed.

(** The sample arithmetic on the sample session: a connection dragged from
    the right handle of the first node to the screen point (271, 70). *)
Lemma snap_threshold_first_drag :
  let A := binary64.arith in
  let st := Canvas.handleConnectionStart "node-a" right twoNodes in
  ∃ drag, connectionDrag st = Some drag
    ∧ let p := Doubles.screenToCanvas A (camera st) 271 70 in
      let candidates :=
        computedHandles A (useNodes.nodeList (nodes st))
          (Some (fromNodeId drag)) in
      let dist := computedDistance A p.1 p.2 in
      let nearest h :=
        h ∈ candidates ∧ ∀ h', h' ∈ candidates → (dist h <= dist h')%Q in
      let st1 := Doubles.handleConnectionMove A 271 70 st in
      is_Some (connectionDrag st1 ≫= snappedX)
      ↔ ∃ h, nearest h ∧ (dist h < geometry.SNAP_THRESHOLD)%Q.
Proof.
  intros A st.
  destruct (connectionDrag st) as [drag|] eqn:E;
    [|vm_compute in E; discriminate E].
  exists drag. split; [reflexivity|].
  exact (proj1 (snap_threshold A st drag 271 70 "edge-1" E)).
Defined.

(** The two releases of the scenario in double arithmetic: at computed
    distance 29 from the left handle of the second node the edge is
    committed; at computed distance 31 the drag is not snapped and no edge
    is created. *)
Example release_at_29 :
  let A := binary64.arith in
  let st :=
    Doubles.handleConnectionMove A 271 70
      (Canvas.handleConnectionStart "node-a" right twoNodes) in
  Doubles.distance
    <$> Doubles.findClosestHandleInNodes A
          (useNodes.nodeList (nodes twoNodes)) 271 70 (Some "node-a")
  = Some 29%Q
  ∧ connectionDrag st ≫= snappedNodeId = Some "node-b"
  ∧ edges (Canvas.handleConnectionEnd "edge-1" st)
    = {["edge-1" := mkEdge "edge-1" "node-a" "node-b" None]}.
Proof. cbv zeta. repeat split; by vm_compute. Qed.

Example release_at_31 :
  let A := binary64.arith in
  let st :=
    Doubles.handleConnectionMove A 269 70
      (Canvas.handleConnectionStart "node-a" right twoNodes) in
  Doubles.distance
    <$> Doubles.findClosestHandleInNodes A
          (useNodes.nodeList (nodes twoNodes)) 269 70 (Some "node-a")
  = Some 31%Q
  ∧ connectionDrag st ≫= snappedX = None
  ∧ edges (Canvas.handleConnectionEnd "edge-1" st) = ∅.
Proof. cbv zeta. repeat split; by vm_compute. Qed.

(** The claim fails on the code in two ways.

    A release while snapped at distance 29 that commits no edge: with the
    two nodes of the sample session joined already, a second connection
    dragged to (271, 70) snaps to the left handle of the second node, and
    the release leaves the edge map as it was.

    A pointer at Euclidean distance below 30 that does not snap: with the
    second node moved so that its left handle lies at (30, 0) and the
    pointer at the canvas point (2^-70, 0), the distance is [30 - 2^-70],
    but [30 - 2^-70] rounds to 30, [Math.hypot(30, 0)] is 30, and
    [30 < 30] is false. *)
Lemma snap_claim_counterexamples :
  let A := binary64.arith in
  let st :=
    Doubles.handleConnectionMove A 271 70
      (Canvas.handleConnectionStart "node-a" right connected) in
  let st' := Canvas.handleConnectionEnd "edge-2" st in
  let moved :=
    Canvas.setNodes (useNodes.moveNode "node-b" 30 (-70)) twoNodes in
  let tiny := binary64.pow2 (-70) in
  let near :=
    Doubles.handleConnectionMove A tiny 0
      (Canvas.handleConnectionStart "node-a" right moved) in
  let leftHandle := h_left (Doubles.getHandlePoints A
                              (mkNode "node-b" 30 (-70) 220 140
                                 "New Node" "" false None)) in
  (connectionDrag st ≫= snappedX = Some 300%Q
   ∧ connectionDrag st ≫= snappedNodeId = Some "node-b"
   ∧ Doubles.distance
       <$> Doubles.findClosestHandleInNodes A
             (useNodes.nodeList (nodes connected)) 271 70 (Some "node-a")
     = Some 29%Q
   ∧ edges st' = edges st
   ∧ edges st' !! "edge-2" = None
   ∧ size (edges st') = 1%nat)
  ∧ (Doubles.screenToCanvas A (camera moved) tiny 0 = (tiny, 0%Q)
     ∧ leftHandle ∈ computedHandles A (useNodes.nodeList (nodes moved))
                      (Some "node-a")
     ∧ (euclid tiny 0 leftHandle < 30)%R
     ∧ computedDistance A tiny 0 leftHandle = 30%Q
     ∧ connectionDrag near ≫= snappedX = None
     ∧ connectionDrag near ≫= snappedNodeId = None).
Proof.
  cbv zeta. split.
  - repeat split; by vm_compute.
  - split; [by vm_compute|]. split.
    { assert (useNodes.nodeList
                (nodes (Canvas.setNodes (useNodes.moveNode "node-b" 30 (-70))
                          twoNodes))
              = [mkNode "node-a" 0 0 220 140 "New Node" "" false None;
                 mkNode "node-b" 30 (-70) 220 140 "New Node" "" false None])
        as -> by (vm_compute; reflexivity).
      unfold computedHandles. simpl. set_solver. }
    split.
    { rewrite <- Q2R_threshold. apply euclid_lt_threshold. by vm_compute. }
    repeat split; by vm_compute.
Qed.

(** * Further properties of the code *)

(** ** Camera: coordinate conversion, panning, zooming back and forth *)

Section camera_more.
Local Open Scope Q_scope.
Implicit Types (camera : Camera) (ps : PanState).

Lemma panMoves_spec moves : ∀ ps,
  isPanning ps = true →
  let ps' := panMoves moves ps in
  let pn := lastPointer (lastPointerPos ps) moves in
  isPanning ps' = true
  ∧ lastPointerPos ps' = pn
  ∧ cam_scale (pan_camera ps') = cam_scale (pan_camera ps)
  ∧ cam_x (pan_camera ps')
    == cam_x (pan_camera ps) + (pn.1 - (lastPointerPos ps).1)
  ∧ cam_y (pan_camera ps')
    == cam_y (pan_camera ps) + (pn.2 - (lastPointerPos ps).2).
Proof.
  induction moves as [|pos moves IH]; intros ps Hpan; simpl.
  - repeat split; try done; ring.
  - destruct pos as [pos|].
    + specialize (IH (useCanvas.handleMouseMove (Some pos) ps)).
      unfold useCanvas.handleMouseMove in *. rewrite Hpan in *. simpl in *.
      destruct (IH eq_refl) as (H1 & H2 & H3 & H4 & H5).
      repeat split; try done.
      * rewrite H4. ring.
      * rewrite H5. ring.
    + assert (useCanvas.handleMouseMove None ps = ps) as ->.
      { unfold useCanvas.handleMouseMove. by rewrite Hpan. }
      by apply IH.
Qed.

(** In any arithmetic a pan keeps the scale, and the pointer it last saw. *)
Lemma panMovesIn_spec (A : Arith) moves : ∀ ps,
  let ps' := panMovesIn A moves ps in
  isPanning ps' = isPanning ps
  ∧ cam_scale (pan_camera ps') = cam_scale (pan_camera ps)
  ∧ (isPanning ps = true →
     lastPointerPos ps' = lastPointer (lastPointerPos ps) moves).
Proof.
  induction moves as [|pos moves IH]; intros ps; simpl; [done|].
  destruct (IH (Doubles.handleMouseMove A pos ps)) as (H1 & H2 & H3).
  unfold panMovesIn in *. rewrite H1, H2.
  unfold Doubles.handleMouseMove in *.
  destruct (isPanning ps) eqn:Hpan; simpl in *; [|done].
  destruct pos as [pos|]; simpl in *.
  - split; [done|]. split; [done|]. intros _. by apply H3.
  - rewrite Hpan. split; [done|]. split; [done|]. intros _. by apply H3.
Qed.

Lemma panMovesIn_idle (A : Arith) moves : ∀ ps,
  isPanning ps = false → panMovesIn A moves ps = ps.
Proof.
  induction moves as [|pos moves IH]; intros ps Hidle; simpl; [done|].
  assert (Doubles.handleMouseMove A pos ps = ps) as ->.
  { unfold Doubles.handleMouseMove. by rewrite Hidle. }
  by apply IH.
Qed.

Lemma Qabs_bounds (t : Q) : - Qabs t <= t ∧ t <= Qabs t.
Proof. apply (proj1 (Qabs_Qle_condition t (Qabs t))), Qle_refl. Qed.

Lemma Qabs_le_sum (t b : Q) : - b <= t → t <= b → Qabs t <= b.
Proof. intros. apply Qabs_Qle_condition. by split. Qed.

(** An error of at most [u * a], where [a <= c * M] and [u <= 1/8]. *)
Lemma error_step (u e a c M : Q) :
  0 <= u → u <= 1 # 8 → 0 <= M → 0 <= c →
  Qabs e <= u * a → a <= c * M →
  - (u * (c * M)) <= e ∧ e <= u * (c * M) ∧ - ((1 # 8) * (c * M)) <= e
  ∧ e <= (1 # 8) * (c * M).
Proof.
  intros Hu0 Hu8 HM Hc He Ha.
  destruct (Qabs_bounds e) as [E1 E2].
  assert (0 <= c * M) as Hb by nra.
  generalize dependent (c * M). intros b Ha Hb.
  assert (u * a <= u * b) by nra.
  assert (u * b <= (1 # 8) * b) by nra.
  repeat split; lra.
Qed.

Lemma division_error (u d s q : Q) :
  ¬ s == 0 → rounds u (d / s) q → Qabs (q * s - d) <= u * Qabs d.
Proof.
  intros Hs H. unfold rounds in H.
  assert (q * s - d == s * (q - d / s)) as -> by (field; done).
  rewrite Qabs_Qmult.
  assert (Qabs d == Qabs (d / s) * Qabs s) as ->.
  { rewrite <- Qabs_Qmult. apply Qabs_wd. field. done. }
  assert (0 <= Qabs s) by apply Qabs_nonneg.
  assert (0 <= Qabs (q - d / s)) by apply Qabs_nonneg.
  nra.
Qed.

(** Screen to canvas and back on one coordinate: four rounded operations. *)
Lemma trip_bound (u x cx s d q m r : Q) :
  0 <= u → u <= 1 # 8 → ¬ s == 0 →
  rounds u (x - cx) d → rounds u (d / s) q → rounds u (q * s) m →
  rounds u (m + cx) r →
  Qabs (r - x) <= 5 * u * (Qabs x + Qabs cx).
Proof.
  intros Hu0 Hu8 Hs H1 H2 H3 H4.
  apply division_error in H2; [|done]. unfold rounds in *.
  set (M := Qabs x + Qabs cx).
  destruct (Qabs_bounds x) as [Hx1 Hx2].
  destruct (Qabs_bounds cx) as [Hc1 Hc2].
  assert (0 <= M) as HM.
  { unfold M. pose proof (Qabs_nonneg x). pose proof (Qabs_nonneg cx). lra. }
  assert (Qabs (x - cx) <= 1 * M) as HD.
  { apply Qabs_le_sum; unfold M; lra. }
  destruct (error_step u _ _ 1 M Hu0 Hu8 HM ltac:(lra) H1 HD)
    as (A1 & B1 & C1 & D1).
  assert (Qabs d <= (9 # 8) * M) as Hd.
  { apply Qabs_le_sum; unfold M in *; lra. }
  destruct (error_step u _ _ (9 # 8) M Hu0 Hu8 HM ltac:(lra) H2 Hd)
    as (A2 & B2 & C2 & D2).
  assert (Qabs (q * s) <= (81 # 64) * M) as Hq.
  { apply Qabs_le_sum; unfold M in *; lra. }
  destruct (error_step u _ _ (81 # 64) M Hu0 Hu8 HM ltac:(lra) H3 Hq)
    as (A3 & B3 & C3 & D3).
  assert (Qabs (m + cx) <= (729 # 512) * M) as Hm.
  { apply Qabs_le_sum; unfold M in *; lra. }
  destruct (error_step u _ _ (729 # 512) M Hu0 Hu8 HM ltac:(lra) H4 Hm)
    as (A4 & B4 & C4 & D4).
  apply Qabs_le_sum; unfold M in *; lra.
Qed.

(** Canvas to screen and back. *)
Lemma trip_back_bound (u c cx s m r d q : Q) :
  0 <= u → u <= 1 # 8 → ¬ s == 0 →
  rounds u (c * s) m → rounds u (m + cx) r → rounds u (r - cx) d →
  rounds u (d / s) q →
  Qabs ((q - c) * s) <= 5 * u * (Qabs (c * s) + Qabs cx).
Proof.
  intros Hu0 Hu8 Hs H1 H2 H3 H4.
  apply division_error in H4; [|done]. unfold rounds in *.
  set (M := Qabs (c * s) + Qabs cx).
  destruct (Qabs_bounds (c * s)) as [Hx1 Hx2].
  destruct (Qabs_bounds cx) as [Hc1 Hc2].
  assert (0 <= M) as HM.
  { unfold M. pose proof (Qabs_nonneg (c * s)). pose proof (Qabs_nonneg cx).
    lra. }
  assert (Qabs (c * s) <= 1 * M) as HD.
  { apply Qabs_le_sum; unfold M; lra. }
  destruct (error_step u _ _ 1 M Hu0 Hu8 HM ltac:(lra) H1 HD)
    as (A1 & B1 & C1 & D1).
  assert (Qabs (m + cx) <= (9 # 8) * M) as Hm.
  { apply Qabs_le_sum; unfold M in *; lra. }
  destruct (error_step u _ _ (9 # 8) M Hu0 Hu8 HM ltac:(lra) H2 Hm)
    as (A2 & B2 & C2 & D2).
  assert (Qabs (r - cx) <= (81 # 64) * M) as Hr.
  { apply Qabs_le_sum; unfold M in *; lra. }
  destruct (error_step u _ _ (81 # 64) M Hu0 Hu8 HM ltac:(lra) H3 Hr)
    as (A3 & B3 & C3 & D3).
  assert (Qabs d <= (729 # 512) * M) as Hd.
  { apply Qabs_le_sum; unfold M in *; lra. }
  destruct (error_step u _ _ (729 # 512) M Hu0 Hu8 HM ltac:(lra) H4 Hd)
    as (A4 & B4 & C4 & D4).
  assert ((q - c) * s == (q * s - d) + (d - (r - cx)) + (r - (m + cx))
                         + (m - c * s)) as -> by ring.
  apply Qabs_le_sum; unfold M in *; lra.
Qed.

(** [Math.min] and [Math.max] return one of their arguments. *)
Lemma Qmin_left (a b : Q) : a <= b → Qmin a b = a.
Proof.
  intros H. unfold Qmin, GenericMinMax.gmin.
  destruct (a ?= b) eqn:E; try done.
Qed.

Lemma Qmax_left (a b : Q) : b <= a → Qmax a b = a.
Proof.
  intros H. unfold Qmax, GenericMinMax.gmax.
  destruct (a ?= b) eqn:E; try done.
  apply Qlt_alt in E. exfalso. lra.
Qed.

(** A product by [step] undone by a division, both rounded. *)
Lemma scale_back_bound (u s step s1 s2 : Q) :
  0 <= u → u <= 1 # 8 → ¬ step == 0 →
  rounds u (s * step) s1 → rounds u (s1 / step) s2 →
  Qabs (s2 - s) <= 3 * u * Qabs s.
Proof.
  intros Hu0 Hu8 Hstep H1 H2.
  apply division_error in H2; [|done]. unfold rounds in *.
  assert (0 < Qabs step) as Hpos.
  { pose proof (Qabs_nonneg step) as Hn.
    apply Qle_lt_or_eq in Hn as [H|H]; [done|].
    exfalso. apply Hstep. destruct (Qabs_bounds step). lra. }
  apply (Qmult_le_r _ _ (Qabs step)); [done|].
  rewrite <- Qabs_Qmult.
  assert (3 * u * Qabs s * Qabs step == 3 * u * Qabs (s * step)) as ->
    by (rewrite Qabs_Qmult; ring).
  set (M := Qabs (s * step)).
  pose proof (Qabs_nonneg (s * step)) as HM. fold M in HM.
  destruct (Qabs_bounds (s * step)) as [Hx1 Hx2]. fold M in Hx1, Hx2.
  assert (M <= 1 * M) as G1 by lra.
  destruct (error_step u _ _ 1 M Hu0 Hu8 HM ltac:(lra) H1 G1)
    as (A1 & B1 & C1 & D1).
  assert (Qabs s1 <= (9 # 8) * M) as G2.
  { apply Qabs_le_sum; lra. }
  destruct (error_step u _ _ (9 # 8) M Hu0 Hu8 HM ltac:(lra) H2 G2)
    as (A2 & B2 & C2 & D2).
  assert ((s2 - s) * step == (s2 * step - s1) + (s1 - s * step)) as ->
    by ring.
  apply Qabs_le_sum; lra.
Qed.

End camera_more.

(** X1 — [screenToCanvas] and [canvasToScreen] are inverse to each other up
    to rounding, for a camera whose scale is not zero.  Each conversion
    performs two operations per coordinate; when each of the four
    operations of a round trip has a relative error of at most [u]
    ([u <= 1/8]; 2^-53 for doubles):
    - screen to canvas and back returns [x] within
      [5 u (|x| + |camera.x|)];
    - canvas to screen and back returns [x] within
      [5 u (|x scale| + |camera.x|) / |scale|];
    and likewise for [y].  With exact operations ([u] = 0) the round trip
    is the identity. *)
Theorem camera_round_trip (A : Arith) (u : Q) (camera : Camera) (x y : Q) :
  (0 <= u)%Q → (u <= 1 # 8)%Q → ¬ (cam_scale camera == 0)%Q →
  let scale := cam_scale camera in
  let c := Doubles.screenToCanvas A camera x y in
  let s := Doubles.canvasToScreen A camera x y in
  (toCanvasRounds A u (cam_x camera) scale x →
   toScreenRounds A u (cam_x camera) scale c.1 →
   (Qabs ((Doubles.canvasToScreen A camera c.1 c.2).1 - x)
    <= 5 * u * (Qabs x + Qabs (cam_x camera)))%Q)
  ∧ (toCanvasRounds A u (cam_y camera) scale y →
     toScreenRounds A u (cam_y camera) scale c.2 →
     (Qabs ((Doubles.canvasToScreen A camera c.1 c.2).2 - y)
      <= 5 * u * (Qabs y + Qabs (cam_y camera)))%Q)
  ∧ (toScreenRounds A u (cam_x camera) scale x →
     toCanvasRounds A u (cam_x camera) scale s.1 →
     (Qabs (((Doubles.screenToCanvas A camera s.1 s.2).1 - x) * scale)
      <= 5 * u * (Qabs (x * scale) + Qabs (cam_x camera)))%Q)
  ∧ (toScreenRounds A u (cam_y camera) scale y →
     toCanvasRounds A u (cam_y camera) scale s.2 →
     (Qabs (((Doubles.screenToCanvas A camera s.1 s.2).2 - y) * scale)
      <= 5 * u * (Qabs (y * scale) + Qabs (cam_y camera)))%Q).
Proof.
  intros Hu0 Hu8 Hs scale c s.
  unfold toCanvasRounds, toScreenRounds. cbv zeta.
  repeat split; intros [H1 H2] [H3 H4].
  - by eapply trip_bound.
  - by eapply trip_bound.
  - by eapply trip_back_bound.
  - by eapply trip_back_bound.
Qed.

(** In double arithmetic, under the camera
    (-29.000000000000057, -8, 1.1) the screen abscissa 14 comes back as
    13.999999999999993, within the bound. *)
Lemma camera_round_trip_sample :
  let A := binary64.arith in
  let u := binary64.pow2 (-53) in
  let camera :=
    mkCamera (binary64.round (-29000000000000057 # 1000000000000000)) (-8)
      (binary64.round (11 # 10)) in
  let c := Doubles.screenToCanvas A camera 14 14 in
  let back := Doubles.canvasToScreen A camera c.1 c.2 in
  back.1 = (1970324836974591 # 140737488355328)%Q
  ∧ ¬ (back.1 == 14)%Q
  ∧ (Qabs (back.1 - 14) <= 5 * u * (Qabs 14 + Qabs (cam_x camera)))%Q.
Proof.
  intros A u camera c back.
  split; [by vm_compute|]. split; [by vm_compute|].
  apply (camera_round_trip A u camera 14 14);
    by vm_compute.
Defined.

(** X2 — panning.  In any arithmetic: a pan never changes the scale, and
    once the button is released or the pointer leaves the stage, further
    moves leave the camera where it is, as do moves without a press on the
    empty stage.  With exact operations in place of the rounded ones the
    offset moves by the displacement of the pointer since the press at
    [p0], so the canvas point grabbed at the press stays under the pointer;
    the code adds the rounded difference of each move to the offset. *)
Theorem pan_follows_pointer (A : Arith) (ps : PanState) (p0 : Q * Q)
    (moves later : list (option (Q * Q))) :
  let pressed := useCanvas.handleMouseDown true (Some p0) ps in
  let ps' := panMovesIn A moves pressed in
  let exact := panMoves moves pressed in
  let pn := lastPointer p0 moves in
  (cam_scale (pan_camera ps') = cam_scale (pan_camera ps)
   ∧ lastPointerPos ps' = pn
   ∧ pan_camera (panMovesIn A later (useCanvas.handleMouseUp ps'))
     = pan_camera ps'
   ∧ pan_camera (panMovesIn A later (useCanvas.handleMouseLeave ps'))
     = pan_camera ps'
   ∧ (isPanning ps = false →
      panMovesIn A moves ps = ps
      ∧ panMovesIn A moves (useCanvas.handleMouseDown false (Some p0) ps)
        = ps))
  ∧ ((cam_x (pan_camera exact) == cam_x (pan_camera ps) + (pn.1 - p0.1))%Q
     ∧ (cam_y (pan_camera exact) == cam_y (pan_camera ps) + (pn.2 - p0.2))%Q
     ∧ (¬ (cam_scale (pan_camera ps) == 0)%Q →
        ((useCanvas.screenToCanvas (pan_camera exact) pn.1 pn.2).1
         == (useCanvas.screenToCanvas (pan_camera ps) p0.1 p0.2).1)%Q
        ∧ ((useCanvas.screenToCanvas (pan_camera exact) pn.1 pn.2).2
           == (useCanvas.screenToCanvas (pan_camera ps) p0.1 p0.2).2)%Q)).
Proof.
  intros pressed ps' exact pn.
  destruct (panMovesIn_spec A moves pressed) as (Hpan & Hscale & Hlast).
  fold ps' in Hpan, Hscale, Hlast.
  split.
  - split; [done|]. split; [by apply Hlast|]. split; [|split].
    + by rewrite panMovesIn_idle.
    + unfold useCanvas.handleMouseLeave. rewrite Hpan. simpl.
      by rewrite panMovesIn_idle.
    + intros Hidle. split; by rewrite panMovesIn_idle.
  - destruct (panMoves_spec moves pressed eq_refl)
      as (_ & _ & Hs & Hx & Hy).
    fold exact in Hs, Hx, Hy. simpl in Hs, Hx, Hy. fold pn in Hx, Hy.
    split; [done|]. split; [done|]. intros Hne.
    unfold useCanvas.screenToCanvas. simpl. rewrite Hs.
    split; [rewrite Hx|rewrite Hy]; field; done.
Qed.

(** A pan in double arithmetic from (100, 100) through (130, 90) to
    (160, 140), then a release. *)
Lemma pan_follows_pointer_sample :
  let A := binary64.arith in
  let ps := useCanvas.initialPan in
  let moves := [Some (130, 90); None; Some (160, 140)] in
  let ps' :=
    panMovesIn A moves
      (useCanvas.handleMouseDown true (Some (100, 100)) ps) in
  cam_scale (pan_camera ps') = cam_scale (pan_camera ps)
  ∧ lastPointerPos ps' = (160, 140)
  ∧ pan_camera (panMovesIn A [Some (0, 0)] (useCanvas.handleMouseUp ps'))
    = pan_camera ps'.
Proof.
  intros A ps moves ps'.
  destruct (pan_follows_pointer A ps (100, 100) moves [Some (0, 0)])
    as ((H1 & H2 & H3 & _) & _).
  exact (conj H1 (conj H2 H3)).
Defined.

(** X3 — zooming in and back out at the same pointer, when neither step is
    clamped.  If the product [scale * scaleStep] and the division that
    undoes it each have a relative error of at most [u] ([u <= 1/8]; 2^-53
    for doubles), the scale comes back within [3 u |scale|].  With exact
    operations the whole camera is restored: the scale is not zero, the
    step is positive, [scale * scaleStep] does not exceed [maxScale] and
    the scale is not below [minScale].  In double arithmetic the offset is
    restored up to rounding only: under the default options, from the
    camera (0, 0, 0.75), one step in and one step out at (400, 300) end at
    (0, 2^-44, 0.75). *)
Theorem zoom_in_out_restores :
  (∀ (A : Arith) (u : Q) (o : UseCanvasOptions) (camera : Camera)
     (px py dIn dOut : Q),
     (0 <= u)%Q → (u <= 1 # 8)%Q → (dIn < 0)%Q → (0 <= dOut)%Q →
     ¬ (scaleStep o == 0)%Q →
     let s1 := n_mul A (cam_scale camera) (scaleStep o) in
     let s2 := n_div A s1 (scaleStep o) in
     (s1 <= maxScale o)%Q → (minScale o <= s2)%Q →
     rounds u (cam_scale camera * scaleStep o) s1 →
     rounds u (s1 / scaleStep o) s2 →
     let camera' :=
       Doubles.handleWheel A o (Some (px, py)) dOut
         (Doubles.handleWheel A o (Some (px, py)) dIn camera) in
     cam_scale camera' = s2
     ∧ (Qabs (cam_scale camera' - cam_scale camera)
        <= 3 * u * Qabs (cam_scale camera))%Q)
  ∧ (∀ (o : UseCanvasOptions) (camera : Camera) (px py dIn dOut : Q),
       (dIn < 0)%Q → (0 <= dOut)%Q →
       ¬ (cam_scale camera == 0)%Q → (0 < scaleStep o)%Q →
       (cam_scale camera * scaleStep o <= maxScale o)%Q →
       (minScale o <= cam_scale camera)%Q →
       let camera' :=
         useCanvas.handleWheel o (Some (px, py)) dOut
           (useCanvas.handleWheel o (Some (px, py)) dIn camera) in
       (cam_scale camera' == cam_scale camera)%Q
       ∧ (cam_x camera' == cam_x camera)%Q
       ∧ (cam_y camera' == cam_y camera)%Q)
  ∧ (let A := binary64.arith in
     let o :=
       mkOptions (binary64.round (1 # 10)) 3 (binary64.round (11 # 10)) in
     let camera := mkCamera 0 0 (3 # 4) in
     let camera' :=
       Doubles.handleWheel A o (Some (400, 300)) 100
         (Doubles.handleWheel A o (Some (400, 300)) (-100) camera) in
     camera' = mkCamera 0 (binary64.pow2 (-44)) (3 # 4)).
Proof.
  split; [|split; [|by vm_compute]].
  { intros A u o camera px py dIn dOut Hu0 Hu8 HdIn HdOut Hstep s1 s2
      Hmax Hmin R1 R2 camera'.
    assert (cam_scale camera' = s2) as Hscale.
    { unfold camera', Doubles.handleWheel.
      destruct (Qlt_le_dec dIn 0) as [_|?]; [|exfalso; lra].
      destruct (Qlt_le_dec dOut 0) as [?|_]; [exfalso; lra|].
      cbn [Z.ltb Z.compare fst snd cam_x cam_y cam_scale].
      fold s1. rewrite (Qmin_left s1 (maxScale o) Hmax). fold s2.
      by apply Qmax_left. }
    split; [done|]. rewrite Hscale. by eapply scale_back_bound. }
  intros o camera px py dIn dOut HdIn HdOut Hs Hstep Hmax Hmin camera'.
  unfold camera', useCanvas.handleWheel.
  destruct (Qlt_le_dec dIn 0) as [_|?]; [|exfalso; lra].
  destruct (Qlt_le_dec dOut 0) as [?|_]; [exfalso; lra|].
  cbn [Z.ltb Z.compare fst snd cam_x cam_y cam_scale].
  set (s := cam_scale camera) in *. set (step := scaleStep o) in *.
  assert (Qmin (s * step) (maxScale o) == s * step)%Q as H1
    by by apply Q.min_l.
  set (s1 := Qmin (s * step) (maxScale o)) in *.
  assert (s1 / step == s)%Q as Hback by (rewrite H1; field; lra).
  assert (Qmax (s1 / step) (minScale o) == s)%Q as H2.
  { rewrite Q.max_l; [done|]. by rewrite Hback. }
  set (s2 := Qmax (s1 / step) (minScale o)) in *.
  assert (¬ s1 == 0)%Q as Hs1.
  { rewrite H1. intros H. apply Qmult_integral in H as [H|H]; [done|lra]. }
  repeat split.
  - done.
  - rewrite H2. field. done.
  - rewrite H2. field. done.
Qed.

(** One step in and one step out at (400, 300) under the default options
    in double arithmetic, from the scale 0.75: the scale comes back. *)
Lemma zoom_in_out_restores_default :
  let A := binary64.arith in
  let u := binary64.pow2 (-53) in
  let o :=
    mkOptions (binary64.round (1 # 10)) 3 (binary64.round (11 # 10)) in
  let camera := mkCamera 0 0 (3 # 4) in
  let camera' :=
    Doubles.handleWheel A o (Some (400, 300)) 100
      (Doubles.handleWheel A o (Some (400, 300)) (-100) camera) in
  (Qabs (cam_scale camera' - (3 # 4)) <= 3 * u * (3 # 4))%Q.
Proof.
  intros A u o camera camera'.
  apply (proj1 zoom_in_out_restores A u o camera 400 300 (-100) 100);
    by vm_compute.
Defined.

(** ** Geometry: nearest handles and shortest arrows *)

Section geometry_more.
Implicit Types (h : HandlePoint) (node : Node).



Lemma candidateHandles_nil (nodes : list Node) ex :
  candidateHandles nodes (Some ex) = [] ↔ ∀ n, n ∈ nodes → node_id n = ex.
Proof.
  induction nodes as [|n nodes IH]; simpl.
  - split; [by intros _ n ?%elem_of_nil|done].
  - destruct (String.eqb (node_id n) ex) eqn:E.
    + apply String.eqb_eq in E. simpl. rewrite IH. split.
      * intros H n' [->|?]%elem_of_cons; [done|by apply H].
      * intros H n' Hin. apply H. by right.
    + apply String.eqb_neq in E. split; [done|].
      intros H. exfalso. apply E, H. by left.
Qed.

End geometry_more.



(** X7 — [findClosestHandleInNodes] returns [null] exactly when the list
    holds no node other than the excluded one, and a handle it returns is
    never one of the excluded node. *)
Theorem findClosest_excludes (nodes : list Node) (targetX targetY : Q)
    (excludeNodeId : string) :
  let result :=
    geometry.findClosestHandleInNodes nodes targetX targetY
      (Some excludeNodeId) in
  (result = None ↔ ∀ n, n ∈ nodes → node_id n = excludeNodeId)
  ∧ ∀ c, result = Some c →
      ∃ n, n ∈ nodes ∧ node_id n ≠ excludeNodeId
           ∧ hp_nodeId (handle c) = Some (node_id n).
Proof.
  intros result.
  pose proof (findClosest_spec nodes targetX targetY (Some excludeNodeId))
    as H.
  fold result in H. rewrite <- candidateHandles_nil.
  destruct result as [c|].
  - destruct H as (Hin & _). split.
    + split; [done|]. intros Hnil. rewrite Hnil in Hin.
      by apply elem_of_nil in Hin.
    + intros c' [= <-].
      destruct (candidate_nodeId _ _ _ Hin) as (n & Hn & Hid & Hne).
      by exists n.
  - split; [done|]. done.
Qed.





(** ** Node store: resizing, collapsing, creating and deleting *)

(** X8 — [resizeNode] clamps: the stored width and height are the larger of
    the requested value and the minimum (120 by 60), every other field of
    the node and every other node are as before.  On an absent id the map
    is returned as it is, unless the id names a member of
    [Object.prototype]: the guard of [updateNode] lets that one through and
    an entry is stored under it. *)
Theorem resizeNode_clamps (nodes : NodeMap) (id : string) (w h : Q) :
  (∀ n, nodes !! id = Some n →
     ∃ n', useNodes.resizeNode id w h nodes !! id = Some n'
       ∧ node_width n' = Qmax w nodeDefaults.minWidth
       ∧ node_height n' = Qmax h nodeDefaults.minHeight
       ∧ (nodeDefaults.minWidth <= node_width n')%Q
       ∧ (nodeDefaults.minHeight <= node_height n')%Q
       ∧ (w <= node_width n')%Q ∧ (h <= node_height n')%Q
       ∧ (node_id n', node_x n', node_y n', node_title n',
          node_description n', node_collapsed n', node_titleColor n')
         = (node_id n, node_x n, node_y n, node_title n,
            node_description n, node_collapsed n, node_titleColor n))
  ∧ (∀ id', id' ≠ id →
       useNodes.resizeNode id w h nodes !! id' = nodes !! id')
  ∧ (nodes !! id = None → inherits id = false →
     useNodes.resizeNode id w h nodes = nodes)
  ∧ (nodes !! id = None → inherits id = true →
     is_Some (useNodes.resizeNode id w h nodes !! id)).
Proof.
  unfold useNodes.resizeNode. split; [|split; [|split]].
  - intros n Hn. eexists. rewrite updateNode_lookup, Hn. simpl.
    split; [reflexivity|]. simpl.
    repeat split;
      auto using Q.le_max_l, Q.le_max_r.
  - intros id' Hne. by apply updateNode_other.
  - apply updateNode_absent.
  - intros Hn Hk. rewrite updateNode_lookup, Hn, Hk. by eexists.
Qed.

(** X10 — [toggleCollapse] is an involution on the nodes of the map:
    toggling a node twice gives back the node map, and one toggle negates
    the flag.  On an absent id it does nothing, unless the id names a
    member of [Object.prototype]: then the first toggle stores an entry
    under it, and two toggles do not give back the map. *)
Theorem toggleCollapse_twice (nodes : NodeMap) (id : string) :
  (is_Some (nodes !! id) ∨ inherits id = false →
   useNodes.toggleCollapse id (useNodes.toggleCollapse id nodes) = nodes)
  ∧ (∀ n, nodes !! id = Some n →
       node_collapsed <$> useNodes.toggleCollapse id nodes !! id
       = Some (negb (node_collapsed n)))
  ∧ (nodes !! id = None → inherits id = false →
     useNodes.toggleCollapse id nodes = nodes)
  ∧ (nodes !! id = None → inherits id = true →
     is_Some (useNodes.toggleCollapse id nodes !! id)
     ∧ useNodes.toggleCollapse id (useNodes.toggleCollapse id nodes)
       ≠ nodes).
Proof.
  unfold useNodes.toggleCollapse, getMember.
  destruct (nodes !! id) as [n|] eqn:E.
  - rewrite lookup_insert_eq, insert_insert_eq.
    split; [|split; [|by split]].
    + intros _. apply insert_id. rewrite E. f_equal.
      destruct n. unfold useNodes.spread. simpl.
      by rewrite negb_involutive.
    + by intros n' [= <-].
  - destruct (inherits id) eqn:Hk.
    + rewrite lookup_insert_eq, insert_insert_eq.
      split; [by intros [[? [=]]|?]|]. split; [done|]. split; [done|].
      intros _ _. split; [by eexists|].
      intros Heq.
      assert (is_Some (nodes !! id)) as [? Hs];
        [|by rewrite E in Hs].
      rewrite <- Heq, lookup_insert_eq. by eexists.
    + rewrite E. by repeat split.
Qed.

(** X11 — [createNode] stores, under the id it drew, a node at the given
    position with the default size, title and an empty description, and
    leaves the others alone; [deleteNode] removes exactly that entry, so
    deleting a node just created under a fresh id gives back the map. *)
Theorem createNode_deleteNode (nodes : NodeMap) (id : string) (x y : Q) :
  let created := useNodes.createNode id x y nodes in
  created.2 !! id = Some created.1
  ∧ created.1
    = mkNode id x y nodeDefaults.width nodeDefaults.height "New Node" ""
        false None
  ∧ (∀ id', id' ≠ id → created.2 !! id' = nodes !! id')
  ∧ useNodes.deleteNode id created.2 !! id = None
  ∧ (∀ id', id' ≠ id →
       useNodes.deleteNode id nodes !! id' = nodes !! id')
  ∧ (nodes !! id = None → useNodes.deleteNode id created.2 = nodes).
Proof.
  simpl. unfold useNodes.deleteNode. repeat split.
  - apply lookup_insert_eq.
  - intros id' Hne. by rewrite lookup_insert_ne.
  - apply lookup_delete_eq.
  - intros id' Hne. by rewrite lookup_delete_ne.
  - intros Hfresh. by apply delete_insert_id.
Qed.

(** ** Edge store: rejection, pruning, well-formedness *)

Section edge_store_more.
Implicit Types (edges : EdgeMap) (e : Edge).


Lemma createEdge_wf id a b edges :
  edgesWellFormed edges →
  edgesWellFormed (useEdges.createEdge id a b edges).2.
Proof.
  intros [Hkey Hpair]. split; [|by apply createEdge_onePerPair].
  destruct (createEdge_cases id a b edges)
    as [[_ ->]|[(_ & _ & ->)|(Hab & _ & ->)]]; try done.
  simpl. intros k e. rewrite lookup_insert. case_decide.
  - intros [= <-]. simpl. by subst.
  - apply Hkey.
Qed.

Lemma deleteEdge_wf id edges :
  edgesWellFormed edges → edgesWellFormed (useEdges.deleteEdge id edges).
Proof.
  intros [Hkey Hpair]. unfold useEdges.deleteEdge. split.
  - intros k e [_ Hk]%lookup_delete_Some. by apply Hkey.
  - intros k1 k2 e1 e2 [_ H1]%lookup_delete_Some [_ H2]%lookup_delete_Some.
    by apply Hpair.
Qed.

Lemma prune_wf nodeId edges :
  edgesWellFormed edges →
  edgesWellFormed (useEdges.deleteEdgesForNode nodeId edges).
Proof.
  intros [Hkey Hpair]. split.
  - intros k e [Hk _]%deleteEdgesForNode_lookup. by apply Hkey.
  - intros k1 k2 e1 e2 [H1 _]%deleteEdgesForNode_lookup
      [H2 _]%deleteEdgesForNode_lookup.
    by apply Hpair.
Qed.

Lemma setLabel_lookup id label edges k e :
  inherits id = false →
  useEdges.updateEdge id (mkEdgeUpdates None None (Some label)) edges !! k
  = Some e →
  ∃ e0, edges !! k = Some e0
    ∧ edge_id e = edge_id e0 ∧ edge_from e = edge_from e0
    ∧ edge_to e = edge_to e0.
Proof.
  intros Hplain. unfold useEdges.updateEdge, getMember. rewrite Hplain.
  destruct (edges !! id) as [e1|] eqn:E; [|by eauto].
  rewrite lookup_insert. case_decide as Hk.
  - subst k. intros [= <-]. by exists e1.
  - by eauto.
Qed.

Lemma setLabel_wf id label edges :
  inherits id = false →
  edgesWellFormed edges →
  edgesWellFormed
    (useEdges.updateEdge id (mkEdgeUpdates None None (Some label)) edges).
Proof.
  intros Hplain [Hkey Hpair]. split.
  - intros k e (e0 & H0 & Hi & Hf & Ht)%setLabel_lookup; [|done].
    rewrite Hi, Hf, Ht. by apply Hkey.
  - intros k1 k2 e1 e2 H1 H2 Hj.
    apply setLabel_lookup in H1 as (a1 & H1 & _ & Hf1 & Ht1); [|done].
    apply setLabel_lookup in H2 as (a2 & H2 & _ & Hf2 & Ht2); [|done].
    apply (Hpair k1 k2 a1 a2 H1 H2).
    unfold joins in *. rewrite <- Hf1, <- Ht1, <- Hf2, <- Ht2. done.
Qed.

Lemma edgeOps_wf (ops : list EdgeOp) :
  Forall plainEdgeOp ops →
  edgesWellFormed (foldl applyEdgeOp ∅ ops).
Proof.
  induction ops as [|op ops IH] using rev_ind; intros Hplain.
  - split; [by intros k e ?|apply onePerPair_empty].
  - apply Forall_app in Hplain as [Hops Hop].
    apply Forall_inv in Hop. specialize (IH Hops).
    rewrite foldl_snoc. destruct op; cbn [applyEdgeOp];
      auto using createEdge_wf, deleteEdge_wf, prune_wf.
    by apply setLabel_wf.
Qed.

End edge_store_more.

(** X12 — whatever the first call did, [createEdge] on the reversed pair
    right after [createEdge(a, b)] returns [null] and changes nothing, and so
    does a repeated [createEdge(a, b)]. *)
Theorem createEdge_again_rejected (id1 id2 a b : string) (edges : EdgeMap) :
  let edges1 := (useEdges.createEdge id1 a b edges).2 in
  useEdges.createEdge id2 b a edges1 = (None, edges1)
  ∧ useEdges.createEdge id2 a b edges1 = (None, edges1).
Proof.
  intros edges1. subst edges1.
  destruct (createEdge_cases id1 a b edges)
    as [[-> ->]|[(_ & (k & e & Hk & Hj) & ->)|(_ & _ & ->)]]; simpl.
  - by rewrite createEdge_self.
  - split; eapply createEdge_duplicate; eauto using joins_sym.
  - split.
    + eapply (createEdge_duplicate _ _ _ _ id1); [apply lookup_insert_eq|].
      right. done.
    + eapply (createEdge_duplicate _ _ _ _ id1); [apply lookup_insert_eq|].
      left. done.
Qed.


(** X14 — the edge map stays well formed under the store operations the
    canvas performs: starting from the empty map, after any run of
    [createEdge], [deleteEdge], label updates and [deleteEdgesForNode] in
    which no label update names a member of [Object.prototype], each edge
    is stored under its own id, no edge joins a node to itself and no two
    edges join the same unordered pair.  (A label update under such a name
    passes the guard of [updateEdge] and stores an object that is no
    edge.) *)
Theorem edge_store_well_formed (ops : list EdgeOp) :
  Forall plainEdgeOp ops →
  let edges := foldl applyEdgeOp ∅ ops in
  (∀ k e, edges !! k = Some e → edge_id e = k ∧ edge_from e ≠ edge_to e)
  ∧ (∀ k1 k2 e1 e2,
       edges !! k1 = Some e1 → edges !! k2 = Some e2 → k1 ≠ k2 →
       ¬ ((edge_from e1 = edge_from e2 ∧ edge_to e1 = edge_to e2)
          ∨ (edge_from e1 = edge_to e2 ∧ edge_to e1 = edge_from e2))).
Proof.
  intros Hplain edges.
  destruct (edgeOps_wf ops Hplain) as [Hkey Hpair].
  fold edges in Hkey, Hpair.
  split; [done|].
  intros k1 k2 e1 e2 H1 H2 Hne Hsame. apply Hne.
  apply (Hpair k1 k2 e1 e2 H1 H2). unfold joins. intuition congruence.
Qed.

(** Two edges drawn, one labelled, one deleted, one node pruned. *)
Lemma edge_store_well_formed_sample :
  let ops :=
    [EdgeCreate "edge-1" "node-a" "node-b";
     EdgeCreate "edge-2" "node-b" "node-c";
     EdgeCreate "edge-3" "node-b" "node-a";
     EdgeSetLabel "edge-1" (Some "uses");
     EdgeSetLabel "edge-9" (Some "lost");
     EdgeDelete "edge-2";
     EdgeCreate "edge-4" "node-c" "node-a";
     EdgePrune "node-b"] in
  let edges := foldl applyEdgeOp ∅ ops in
  Forall plainEdgeOp ops
  ∧ size edges = 1%nat
  ∧ (∀ k e, edges !! k = Some e → edge_id e = k ∧ edge_from e ≠ edge_to e).
Proof.
  intros ops edges.
  assert (Forall plainEdgeOp ops) as Hplain
    by (repeat constructor).
  split; [exact Hplain|]. split; [by vm_compute|].
  exact (proj1 (edge_store_well_formed ops Hplain)).
Defined.

(** X15 — an edge that was deleted can be drawn again: in a well-formed
    edge map, once the edge stored under [k] is removed by [deleteEdge],
    [createEdge] between its two endpoints is accepted, in either
    direction. *)
Theorem reconnect_after_deleteEdge (edges : EdgeMap) (k id : string)
    (e : Edge) :
  edgesWellFormed edges → edges !! k = Some e →
  let rest := useEdges.deleteEdge k edges in
  useEdges.createEdge id (edge_from e) (edge_to e) rest
  = (Some (mkEdge id (edge_from e) (edge_to e) None),
     <[id := mkEdge id (edge_from e) (edge_to e) None]> rest)
  ∧ useEdges.createEdge id (edge_to e) (edge_from e) rest
    = (Some (mkEdge id (edge_to e) (edge_from e) None),
       <[id := mkEdge id (edge_to e) (edge_from e) None]> rest).
Proof.
  intros [Hkey Hpair] Hk rest.
  destruct (Hkey k e Hk) as [_ Hne].
  assert (∀ k' e', rest !! k' = Some e' →
            ¬ joins (edge_from e) (edge_to e) e') as Hfree.
  { intros k' e' Hk' Hj. unfold rest, useEdges.deleteEdge in Hk'.
    apply lookup_delete_Some in Hk' as [Hkk' Hk'].
    apply Hkk'. by apply (Hpair k k' e e' Hk Hk'). }
  split.
  - destruct (createEdge_cases id (edge_from e) (edge_to e) rest)
      as [[? _]|[(_ & (k' & e' & Hk' & Hj) & _)|(_ & _ & ->)]];
      [done| |done].
    exfalso. by eapply Hfree.
  - destruct (createEdge_cases id (edge_to e) (edge_from e) rest)
      as [[? _]|[(_ & (k' & e' & Hk' & Hj) & _)|(_ & _ & ->)]];
      [done| |done].
    exfalso. eapply Hfree; [exact Hk'|]. by apply joins_sym.
Qed.

(** The edge of the sample session, deleted and drawn again. *)
Lemma reconnect_after_deleteEdge_sample :
  let e := mkEdge "edge-1" "node-a" "node-b" None in
  let rest := useEdges.deleteEdge "edge-1" (edges connected) in
  useEdges.createEdge "edge-2" (edge_from e) (edge_to e) rest
  = (Some (mkEdge "edge-2" (edge_from e) (edge_to e) None),
     <["edge-2" := mkEdge "edge-2" (edge_from e) (edge_to e) None]> rest).
Proof.
  intros e rest.
  assert (edgesWellFormed (edges connected)) as Hwf.
  { assert (edges connected
            = foldl applyEdgeOp ∅ [EdgeCreate "edge-1" "node-a" "node-b"])
      as -> by (vm_compute; reflexivity).
    apply edgeOps_wf. repeat constructor. }
  assert (edges connected !! "edge-1" = Some e) as Hk
    by (vm_compute; reflexivity).
  exact (proj1 (reconnect_after_deleteEdge (edges connected) "edge-1"
                  "edge-2" e Hwf Hk)).
Defined.

(** ** History: single steps and the size of the two stacks *)

Section history_more.
Implicit Types (h : History) (g : Graph).

Lemma last_Some_snoc {A} (l : list A) x :
  last l = Some x → ∃ l', l = l' ++ [x].
Proof.
  intros H. destruct l as [|y l _] using rev_ind; [done|].
  rewrite last_snoc in H. injection H as ->. by exists l.
Qed.

Lemma undoStep_lengths h g :
  let s := (undoStep (h, g)).2 in
  (length (past s.1) + length (future s.1)
   = length (past h) + length (future h))%nat
  ∧ (isUndoing h = false → isUndoing s.1 = false).
Proof.
  unfold undoStep, useHistory.undo. simpl.
  destruct (last (past h)) as [x|] eqn:E; simpl; [|done].
  apply last_Some_snoc in E as [p ->].
  rewrite slice_init_snoc, !length_app. simpl. split; [lia|done].
Qed.

Lemma redoStep_lengths h g :
  let s := (redoStep (h, g)).2 in
  (length (past s.1) + length (future s.1)
   = length (past h) + length (future h))%nat
  ∧ (isUndoing h = false → isUndoing s.1 = false).
Proof.
  unfold redoStep, useHistory.redo. simpl.
  destruct (last (future h)) as [x|] eqn:E; simpl; [|done].
  apply last_Some_snoc in E as [p ->].
  rewrite slice_init_snoc, !length_app. simpl. split; [lia|done].
Qed.

End history_more.

(** X16 — one [undo] and one [redo] cancel each other on any history: when
    the past stack is not empty, [undo] returns [true] and a [redo] right
    after it returns [true] and restores both stacks and the graph; when the
    future stack is not empty, the same holds for [redo] followed by
    [undo]. *)
Theorem undo_redo_cancel (p f : list Graph) (g : Graph) :
  (p ≠ [] →
   let u := undoStep (mkHistory p f false, g) in
   u.1 = true ∧ redoStep u.2 = (true, (mkHistory p f false, g)))
  ∧ (f ≠ [] →
     let r := redoStep (mkHistory p f false, g) in
     r.1 = true ∧ undoStep r.2 = (true, (mkHistory p f false, g))).
Proof.
  split.
  - intros Hp. destruct p as [|x p _] using rev_ind; [done|].
    rewrite undoStep_snoc. simpl. split; [done|]. by rewrite redoStep_snoc.
  - intros Hf. destruct f as [|x f _] using rev_ind; [done|].
    rewrite redoStep_snoc. simpl. split; [done|]. by rewrite undoStep_snoc.
Qed.

(** X17 — the two stacks together never hold more than the bound: for a
    positive [maxSize], after any run of [pushState], [undo], [redo] and
    [clearHistory] from the empty history, the number of past entries plus
    the number of future entries is at most [maxSize]; in particular [redo]
    cannot grow the past stack beyond it. *)
Theorem history_stacks_bounded (maxSize : Z) (ops : list HistoryOp)
    (g0 : Graph) :
  (1 ≤ maxSize)%Z →
  let s := foldl (applyHistoryOp maxSize) (useHistory.initial, g0) ops in
  (Z.of_nat (length (past s.1) + length (future s.1)) ≤ maxSize)%Z
  ∧ (Z.of_nat (length (past s.1)) ≤ maxSize)%Z.
Proof.
  intros Hmax s.
  assert ((Z.of_nat (length (past s.1) + length (future s.1)) ≤ maxSize)%Z
          ∧ isUndoing s.1 = false) as [Hsum _]; [|split; [done|lia]].
  subst s. induction ops as [|op ops IH] using rev_ind.
  - simpl. split; [lia|done].
  - rewrite foldl_snoc.
    destruct (foldl (applyHistoryOp maxSize) (useHistory.initial, g0) ops)
      as [h g]. simpl in IH. destruct IH as [IH Hu].
    destruct op as [g'| | |]; simpl.
    + destruct h as [p f u]. simpl in *. subst u.
      split; [|done].
      pose proof (pushState_length maxSize (hs_nodes g) (hs_edges g) p f Hmax).
      rewrite pushState_future. cbn [length]. by rewrite Nat.add_0_r.
    + destruct (undoStep_lengths h g) as [Hl Hk]. simpl in Hl, Hk.
      rewrite Hl. split; [done|by apply Hk].
    + destruct (redoStep_lengths h g) as [Hl Hk]. simpl in Hl, Hk.
      rewrite Hl. split; [done|by apply Hk].
    + split; [lia|done].
Qed.

(** A push, two undos, a redo and a push under the default bound. *)
Lemma history_stacks_bounded_default :
  let s :=
    foldl (applyHistoryOp useHistory.DEFAULT_MAX_SIZE)
      (useHistory.initial, sampleGraph)
      [OpPush (moveTo 1 sampleGraph); OpUndo; OpUndo; OpRedo;
       OpPush (moveTo 2 sampleGraph)] in
  (Z.of_nat (length (past s.1) + length (future s.1))
   ≤ useHistory.DEFAULT_MAX_SIZE)%Z
  ∧ (Z.of_nat (length (past s.1)) ≤ useHistory.DEFAULT_MAX_SIZE)%Z.
Proof.
  apply history_stacks_bounded. vm_compute. discriminate.
Defined.

(** ** Interaction controller: selection, history entries, undo *)

Section controller_more.
Implicit Types (st : CanvasState) (g : Gesture).

(** A projection that every turn of a loop keeps is kept by the loop. *)
Lemma foldl_keeps {A B C} (proj : A → C) (f : A → B → A) (l : list B) :
  (∀ a b, proj (f a b) = proj a) → ∀ a, proj (foldl f a l) = proj a.
Proof.
  intros Hf. induction l as [|b l IH]; intros a; [done|].
  simpl. by rewrite IH, Hf.
Qed.

Lemma dragMove_keeps nodeId x y st :
  graphAndHistory (Canvas.handleNodeDragMove nodeId x y st)
  = graphAndHistory st
  ∧ selection (Canvas.handleNodeDragMove nodeId x y st) = selection st.
Proof.
  unfold Canvas.handleNodeDragMove.
  destruct (nodes st !! nodeId) as [node|]; [|done].
  set (starts := match dragStartPositions st !! nodeId with
                 | Some _ => _ | None => _ end).
  destruct (Canvas.isMultiDrag nodeId st); [|done].
  destruct (starts !! nodeId) as [startPos|]; [|done].
  unfold Canvas.forEachSelected. split.
  - rewrite (foldl_keeps graphAndHistory); [done|].
    intros a b. destruct (String.eqb b nodeId); [done|].
    by destruct (starts !! b).
  - rewrite (foldl_keeps selection); [done|].
    intros a b. destruct (String.eqb b nodeId); [done|].
    by destruct (starts !! b).
Qed.

Lemma dragEnd_keeps nodeId x y st :
  edges (Canvas.handleNodeDragEnd nodeId x y st) = edges st
  ∧ selection (Canvas.handleNodeDragEnd nodeId x y st) = selection st
  ∧ history (Canvas.handleNodeDragEnd nodeId x y st)
    = match nodes st !! nodeId, dragStartPositions st !! nodeId with
      | Some _, Some _ =>
          useHistory.pushState useHistory.DEFAULT_MAX_SIZE (nodes st)
            (edges st) (history st)
      | _, _ => history st
      end.
Proof.
  unfold Canvas.handleNodeDragEnd.
  destruct (nodes st !! nodeId) as [node|]; [|done].
  destruct (dragStartPositions st !! nodeId) as [startPos|]; [|done].
  destruct (Canvas.isMultiDrag nodeId st); [|done].
  match goal with
  | |- context [Canvas.markDirty (Canvas.forEachSelected st ?f ?s0)] =>
      set (loop := Canvas.forEachSelected st f s0);
      assert (edges loop = edges s0 ∧ selection loop = selection s0
              ∧ history loop = history s0) as (He & Hs & Hh)
  end.
  { unfold loop, Canvas.forEachSelected. repeat split.
    - rewrite (foldl_keeps edges); [done|].
      intros a b. destruct (String.eqb b nodeId); [done|].
      by destruct (dragStartPositions a !! b).
    - rewrite (foldl_keeps selection); [done|].
      intros a b. destruct (String.eqb b nodeId); [done|].
      by destruct (dragStartPositions a !! b).
    - rewrite (foldl_keeps history); [done|].
      intros a b. destruct (String.eqb b nodeId); [done|].
      by destruct (dragStartPositions a !! b). }
  change (edges (Canvas.markDirty loop)) with (edges loop).
  change (selection (Canvas.markDirty loop)) with (selection loop).
  change (history (Canvas.markDirty loop)) with (history loop).
  rewrite He, Hs, Hh. done.
Qed.




Lemma handleUndo_selection st :
  selection (Canvas.handleUndo st) = selection st.
Proof.
  unfold Canvas.handleUndo, useHistory.undo.
  by destruct (last (past (history st))).
Qed.

Lemma handleRedo_selection st :
  selection (Canvas.handleRedo st) = selection st.
Proof.
  unfold Canvas.handleRedo, useHistory.redo.
  by destruct (last (future (history st))).
Qed.

Lemma selection_exclusive_eq st st' :
  selection st' = selection st → selectionExclusive st →
  selectionExclusive st'.
Proof.
  unfold selection, selectionExclusive. intros [= -> ->]. done.
Qed.

Lemma applyGesture_exclusive g st :
  selectionExclusive st → selectionExclusive (applyGesture g st).
Proof.
  intros Hex. destruct g; simpl.
  - unfold Canvas.createNodeAtPointer.
    destruct pointer as [[px py]|]; [by left|done].
  - unfold Canvas.handleKeyDown. destruct key; try done.
    1,2: destruct (editing st); [done|].
    1,2: destruct (truthy (selectedEdgeId st)); [by left|].
    1,2: destruct (0 <? size (selectedNodeIds st))%nat; [by right|done].
    by left.
  - unfold Canvas.handleNodeClick. destruct isCtrlClick; by left.
  - by right.
  - unfold Canvas.handleStageClick. destruct targetIsStage; [by left|done].
  - done.
  - done.
  - unfold Canvas.handleSaveEdit. destruct (editing st); [|done].
    eapply selection_exclusive_eq; [|exact Hex].
    destruct (ed_field ed); simpl.
    + by destruct (truthy (ed_nodeId ed)).
    + by destruct (truthy (ed_nodeId ed)).
    + by destruct (truthy (ed_edgeId ed)).
  - unfold Canvas.handleConnectionStart.
    by destruct (nodes st !! nodeId).
  - unfold Canvas.handleConnectionMove.
    by destruct (connectionDrag st).
  - unfold Canvas.handleConnectionEnd.
    destruct (connectionDrag st) as [drag|]; [|done].
    by destruct (truthy (snappedNodeId drag)).
  - eapply selection_exclusive_eq; [apply dragMove_keeps|done].
  - eapply selection_exclusive_eq; [apply dragEnd_keeps|done].
  - done.
  - done.
  - unfold Canvas.handleToggleTitleColor.
    by destruct (nodes st !! nodeId).
Qed.

End controller_more.

(** X18 — at most one kind of thing is selected: from a state in which
    either no edge or no node is selected, after any run of gestures and
    undo/redo shortcuts either no edge or no node is selected. *)
Theorem selection_stays_exclusive (events : list CanvasEvent)
    (st : CanvasState) :
  selectionExclusive st → selectionExclusive (runEvents events st).
Proof.
  unfold runEvents. revert st.
  induction events as [|e events IH]; intros st Hex; [done|].
  simpl. apply IH. destruct e; simpl.
  - by apply applyGesture_exclusive.
  - eapply selection_exclusive_eq; [apply handleUndo_selection|done].
  - eapply selection_exclusive_eq; [apply handleRedo_selection|done].
Qed.

(** Two nodes created, one clicked, an edge clicked, an undo and the
    [Delete] key, from the initial state. *)
Lemma selection_stays_exclusive_sample :
  selectionExclusive
    (runEvents
       [Do (GCreateNode "node-a" (Some (0, 0)));
        Do (GCreateNode "node-b" (Some (300, 0)));
        Do (GNodeClick "node-a" true); Do (GEdgeClick "edge-1");
        UndoKey; Do (GKey KeyDelete)]
       Canvas.initial).
Proof. apply selection_stays_exclusive. by left. Defined.




(** X21 — the title colour cycles through the palette of five: from a
    colour of the palette the next colour is a different colour of the
    palette and five steps come back to it; a node without a title colour
    (or with the empty string for one) moves to the second colour (blue),
    and one with any other colour outside the palette moves to the first. *)
Theorem title_color_cycle :
  (∀ c, c ∈ Canvas.TITLE_COLORS →
     Canvas.nextTitleColor (Some c) ∈ Canvas.TITLE_COLORS
     ∧ Canvas.nextTitleColor (Some c) ≠ c
     ∧ Nat.iter 5 (λ c, Canvas.nextTitleColor (Some c)) c = c)
  ∧ Canvas.nextTitleColor None = colors.blue
  ∧ Canvas.nextTitleColor (Some "") = colors.blue
  ∧ (∀ c, c ∉ Canvas.TITLE_COLORS → c ≠ "" →
       Canvas.nextTitleColor (Some c) = colors.text).
Proof.
  split; [|split].
  - intros c Hc. unfold Canvas.TITLE_COLORS in Hc.
    repeat (apply elem_of_cons in Hc as [->|Hc]);
      [..|by apply elem_of_nil in Hc];
      (split; [|split]);
      try (vm_compute; reflexivity); try (vm_compute; discriminate);
      vm_compute; set_solver.
  - reflexivity.
  - split; [reflexivity|].
    intros c Hc Hne. unfold Canvas.nextTitleColor.
    assert (∀ l, c ∉ l → Canvas.indexOf c l = None) as Hidx.
    { induction l as [|x l IH]; [done|]. intros Hn. simpl.
      destruct (String.eqb x c) eqn:E.
      - apply String.eqb_eq in E. subst. exfalso. apply Hn. by left.
      - rewrite IH; [done|]. intros ?. apply Hn. by right. }
    destruct (truthy (Some c)) eqn:Ht.
    + change (default "" (Some c)) with c. by rewrite (Hidx _ Hc).
    + simpl in Ht. apply negb_false_iff, String.eqb_eq in Ht. done.
Qed.

(** X9 — the size committed at the end of a resize drag is the size the
    preview showed: the clamp of [resizeNode] leaves the clamped preview
    size as it is, so the stored width and height are those of
    [handleResizeDragMove], never below the minimum; a drag that never
    moved commits nothing. *)
Theorem resize_commits_preview (nodeId : string) (hx hy : Q)
    (st : CanvasState) :
  let size := NodeView.handleResizeDragMove hx hy in
  let st' := NodeView.handleResizeDragEnd nodeId (Some size) st in
  (∀ n, nodes st !! nodeId = Some n →
     ∃ n', nodes st' !! nodeId = Some n'
       ∧ node_width n' = size.1 ∧ node_height n' = size.2
       ∧ (nodeDefaults.minWidth <= node_width n')%Q
       ∧ (nodeDefaults.minHeight <= node_height n')%Q)
  ∧ NodeView.handleResizeDragEnd nodeId None st = st.
Proof.
  intros size st'. split; [|done].
  intros n Hn. subst st'. simpl.
  unfold useNodes.resizeNode. rewrite updateNode_lookup, Hn. simpl.
  assert (∀ a m : Q, Qmax (Qmax a m) m = Qmax a m) as Hidem.
  { intros a m. unfold Qmax, GenericMinMax.gmax.
    destruct (a ?= m)%Q eqn:E; rewrite ?E; try done.
    assert ((m ?= m)%Q = Eq) as -> by (by apply Qeq_alt). done. }
  eexists. split; [reflexivity|]. simpl.
  rewrite !Hidem. repeat split; apply Q.le_max_r.
Qed.

(** ** Copy and paste *)

Section paste.
Implicit Types (st : CanvasState) (clip : Clipboard) (m : NodeMap).

Lemma pasteOne_lookup ox oy newId c m id :
  Canvas.pasteOne ox oy newId c m !! id
  = if decide (id = newId) then Some (pastedNode ox oy newId c)
    else m !! id.
Proof.
  unfold Canvas.pasteOne. simpl. case_decide as Hid.
  - subst id. by rewrite updateNode_lookup, lookup_insert_eq.
  - rewrite updateNode_other by done. by rewrite lookup_insert_ne.
Qed.

(** The loop keeps everything but the nodes, and lists the ids it drew. *)
Lemma pasteLoopBy_frame one genId (ics : list (nat * Node)) :
  ∀ acc,
    let r := foldl (pasteStepBy one genId) acc ics in
    r.2 = acc.2 ++ (genId ∘ fst <$> ics)
    ∧ (edges r.1, history r.1, camera r.1, editing r.1)
      = (edges acc.1, history acc.1, camera acc.1, editing acc.1).
Proof.
  induction ics as [|ic ics IH]; intros acc; simpl.
  - by rewrite app_nil_r.
  - destruct (IH (pasteStepBy one genId acc ic)) as [H1 H2].
    rewrite H1, H2. simpl. by rewrite <- app_assoc.
Qed.

(** With pairwise distinct ids, each copied node is found under its id and
    every other entry is as before. *)
Lemma pasteLoopBy_nodes one (node : string → Node → Node) genId
    (ics : list (nat * Node)) :
  (∀ newId c m id,
     one newId c m !! id
     = if decide (id = newId) then Some (node newId c) else m !! id) →
  ∀ acc,
    NoDup (genId ∘ fst <$> ics) →
    let r := foldl (pasteStepBy one genId) acc ics in
    (∀ i c, (i, c) ∈ ics → nodes r.1 !! genId i = Some (node (genId i) c))
    ∧ (∀ id, id ∉ (genId ∘ fst <$> ics) →
         nodes r.1 !! id = nodes acc.1 !! id).
Proof.
  intros Hone.
  induction ics as [|[i0 c0] ics IH]; intros acc Hnd; simpl.
  - split; [by intros i c ?%elem_of_nil|done].
  - apply NoDup_cons in Hnd as [Hfresh Hnd]. simpl in Hfresh.
    destruct (IH (pasteStepBy one genId acc (i0, c0)) Hnd) as [Hin Hout].
    split.
    + intros i c [[= -> ->]|Hic]%elem_of_cons; [|by apply Hin].
      rewrite Hout by done. simpl. rewrite Hone.
      by case_decide.
    + intros id Hid. apply not_elem_of_cons in Hid as [Hne Hid].
      rewrite Hout by done. simpl. rewrite Hone.
      by case_decide.
Qed.

Lemma pasteLoop_frame genId ox oy (ics : list (nat * Node)) :
  ∀ acc,
    let r := foldl (pasteStep genId ox oy) acc ics in
    r.2 = acc.2 ++ (genId ∘ fst <$> ics)
    ∧ (edges r.1, history r.1, camera r.1, editing r.1)
      = (edges acc.1, history acc.1, camera acc.1, editing acc.1).
Proof. apply (pasteLoopBy_frame (Canvas.pasteOne ox oy)). Qed.

Lemma pasteLoop_nodes genId ox oy (ics : list (nat * Node)) :
  ∀ acc,
    NoDup (genId ∘ fst <$> ics) →
    let r := foldl (pasteStep genId ox oy) acc ics in
    (∀ i c, (i, c) ∈ ics →
       nodes r.1 !! genId i = Some (pastedNode ox oy (genId i) c))
    ∧ (∀ id, id ∉ (genId ∘ fst <$> ics) →
         nodes r.1 !! id = nodes acc.1 !! id).
Proof.
  apply (pasteLoopBy_nodes (Canvas.pasteOne ox oy) (pastedNode ox oy)).
  intros. apply pasteOne_lookup.
Qed.

Lemma imap_pair_fst {A} (genId : nat → string) (l : list A) :
  genId ∘ fst <$> imap pair l = genId <$> seq 0 (length l).
Proof.
  rewrite fmap_imap. by rewrite <- imap_seq_0.
Qed.

Lemma elem_of_imap_pair {A} (l : list A) i x :
  (i, x) ∈ imap pair l ↔ l !! i = Some x.
Proof.
  rewrite elem_of_lookup_imap. split.
  - intros (j & y & [= -> ->] & H). done.
  - intros H. by exists i, x.
Qed.

(** What a paste that goes through produces. *)
Lemma handlePaste_spec genId pointer dimensions st clip :
  copiedNodes clip ≠ [] → editing st = false →
  NoDup (pasteIds genId (length (copiedNodes clip))) →
  let target := pasteTarget pointer dimensions (camera st) in
  let ox := (target.1 - (pasteOffset clip).1)%Q in
  let oy := (target.2 - (pasteOffset clip).2)%Q in
  let r := Canvas.handlePaste genId (Some pointer) dimensions st clip in
  (∀ i c, copiedNodes clip !! i = Some c →
     nodes r.1 !! genId i = Some (pastedNode ox oy (genId i) c))
  ∧ (∀ id, id ∉ pasteIds genId (length (copiedNodes clip)) →
       nodes r.1 !! id = nodes st !! id)
  ∧ edges r.1 = edges st
  ∧ camera r.1 = camera st ∧ editing r.1 = false
  ∧ selectedNodeIds r.1
    = list_to_set (pasteIds genId (length (copiedNodes clip)))
  ∧ selectedEdgeId r.1 = None
  ∧ history r.1
    = useHistory.pushState useHistory.DEFAULT_MAX_SIZE (nodes st) (edges st)
        (history st)
  ∧ r.2 = mkClipboard (copiedNodes clip)
            ((pasteOffset clip).1 + 20, (pasteOffset clip).2 + 20)%Q.
Proof.
  intros Hne Hed Hnd target ox oy r. subst r.
  unfold Canvas.handlePaste.
  destruct (copiedNodes clip) as [|c0 cs] eqn:Ecopied; [done|].
  rewrite Hed. rewrite <- Ecopied in *. clear Ecopied c0 cs.
  fold (pasteTarget pointer dimensions (camera st)). fold target ox oy.
  match goal with
  | |- context [foldl ?f (Canvas.saveStateForUndo st st, []) ?l] =>
      assert (∀ ics acc, foldl f acc ics
                         = foldl (pasteStep genId ox oy) acc ics) as Hloop;
      [|rewrite Hloop; clear Hloop]
  end.
  { induction ics as [|[i c] ics IH]; intros [acc ids]; [done|].
    simpl. by rewrite IH. }
  pose proof (imap_pair_fst genId (copiedNodes clip)) as Hids.
  fold (pasteIds genId (length (copiedNodes clip))) in Hids.
  destruct (pasteLoop_frame genId ox oy (imap pair (copiedNodes clip))
              (Canvas.saveStateForUndo st st, [])) as [Hl Hf].
  destruct (pasteLoop_nodes genId ox oy (imap pair (copiedNodes clip))
              (Canvas.saveStateForUndo st st, [])) as [Hin Hout];
    [by rewrite Hids|].
  destruct (foldl (pasteStep genId ox oy) _ _) as [st2 newNodeIds].
  simpl in Hl, Hf, Hin, Hout. rewrite Hids in Hl, Hout. subst newNodeIds.
  injection Hf as He Hh Hc Hedit.
  assert ((0 <? length (pasteIds genId (length (copiedNodes clip))))%nat
          = true) as ->.
  { unfold pasteIds. rewrite length_fmap, length_seq.
    destruct (copiedNodes clip); [done|]. done. }
  simpl. repeat split; try done; [|congruence].
  intros i c Hic. apply Hin. by apply elem_of_imap_pair.
Qed.

Lemma sum_acc (f : Node → Q) (l : list Node) : ∀ a,
  (foldl (λ sum node, sum + f node) a l
   == a + foldl (λ sum node, sum + f node) 0 l)%Q.
Proof.
  induction l as [|c l IH]; intros a; simpl; [ring|].
  rewrite (IH (a + f c)%Q), (IH (0 + f c)%Q). ring.
Qed.

Lemma sum_shift (f : Node → Q) (d : Q) (g : Node → Node) (l : list Node) :
  (∀ c, f (g c) = (f c + d)%Q) →
  (foldl (λ sum node, sum + f node) 0 (g <$> l)
   == foldl (λ sum node, sum + f node) 0 l
      + inject_Z (Z.of_nat (length l)) * d)%Q.
Proof.
  intros Hg. induction l as [|c l IH].
  - simpl. ring.
  - cbn [fmap list_fmap foldl length].
    rewrite (sum_acc f (g <$> l)), (sum_acc f l (0 + f c)%Q).
    change (list_fmap Node Node g l) with (g <$> l).
    rewrite IH, Hg.
    rewrite Nat2Z.inj_succ, <- Z.add_1_r, inject_Z_plus. ring.
Qed.

(** The average of the shifted values is the shifted average. *)
Lemma average_shift (f : Node → Q) (d : Q) (g : Node → Node)
    (l : list Node) :
  l ≠ [] → (∀ c, f (g c) = (f c + d)%Q) →
  (Canvas.average f (g <$> l) == Canvas.average f l + d)%Q.
Proof.
  intros Hne Hg. unfold Canvas.average.
  rewrite length_fmap, sum_shift by done.
  assert (¬ inject_Z (Z.of_nat (length l)) == 0)%Q as Hn.
  { destruct l; [done|]. simpl length. rewrite Nat2Z.inj_succ.
    unfold Qeq. simpl. lia. }
  field. done.
Qed.

Lemma sum_shift2 (f : Node → Q) (d : Q) (l l' : list Node) :
  Forall2 (λ c c', f c' = (f c + d)%Q) l l' →
  (foldl (λ sum node, sum + f node) 0 l'
   == foldl (λ sum node, sum + f node) 0 l
      + inject_Z (Z.of_nat (length l)) * d)%Q.
Proof.
  induction 1 as [|c c' l l' Hc _ IH].
  - simpl. ring.
  - cbn [foldl length].
    rewrite (sum_acc f l'), (sum_acc f l (0 + f c)%Q), IH, Hc.
    rewrite Nat2Z.inj_succ, <- Z.add_1_r, inject_Z_plus. ring.
Qed.

Lemma average_shift2 (f : Node → Q) (d : Q) (l l' : list Node) :
  l ≠ [] → Forall2 (λ c c', f c' = (f c + d)%Q) l l' →
  (Canvas.average f l' == Canvas.average f l + d)%Q.
Proof.
  intros Hne HF. unfold Canvas.average.
  rewrite <- (Forall2_length _ _ _ HF), sum_shift2 by done.
  assert (¬ inject_Z (Z.of_nat (length l)) == 0)%Q as Hn.
  { destruct l; [done|]. simpl length. rewrite Nat2Z.inj_succ.
    unfold Qeq. simpl. lia. }
  field. done.
Qed.

(** Reading the pasted nodes back under the ids drawn. *)
Lemma pasted_read_back genId ox oy (m : NodeMap) (l : list Node) : ∀ k,
  (∀ i c, l !! i = Some c →
     m !! genId (k + i)%nat = Some (pastedNode ox oy (genId (k + i)%nat) c)) →
  Forall2 (λ c c', c' = pastedNode ox oy (node_id c') c) l
    (omap (λ id, m !! id) (genId <$> seq k (length l))).
Proof.
  induction l as [|c l IH]; intros k Hl; [constructor|].
  cbn [length seq fmap list_fmap omap list_omap].
  pose proof (Hl 0%nat c eq_refl) as H0. rewrite Nat.add_0_r in H0.
  rewrite H0. constructor; [done|].
  apply IH. intros i c' Hi.
  replace (S k + i)%nat with (k + S i)%nat by lia. by apply Hl.
Qed.

Lemma handleCopy_spec st0 clip0 :
  Canvas.nodesToCopy st0 ≠ [] →
  Canvas.handleCopy st0 clip0
  = mkClipboard (Canvas.nodesToCopy st0)
      (Canvas.average node_x (Canvas.nodesToCopy st0),
       Canvas.average node_y (Canvas.nodesToCopy st0)).
Proof.
  intros Hne. unfold Canvas.handleCopy.
  destruct (size (selectedNodeIds st0) =? 0)%nat eqn:E.
  - exfalso. apply Hne. apply Nat.eqb_eq, size_empty_inv in E.
    unfold Canvas.nodesToCopy.
    assert (elements (selectedNodeIds st0) = []) as ->; [|done].
    apply elements_empty_iff. done.
  - by destruct (Canvas.nodesToCopy st0).
Qed.

(** *** Copy and paste in the arithmetic [A] *)

Lemma pasteOneIn_lookup (A : Arith) ox oy newId c m id :
  Doubles.pasteOne A ox oy newId c m !! id
  = if decide (id = newId)
    then Some (pastedAt (n_add A (node_x c) ox) (n_add A (node_y c) oy)
                 newId c)
    else m !! id.
Proof.
  unfold Doubles.pasteOne. simpl. case_decide as Hid.
  - subst id. by rewrite updateNode_lookup, lookup_insert_eq.
  - rewrite updateNode_other by done. by rewrite lookup_insert_ne.
Qed.

Lemma handlePasteIn_spec (A : Arith) genId pointer dimensions st clip :
  copiedNodes clip ≠ [] → editing st = false →
  NoDup (pasteIds genId (length (copiedNodes clip))) →
  let target := pasteTargetIn A pointer dimensions (camera st) in
  let ox := n_sub A target.1 (pasteOffset clip).1 in
  let oy := n_sub A target.2 (pasteOffset clip).2 in
  let r := Doubles.handlePaste A genId (Some pointer) dimensions st clip in
  (∀ i c, copiedNodes clip !! i = Some c →
     nodes r.1 !! genId i
     = Some (pastedAt (n_add A (node_x c) ox) (n_add A (node_y c) oy)
               (genId i) c))
  ∧ (∀ id, id ∉ pasteIds genId (length (copiedNodes clip)) →
       nodes r.1 !! id = nodes st !! id)
  ∧ edges r.1 = edges st
  ∧ camera r.1 = camera st ∧ editing r.1 = false
  ∧ selectedNodeIds r.1
    = list_to_set (pasteIds genId (length (copiedNodes clip)))
  ∧ selectedEdgeId r.1 = None
  ∧ history r.1
    = useHistory.pushState useHistory.DEFAULT_MAX_SIZE (nodes st) (edges st)
        (history st)
  ∧ r.2 = mkClipboard (copiedNodes clip)
            (n_add A (pasteOffset clip).1 20,
             n_add A (pasteOffset clip).2 20).
Proof.
  intros Hne Hed Hnd target ox oy r. subst r.
  unfold Doubles.handlePaste.
  destruct (copiedNodes clip) as [|c0 cs] eqn:Ecopied; [done|].
  rewrite Hed. rewrite <- Ecopied in *. clear Ecopied c0 cs.
  fold (pasteTargetIn A pointer dimensions (camera st)). fold target ox oy.
  match goal with
  | |- context [foldl ?f (Canvas.saveStateForUndo st st, []) ?l] =>
      assert (∀ ics acc,
                foldl f acc ics
                = foldl (pasteStepBy (Doubles.pasteOne A ox oy) genId)
                    acc ics) as Hloop;
      [|rewrite Hloop; clear Hloop]
  end.
  { induction ics as [|[i c] ics IH]; intros [acc ids]; [done|].
    simpl. by rewrite IH. }
  pose proof (imap_pair_fst genId (copiedNodes clip)) as Hids.
  fold (pasteIds genId (length (copiedNodes clip))) in Hids.
  destruct (pasteLoopBy_frame (Doubles.pasteOne A ox oy) genId
              (imap pair (copiedNodes clip))
              (Canvas.saveStateForUndo st st, [])) as [Hl Hf].
  destruct (pasteLoopBy_nodes (Doubles.pasteOne A ox oy)
              (λ newId c,
                 pastedAt (n_add A (node_x c) ox) (n_add A (node_y c) oy)
                   newId c)
              genId (imap pair (copiedNodes clip))
              (pasteOneIn_lookup A ox oy)
              (Canvas.saveStateForUndo st st, [])) as [Hin Hout];
    [by rewrite Hids|].
  destruct (foldl (pasteStepBy (Doubles.pasteOne A ox oy) genId) _ _)
    as [st2 newNodeIds].
  simpl in Hl, Hf, Hin, Hout. rewrite Hids in Hl, Hout. subst newNodeIds.
  injection Hf as He Hh Hc Hedit.
  assert ((0 <? length (pasteIds genId (length (copiedNodes clip))))%nat
          = true) as ->.
  { unfold pasteIds. rewrite length_fmap, length_seq.
    destruct (copiedNodes clip); [done|]. done. }
  simpl. repeat split; try done; [|congruence].
  intros i c Hic. apply Hin. by apply elem_of_imap_pair.
Qed.

Lemma handleCopyIn_spec (A : Arith) st0 clip0 :
  Canvas.nodesToCopy st0 ≠ [] →
  Doubles.handleCopy A st0 clip0
  = mkClipboard (Canvas.nodesToCopy st0)
      (Doubles.average A node_x (Canvas.nodesToCopy st0),
       Doubles.average A node_y (Canvas.nodesToCopy st0)).
Proof.
  intros Hne. unfold Doubles.handleCopy.
  destruct (size (selectedNodeIds st0) =? 0)%nat eqn:E.
  - exfalso. apply Hne. apply Nat.eqb_eq, size_empty_inv in E.
    unfold Canvas.nodesToCopy.
    assert (elements (selectedNodeIds st0) = []) as ->; [|done].
    apply elements_empty_iff. done.
  - by destruct (Canvas.nodesToCopy st0).
Qed.

Section bounds.
Local Open Scope Q_scope.

(** Two pastes of one coordinate: five rounded operations. *)
Lemma stagger_bound (u t po x a1 n1 p2 a2 n2 : Q) :
  0 <= u → u <= 1 # 8 →
  rounds u (t - po) a1 → rounds u (x + a1) n1 → rounds u (po + 20) p2 →
  rounds u (t - p2) a2 → rounds u (x + a2) n2 →
  Qabs (n2 - (n1 - 20)) <= 6 * u * (Qabs x + Qabs t + Qabs po + 20).
Proof.
  intros Hu0 Hu8 H1 H2 H3 H4 H5. unfold rounds in *.
  set (M := Qabs x + Qabs t + Qabs po + 20).
  destruct (Qabs_bounds x) as [Hx1 Hx2].
  destruct (Qabs_bounds t) as [Ht1 Ht2].
  destruct (Qabs_bounds po) as [Hp1 Hp2].
  pose proof (Qabs_nonneg x) as Hx0. pose proof (Qabs_nonneg t) as Ht0.
  pose proof (Qabs_nonneg po) as Hp0.
  assert (0 <= M) as HM by (unfold M; lra).
  assert (Qabs (t - po) <= 1 * M) as G1.
  { apply Qabs_le_sum; unfold M; lra. }
  destruct (error_step u _ _ 1 M Hu0 Hu8 HM ltac:(lra) H1 G1)
    as (A1 & B1 & C1 & D1).
  assert (Qabs (x + a1) <= (9 # 8) * M) as G2.
  { apply Qabs_le_sum; unfold M in *; lra. }
  destruct (error_step u _ _ (9 # 8) M Hu0 Hu8 HM ltac:(lra) H2 G2)
    as (A2 & B2 & C2 & D2).
  assert (Qabs (po + 20) <= 1 * M) as G3.
  { apply Qabs_le_sum; unfold M in *; lra. }
  destruct (error_step u _ _ 1 M Hu0 Hu8 HM ltac:(lra) H3 G3)
    as (A3 & B3 & C3 & D3).
  assert (Qabs (t - p2) <= (9 # 8) * M) as G4.
  { apply Qabs_le_sum; unfold M in *; lra. }
  destruct (error_step u _ _ (9 # 8) M Hu0 Hu8 HM ltac:(lra) H4 G4)
    as (A4 & B4 & C4 & D4).
  assert (Qabs (x + a2) <= (81 # 64) * M) as G5.
  { apply Qabs_le_sum; unfold M in *; lra. }
  destruct (error_step u _ _ (81 # 64) M Hu0 Hu8 HM ltac:(lra) H5 G5)
    as (A5 & B5 & C5 & D5).
  apply Qabs_le_sum; unfold M in *; lra.
Qed.

(** Copying one node and pasting it: four rounded operations. *)
Lemma single_bound (u t x s c a n : Q) :
  0 <= u → u <= 1 # 8 →
  rounds u (0 + x) s → rounds u (s / 1) c → rounds u (t - c) a →
  rounds u (x + a) n →
  Qabs (n - t) <= 5 * u * (Qabs x + Qabs t).
Proof.
  intros Hu0 Hu8 H1 H2 H3 H4. unfold rounds in *.
  assert (s / 1 == s) as Hs1 by field.
  rewrite Hs1 in H2. clear Hs1.
  set (M := Qabs x + Qabs t).
  destruct (Qabs_bounds x) as [Hx1 Hx2].
  destruct (Qabs_bounds t) as [Ht1 Ht2].
  pose proof (Qabs_nonneg x) as Hx0. pose proof (Qabs_nonneg t) as Ht0.
  assert (0 <= M) as HM by (unfold M; lra).
  assert (Qabs (0 + x) <= 1 * M) as G1.
  { apply Qabs_le_sum; unfold M; lra. }
  destruct (error_step u _ _ 1 M Hu0 Hu8 HM ltac:(lra) H1 G1)
    as (A1 & B1 & C1 & D1).
  assert (Qabs s <= (9 # 8) * M) as G2.
  { apply Qabs_le_sum; unfold M in *; lra. }
  destruct (error_step u _ _ (9 # 8) M Hu0 Hu8 HM ltac:(lra) H2 G2)
    as (A2 & B2 & C2 & D2).
  assert (Qabs (t - c) <= (81 # 64) * M) as G3.
  { apply Qabs_le_sum; unfold M in *; lra. }
  destruct (error_step u _ _ (81 # 64) M Hu0 Hu8 HM ltac:(lra) H3 G3)
    as (A3 & B3 & C3 & D3).
  assert (Qabs (x + a) <= (729 # 512) * M) as G4.
  { apply Qabs_le_sum; unfold M in *; lra. }
  destruct (error_step u _ _ (729 # 512) M Hu0 Hu8 HM ltac:(lra) H4 G4)
    as (A4 & B4 & C4 & D4).
  apply Qabs_le_sum; unfold M in *; lra.
Qed.

End bounds.

End paste.


(** X23 — a copy is pasted at the pointer.  When one node is copied and
    then pasted, the new node carries over its size, title, description,
    collapsed flag and title colour, and lies at the target (the canvas
    position of the pointer, or of the centre of the viewport) up to
    rounding: if each of the four operations that place a coordinate has a
    relative error of at most [u] ([u <= 1/8]; 2^-53 for doubles), the
    copy is within [5 u (|x| + |target|)] of the target, [x] being the
    coordinate of the copied node.  With exact operations, for any number
    of copied nodes, the average position of the pasted copies is the
    target. *)
Theorem paste_centres_on_target :
  (∀ (A : Arith) (u : Q) (genId : nat → string) (pointer : option (Q * Q))
     (dimensions : Q * Q) (st0 st : CanvasState) (clip0 : Clipboard)
     (c : Node),
     (0 <= u)%Q → (u <= 1 # 8)%Q →
     Canvas.nodesToCopy st0 = [c] → editing st = false →
     let clip := Doubles.handleCopy A st0 clip0 in
     let st' :=
       (Doubles.handlePaste A genId (Some pointer) dimensions st clip).1 in
     let target := pasteTargetIn A pointer dimensions (camera st) in
     ∃ n, nodes st' !! genId 0%nat = Some n
       ∧ (node_width n, node_height n, node_title n, node_description n,
          node_collapsed n, node_titleColor n)
         = (node_width c, node_height c, node_title c, node_description c,
            node_collapsed c, node_titleColor c)
       ∧ (singleRounds A u target.1 (node_x c) →
          (Qabs (node_x n - target.1)
           <= 5 * u * (Qabs (node_x c) + Qabs target.1))%Q)
       ∧ (singleRounds A u target.2 (node_y c) →
          (Qabs (node_y n - target.2)
           <= 5 * u * (Qabs (node_y c) + Qabs target.2))%Q))
  ∧ (∀ (genId : nat → string) (pointer : option (Q * Q))
       (dimensions : Q * Q) (st0 st : CanvasState) (clip0 : Clipboard),
       Canvas.nodesToCopy st0 ≠ [] → editing st = false →
       let clip := Canvas.handleCopy st0 clip0 in
       NoDup (pasteIds genId (length (copiedNodes clip))) →
       let st' :=
         (Canvas.handlePaste genId (Some pointer) dimensions st clip).1 in
       let pasted :=
         omap (λ id, nodes st' !! id)
           (pasteIds genId (length (copiedNodes clip))) in
       let target := pasteTarget pointer dimensions (camera st) in
       length pasted = length (Canvas.nodesToCopy st0)
       ∧ (Canvas.average node_x pasted == target.1)%Q
       ∧ (Canvas.average node_y pasted == target.2)%Q).
Proof.
  split.
  - intros A u genId pointer dimensions st0 st clip0 c Hu0 Hu8 Hc Hed
      clip st' target.
    assert (clip = mkClipboard [c]
                     (Doubles.average A node_x [c],
                      Doubles.average A node_y [c])) as Hclip.
    { unfold clip. rewrite handleCopyIn_spec, Hc; [done|by rewrite Hc]. }
    destruct (handlePasteIn_spec A genId pointer dimensions st clip)
      as (H1 & _); [by rewrite Hclip|done| |].
    { rewrite Hclip. simpl. apply NoDup_singleton. }
    fold target st' in H1. rewrite Hclip in H1. simpl in H1.
    specialize (H1 0%nat c eq_refl). eexists. split; [exact H1|].
    split; [done|]. unfold singleRounds, pastedAt, Doubles.average. simpl.
    split; intros (R1 & R2 & R3 & R4); by eapply single_bound.
  - intros genId pointer dimensions st0 st clip0 Hne Hed clip Hnd st'
      pasted target.
    assert (clip = mkClipboard (Canvas.nodesToCopy st0)
                     (Canvas.average node_x (Canvas.nodesToCopy st0),
                      Canvas.average node_y (Canvas.nodesToCopy st0)))
      as Hclip by by apply handleCopy_spec.
    assert (copiedNodes clip = Canvas.nodesToCopy st0) as Hcopied
      by by rewrite Hclip.
    destruct (handlePaste_spec genId pointer dimensions st clip)
      as (H1 & _); [by rewrite Hcopied|done|done|].
    fold st' target in H1. rewrite Hcopied in *.
    rewrite Hclip in H1. cbn [pasteOffset fst snd] in H1.
    pose proof (pasted_read_back genId _ _ (nodes st')
                  (Canvas.nodesToCopy st0) 0 H1) as HF.
    fold (pasteIds genId (length (Canvas.nodesToCopy st0))) in HF.
    assert (pasted
            = omap (λ id, nodes st' !! id)
                (pasteIds genId (length (Canvas.nodesToCopy st0)))) as Hp
      by (unfold pasted; by rewrite Hcopied).
    rewrite <- Hp in HF. clearbody pasted.
    split; [symmetry; by eapply Forall2_length|]. split.
    + rewrite (average_shift2 node_x
                 (target.1 - Canvas.average node_x (Canvas.nodesToCopy st0))
                 (Canvas.nodesToCopy st0) pasted); [ring|done|].
      eapply Forall2_impl; [exact HF|]. by intros ? ? ->.
    + rewrite (average_shift2 node_y
                 (target.2 - Canvas.average node_y (Canvas.nodesToCopy st0))
                 (Canvas.nodesToCopy st0) pasted); [ring|done|].
      eapply Forall2_impl; [exact HF|]. by intros ? ? ->.
Qed.

(** X24 — repeated pastes are staggered: pasting twice at the same target
    without copying again, each copy of the second paste lies 20 units to
    the left of and 20 units above the matching copy of the first, up to
    rounding.  If each of the five operations that place a coordinate in
    the two pastes has a relative error of at most [u] ([u <= 1/8]; 2^-53
    for doubles), the second copy is within
    [6 u (|x| + |target| + |pasteOffset| + 20)] of the first moved by 20,
    [x] being the coordinate of the copied node. *)
Theorem paste_twice_is_staggered (A : Arith) (u : Q)
    (genId1 genId2 : nat → string) (pointer : option (Q * Q))
    (dimensions : Q * Q) (st : CanvasState) (clip : Clipboard) :
  (0 <= u)%Q → (u <= 1 # 8)%Q →
  copiedNodes clip ≠ [] → editing st = false →
  NoDup (pasteIds genId1 (length (copiedNodes clip))) →
  NoDup (pasteIds genId2 (length (copiedNodes clip))) →
  let first :=
    Doubles.handlePaste A genId1 (Some pointer) dimensions st clip in
  let second :=
    Doubles.handlePaste A genId2 (Some pointer) dimensions first.1 first.2 in
  let target := pasteTargetIn A pointer dimensions (camera st) in
  ∀ i c, copiedNodes clip !! i = Some c →
    ∃ n1 n2, nodes first.1 !! genId1 i = Some n1
      ∧ nodes second.1 !! genId2 i = Some n2
      ∧ (staggerRounds A u target.1 (pasteOffset clip).1 (node_x c) →
         (Qabs (node_x n2 - (node_x n1 - 20))
          <= 6 * u * (Qabs (node_x c) + Qabs target.1
                      + Qabs (pasteOffset clip).1 + 20))%Q)
      ∧ (staggerRounds A u target.2 (pasteOffset clip).2 (node_y c) →
         (Qabs (node_y n2 - (node_y n1 - 20))
          <= 6 * u * (Qabs (node_y c) + Qabs target.2
                      + Qabs (pasteOffset clip).2 + 20))%Q).
Proof.
  intros Hu0 Hu8 Hne Hed Hnd1 Hnd2 first second target i c Hic.
  destruct (handlePasteIn_spec A genId1 pointer dimensions st clip Hne Hed
              Hnd1)
    as (H1 & _ & _ & Hcam & Hed1 & _ & _ & _ & Hclip).
  fold first target in H1, Hcam, Hed1, Hclip.
  assert (copiedNodes first.2 = copiedNodes clip) as Hcopied
    by by rewrite Hclip.
  destruct (handlePasteIn_spec A genId2 pointer dimensions first.1 first.2)
    as (H2 & _); [by rewrite Hcopied|done|by rewrite Hcopied|].
  fold second in H2. rewrite Hcopied in H2.
  eexists _, _. split; [by apply H1|]. split; [by apply H2|].
  rewrite Hcam, Hclip. fold target. unfold staggerRounds, pastedAt. simpl.
  split; intros (R1 & R2 & R3 & R4 & R5); by eapply stagger_bound.
Qed.


(** In double arithmetic: the second node of the sample session, at
    abscissa 300, copied and pasted with the pointer at (29, 29) under a
    camera zoomed to 1.1.  The target abscissa is 26.36363636363636, the
    copy lands at 26.363636363636374. *)
Lemma paste_centres_on_target_sample :
  let A := binary64.arith in
  let u := binary64.pow2 (-53) in
  let st0 := Canvas.handleNodeClick "node-b" false connected in
  let clip := Doubles.handleCopy A st0 Canvas.initialClipboard in
  let st' :=
    (Doubles.handlePaste A (sampleGenId "copy-") (Some (Some (29, 29)))
       (800, 600) (zoomed st0) clip).1 in
  let target := pasteTargetIn A (Some (29, 29)) (800, 600) (camera (zoomed st0)) in
  ∃ n, nodes st' !! "copy-0" = Some n
    ∧ ¬ (node_x n == target.1)%Q
    ∧ (Qabs (node_x n - target.1) <= 5 * u * (300 + Qabs target.1))%Q.
Proof.
  intros A u st0 clip st' target.
  destruct (Canvas.nodesToCopy st0) as [|c [|c' l]] eqn:E;
    [vm_compute in E; discriminate E| |vm_compute in E; discriminate E].
  destruct (proj1 paste_centres_on_target A u (sampleGenId "copy-")
              (Some (29, 29)) (800, 600) st0 (zoomed st0)
              Canvas.initialClipboard c)
    as (n & Hn & _ & Hx & _); [by vm_compute|by vm_compute|exact E|done|].
  vm_compute in E. injection E as <-.
  exists n. split; [exact Hn|].
  vm_compute in Hn. injection Hn as <-.
  split; [by vm_compute|].
  apply Hx. by vm_compute.
Defined.

(** In double arithmetic: the two nodes of the sample session pasted twice
    with the pointer at (29, 29) under a camera zoomed to 1.1.  The first
    copy of the first node lands at -123.63636363636364, the second at
    -143.63636363636363, which is not the first moved by exactly 20. *)
Lemma paste_twice_is_staggered_sample :
  let A := binary64.arith in
  let u := binary64.pow2 (-53) in
  let clip := Doubles.handleCopy A bothSelected Canvas.initialClipboard in
  let first :=
    Doubles.handlePaste A (sampleGenId "copy-") (Some (Some (29, 29)))
      (800, 600) (zoomed bothSelected) clip in
  let second :=
    Doubles.handlePaste A (sampleGenId "again-") (Some (Some (29, 29)))
      (800, 600) first.1 first.2 in
  let target :=
    pasteTargetIn A (Some (29, 29)) (800, 600)
      (camera (zoomed bothSelected)) in
  ∃ n1 n2, nodes first.1 !! "copy-0" = Some n1
    ∧ nodes second.1 !! "again-0" = Some n2
    ∧ ¬ (node_x n2 == node_x n1 - 20)%Q
    ∧ (Qabs (node_x n2 - (node_x n1 - 20))
       <= 6 * u * (0 + Qabs target.1 + 150 + 20))%Q.
Proof.
  intros A u clip first second target.
  destruct (copiedNodes clip !! 0%nat) as [c|] eqn:E;
    [|vm_compute in E; discriminate E].
  destruct (paste_twice_is_staggered A u (sampleGenId "copy-")
              (sampleGenId "again-") (Some (29, 29)) (800, 600)
              (zoomed bothSelected) clip)
    with (i := 0%nat) (c := c) as (n1 & n2 & H1 & H2 & Hx & _).
  - by vm_compute.
  - by vm_compute.
  - vm_compute. discriminate.
  - reflexivity.
  - apply (bool_decide_unpack _). vm_compute. exact I.
  - apply (bool_decide_unpack _). vm_compute. exact I.
  - exact E.
  - vm_compute in E. injection E as <-.
    exists n1, n2. split; [exact H1|]. split; [exact H2|].
    vm_compute in H1, H2. injection H1 as <-. injection H2 as <-.
    split; [by vm_compute|].
    apply Hx. by vm_compute.
Defined.

(** ** Project persistence *)

(** X25 — what is saved is what is loaded: loading the project that
    [buildProjectData] builds from a state restores that state's nodes,
    edges and camera (the saved [zoom] being the scale) and its project
    name, records the file path and clears the dirty flag; it leaves the
    undo history and the selection of the state it is loaded into as they
    were.  A failed load changes nothing, and neither does a failed or
    cancelled save. *)
Theorem project_round_trip (now filePath : string) (st st0 : CanvasState)
    (ps ps0 : ProjectState) :
  let loaded :=
    useProject.loadProjectByPath filePath
      (Some (useProject.buildProjectData now st ps)) st0 ps0 in
  loaded.1.1 = true
  ∧ nodes loaded.1.2 = nodes st ∧ edges loaded.1.2 = edges st
  ∧ camera loaded.1.2 = camera st
  ∧ isDirty loaded.1.2 = false
  ∧ loaded.2 = mkProjectState (Some filePath) (projectName ps)
  ∧ history loaded.1.2 = history st0
  ∧ selection loaded.1.2 = selection st0
  ∧ useProject.loadProjectByPath filePath None st0 ps0 = (false, st0, ps0)
  ∧ (∀ dialog,
       (useProject.save now dialog false st0 ps0).1.2 = st0
       ∧ (useProject.save now dialog false st0 ps0).2 = ps0)
  ∧ (truthy (currentFilePath ps0) = false →
     useProject.save now None true st0 ps0 = (false, None, st0, ps0)).
Proof.
  simpl. repeat split.
  - by destruct (camera st).
  - unfold useProject.save.
    destruct (truthy (if truthy (currentFilePath ps0)
                      then currentFilePath ps0 else dialog)); done.
  - unfold useProject.save.
    destruct (truthy (if truthy (currentFilePath ps0)
                      then currentFilePath ps0 else dialog)); done.
  - intros H. unfold useProject.save. by rewrite H.
Qed.

(** X26 — the new-project shortcut always empties the undo history: when
    there are unsaved changes and the confirmation is declined, nodes,
    edges, camera, dirty flag and project state stay as they are, yet both
    history stacks are emptied, so that undo and redo do nothing; when it
    goes ahead, the graph is empty, the camera is reset and the project is
    clean and untitled.  Opening a project does not touch the history. *)
Theorem new_project_clears_history (st : CanvasState) (ps : ProjectState) :
  (isDirty st = true →
   let r := useProject.handleNewProjectKey false st ps in
   nodes r.1 = nodes st ∧ edges r.1 = edges st ∧ camera r.1 = camera st
   ∧ isDirty r.1 = true ∧ r.2 = ps
   ∧ past (history r.1) = [] ∧ future (history r.1) = []
   ∧ Canvas.handleUndo r.1 = r.1 ∧ Canvas.handleRedo r.1 = r.1)
  ∧ (∀ confirmed, isDirty st = false ∨ confirmed = true →
       let r := useProject.handleNewProjectKey confirmed st ps in
       nodes r.1 = ∅ ∧ edges r.1 = ∅ ∧ camera r.1 = mkCamera 0 0 1
       ∧ isDirty r.1 = false ∧ r.2 = mkProjectState None "Untitled"
       ∧ past (history r.1) = [] ∧ future (history r.1) = [])
  ∧ (∀ confirmed dialog result,
       history (useProject.open confirmed dialog result st ps).1.2
       = history st).
Proof.
  split; [|split].
  - intros Hd r. subst r.
    unfold useProject.handleNewProjectKey, useProject.newProject,
      useProject.checkUnsavedChanges.
    rewrite Hd. simpl. repeat split; done.
  - intros confirmed Hgo r. subst r.
    unfold useProject.handleNewProjectKey, useProject.newProject,
      useProject.checkUnsavedChanges.
    destruct Hgo as [-> | ->]; simpl; [done|].
    by destruct (isDirty st).
  - intros confirmed dialog result.
    unfold useProject.open, useProject.loadProjectByPath.
    destruct (negb _); [done|]. destruct (truthy dialog); [|done].
    by destruct result.
Qed.

(** The sample session, with its unsaved changes, and the confirmation
    declined. *)
Lemma new_project_clears_history_sample :
  let r := useProject.handleNewProjectKey false connected useProject.initial in
  nodes r.1 = nodes connected ∧ edges r.1 = edges connected
  ∧ past (history r.1) = [] ∧ future (history r.1) = [].
Proof.
  intros r.
  destruct (proj1 (new_project_clears_history connected useProject.initial))
    as (H1 & H2 & _ & _ & _ & H3 & H4 & _); [reflexivity|].
  exact (conj H1 (conj H2 (conj H3 H4))).
Defined.
